(** * Wormhole engine: a shallow embedding of [src/wormhole-engine.ts]

    The engine keeps a corpus of code souls and, for every inserted soul,
    the list of wormhole connections found against the souls already
    present.  This file embeds the data model and the methods of
    [WormholeEngine] and proves properties of them.

    Numbers.  A JavaScript [number] is modelled by [number] below: a real
    value or one of the three special values of IEEE arithmetic.  Finite
    arithmetic is exact (rounding and overflow are abstracted away, the two
    signed zeros are merged into one), the special values follow IEEE 754:
    [x / 0] is an infinity for [x <> 0] and [NaN] for [x = 0], operations
    on [NaN] return [NaN], comparisons with [NaN] are false.

    Rounding.  The module [Double] adds the rounding of the doubles to
    these operations: to the nearest double, ties to even, overflow to an
    infinity.  The stability function, whose monotonicity and saturation
    depend on the rounding, is studied on this rounded model; the
    properties proved on the exact model are those that the rounding does
    not change. *)

From Stdlib Require Import Reals Lra Lia List String ZArith Bool Arith.
From Stdlib Require Import Permutation Sorted.
Import ListNotations.

Open Scope R_scope.

(** ** JavaScript numbers *)

Module JS.

Inductive number : Type :=
| Fin (r : R)
| PInf
| NInf
| NaN.

Definition Rltb (x y : R) : bool := if Rlt_dec x y then true else false.
Definition Reqb (x y : R) : bool := if Req_dec_T x y then true else false.

(** unary minus *)
Definition neg (a : number) : number :=
  match a with
  | Fin x => Fin (- x)
  | PInf => NInf
  | NInf => PInf
  | NaN => NaN
  end.

(** [a + b] *)
Definition add (a b : number) : number :=
  match a, b with
  | NaN, _ | _, NaN => NaN
  | Fin x, Fin y => Fin (x + y)
  | PInf, NInf | NInf, PInf => NaN
  | PInf, _ | _, PInf => PInf
  | NInf, _ | _, NInf => NInf
  end.

(** [a - b] *)
Definition sub (a b : number) : number := add a (neg b).

(** the infinity that has the sign of a finite non-zero factor, [NaN] at 0 *)
Definition signed_inf (x : R) (positive : bool) : number :=
  if Reqb x 0 then NaN
  else if Bool.eqb (Rltb 0 x) positive then PInf else NInf.

(** [a * b] *)
Definition mul (a b : number) : number :=
  match a, b with
  | NaN, _ | _, NaN => NaN
  | Fin x, Fin y => Fin (x * y)
  | Fin x, PInf | PInf, Fin x => signed_inf x true
  | Fin x, NInf | NInf, Fin x => signed_inf x false
  | PInf, PInf | NInf, NInf => PInf
  | PInf, NInf | NInf, PInf => NInf
  end.

(** [a / b]; a zero divisor is taken as [+0] *)
Definition div (a b : number) : number :=
  match a, b with
  | NaN, _ | _, NaN => NaN
  | Fin x, Fin y =>
      if Reqb y 0 then signed_inf x true else Fin (x / y)
  | Fin _, PInf | Fin _, NInf => Fin 0
  | PInf, Fin y => if Rltb y 0 then NInf else PInf
  | NInf, Fin y => if Rltb y 0 then PInf else NInf
  | PInf, PInf | PInf, NInf | NInf, PInf | NInf, NInf => NaN
  end.

(** [a > b] *)
Definition gt (a b : number) : bool :=
  match a, b with
  | NaN, _ | _, NaN => false
  | Fin x, Fin y => Rltb y x
  | PInf, PInf => false
  | PInf, _ => true
  | _, PInf => false
  | NInf, _ => false
  | Fin _, NInf => true
  end.

(** [a >= b] *)
Definition ge (a b : number) : bool :=
  match a, b with
  | NaN, _ | _, NaN => false
  | Fin x, Fin y => negb (Rltb x y)
  | PInf, _ => true
  | _, NInf => true
  | _, PInf => false
  | NInf, _ => false
  end.

(** [a <= b] *)
Definition le (a b : number) : bool := ge b a.

(** [a === b] on numbers *)
Definition strict_eq (a b : number) : bool :=
  match a, b with
  | Fin x, Fin y => Reqb x y
  | PInf, PInf | NInf, NInf => true
  | _, _ => false
  end.

(** [Math.sqrt] *)
Definition Math_sqrt (a : number) : number :=
  match a with
  | Fin x => if Rltb x 0 then NaN else Fin (sqrt x)
  | PInf => PInf
  | NInf | NaN => NaN
  end.

(** [Math.exp] *)
Definition Math_exp (a : number) : number :=
  match a with
  | Fin x => Fin (exp x)
  | PInf => PInf
  | NInf => Fin 0
  | NaN => NaN
  end.

(** [Math.pow(a, 2)] *)
Definition Math_pow2 (a : number) : number := mul a a.

(** [Math.max(a, b)]: [NaN] as soon as one argument is [NaN] *)
Definition Math_max (a b : number) : number :=
  match a, b with
  | NaN, _ | _, NaN => NaN
  | _, _ => if gt b a then b else a
  end.

(** the number of a length or an index *)
Definition of_nat (n : nat) : number := Fin (INR n).

(** a number is finite *)
Definition isFinite (a : number) : bool :=
  match a with Fin _ => true | _ => false end.

(** *** Arrays of numbers *)

(** [a[i]] read in a numeric context: a missing element is [undefined],
    which arithmetic turns into [NaN]. *)
Definition Array_get (a : list number) (i : nat) : number := nth i a NaN.

(** [a[i] = x]: in range the element is replaced; past the end JavaScript
    extends the array, the holes reading as [undefined]. *)
Fixpoint Array_set (i : nat) (x : number) (a : list number) : list number :=
  match i, a with
  | O, [] => [x]
  | O, _ :: t => x :: t
  | S i', [] => NaN :: Array_set i' x []
  | S i', h :: t => h :: Array_set i' x t
  end.

(** [new Array(n).fill(x)] *)
Definition Array_fill (n : nat) (x : number) : list number := repeat x n.

(** [a.sort(compare)].  ECMAScript requires the sort to be stable and, for
    a consistent comparator, fixes the result: it is the one a stable
    insertion sort produces.  A comparator value that is [NaN] counts as
    [+0]; [x] moves behind [y] only when [compare(x, y) > 0]. *)
Section Sort.
Context {A : Type} (compare : A -> A -> number).

Fixpoint sort_insert (x : A) (sorted : list A) : list A :=
  match sorted with
  | [] => [x]
  | y :: rest =>
      if gt (compare x y) (Fin 0) then y :: sort_insert x rest
      else x :: y :: rest
  end.

Fixpoint Array_sort (a : list A) : list A :=
  match a with
  | [] => []
  | x :: rest => sort_insert x (Array_sort rest)
  end.

End Sort.

(** *** Insertion-ordered [Map] with string keys *)

Section Map.
Context {V : Type}.

(** [m.get(k)] *)
Fixpoint Map_get (k : string) (m : list (string * V)) : option V :=
  match m with
  | [] => None
  | (k', v) :: rest => if String.eqb k' k then Some v else Map_get k rest
  end.

(** [m.set(k, v)]: an existing key keeps its place in the iteration
    order and takes the new value; a new key goes to the end. *)
Fixpoint Map_set (k : string) (v : V) (m : list (string * V))
  : list (string * V) :=
  match m with
  | [] => [(k, v)]
  | (k', v') :: rest =>
      if String.eqb k' k then (k, v) :: rest
      else (k', v') :: Map_set k v rest
  end.

Definition Map_keys (m : list (string * V)) : list string := map fst m.

End Map.

End JS.

Import JS.

(** ** The [vectorious] vectors the engine uses

    [Vector] is the class of the package [vectorious], a dependency whose
    code is not in the repository.  The engine calls three of its methods,
    always on two vectors of the engine's dimensionality. *)

Module Vector.

Definition t : Type := list number.

(** [new Vector(data)]: the vector holds a copy of the data *)
Definition new (data : list number) : t := data.

(** Modelled from the spec: [v1.dot(v2)], the method of [vectorious] behind
    "dot(vectorA, vectorB)": the sum of the coordinate products. *)
Definition dot (v1 v2 : t) : number :=
  fold_left (fun acc p => add acc (mul (fst p) (snd p))) (combine v1 v2) (Fin 0).

(** Modelled from the spec: [v1.subtract(v2)], the method of [vectorious]
    behind "vectorA - vectorB": the coordinate-wise difference, as a value
    of its own (the two operands are left as they are). *)
Definition subtract (v1 v2 : t) : t :=
  map (fun p => sub (fst p) (snd p)) (combine v1 v2).

(** Modelled from the spec: [v.norm()], the method of [vectorious] behind
    "Euclidean norm": the square root of the sum of the squares. *)
Definition norm (v : t) : number := Math_sqrt (dot v v).

End Vector.

(** ** Data model *)

(** The result of the external [ProteinHasher.computeHash]; only the two
    fields the engine reads. *)
Record ProteinHashResult : Type := {
  phash : string;
  eigenTop : list number
}.

Record CodeSoul : Type := {
  id : string;
  code : string;
  hash : string;
  eigenvalues : list number;
  vector : Vector.t;
  timestamp : Z;
  source : option string
}.

Record WormholeConnection : Type := {
  from : CodeSoul;
  to : CodeSoul;
  similarity : number;
  distance : number;
  energy : number;
  stability : number;
  resonance : number
}.

(** The two maps and the dimensionality of a [WormholeEngine].  The hasher
    is the parameter [computeHash] of the section below. *)
Record WormholeEngine : Type := {
  souls : list (string * CodeSoul);
  connections : list (string * list WormholeConnection);
  dimensionality : nat
}.

(** What a method throws. *)
Definition Error : Type := string.

(** ** Methods that only compute *)

(** [normalizeEigenvalues]: the write loop over
    [i < Math.min(eigenvalues.length, this.dimensionality)]. *)
Definition normalizeEigenvalues (this : WormholeEngine)
  (eigenvalues : list number) : list number :=
  let normalized := Array_fill (dimensionality this) (Fin 0) in
  fold_left
    (fun normalized i => Array_set i (Array_get eigenvalues i) normalized)
    (seq 0 (Nat.min (List.length eigenvalues) (dimensionality this)))
    normalized.

Definition euclideanDistance (v1 v2 : Vector.t) : number :=
  Vector.norm (Vector.subtract v1 v2).

Definition cosineSimilarity (v1 v2 : Vector.t) : number :=
  let dot := Vector.dot v1 v2 in
  let norm1 := Vector.norm v1 in
  let norm2 := Vector.norm v2 in
  if strict_eq norm1 (Fin 0) || strict_eq norm2 (Fin 0) then Fin 0
  else div dot (mul norm1 norm2).

Definition wormholeEnergy (distance similarity : number) : number :=
  if strict_eq similarity (Fin 0) then PInf
  else div (mul distance distance) similarity.

Definition wormholeStability (similarity : number) : number :=
  let k := Fin 10 in
  let x0 := Fin 0.8 in
  div (Fin 1) (add (Fin 1) (Math_exp (mul (neg k) (sub similarity x0)))).

Definition harmonicRatios : list number :=
  [Fin 1; Fin 2; Fin 0.5; Fin 1.5; Fin 0.667; Fin 1.333].

(** The body of the outer loop of [harmonicResonance] at index [i]: the
    best score of the ratio against the harmonic ratios. *)
Definition maxResonanceAt (eigen1 eigen2 : list number) (i : nat) : number :=
  let baseFreq := Fin 432 in
  let freq1 := mul baseFreq (Array_get eigen1 i) in
  let freq2 := mul baseFreq (Array_get eigen2 i) in
  let ratio := div freq2 freq1 in
  fold_left
    (fun maxResonance harmonic =>
       let resonance := Math_exp (neg (Math_pow2 (sub ratio harmonic))) in
       Math_max maxResonance resonance)
    harmonicRatios (Fin 0).

Definition harmonicResonance (eigen1 eigen2 : list number) : number :=
  let n := Nat.min (List.length eigen1) (List.length eigen2) in
  let resonanceSum :=
    fold_left
      (fun resonanceSum i => add resonanceSum (maxResonanceAt eigen1 eigen2 i))
      (seq 0 n) (Fin 0) in
  div resonanceSum (of_nat n).

(** ** Methods that change the engine

    A method runs on the engine it is called on and either returns a value
    or throws; in both cases it leaves an engine behind. *)

Definition M (A : Type) : Type := WormholeEngine -> WormholeEngine * (Error + A).

Definition ret {A} (a : A) : M A := fun this => (this, inr a).

Definition bind {A B} (m : M A) (f : A -> M B) : M B :=
  fun this =>
    match m this with
    | (this', inr a) => f a this'
    | (this', inl e) => (this', inl e)
    end.

Notation "x <- m ;; k" := (bind m (fun x => k))
  (at level 61, m at next level, right associativity).
Notation "m ;;; k" := (bind m (fun _ => k))
  (at level 61, right associativity).

(** read the engine *)
Definition get_this : M WormholeEngine := fun this => (this, inr this).

(** [this.souls.set(k, soul)] *)
Definition souls_set (k : string) (soul : CodeSoul) : M unit :=
  fun this =>
    ({| souls := Map_set k soul (souls this);
        connections := connections this;
        dimensionality := dimensionality this |}, inr tt).

(** [this.connections.set(k, l)] *)
Definition connections_set (k : string) (l : list WormholeConnection) : M unit :=
  fun this =>
    ({| souls := souls this;
        connections := Map_set k l (connections this);
        dimensionality := dimensionality this |}, inr tt).

(** a call that returns or throws without touching the engine *)
Definition lift {A} (r : Error + A) : M A := fun this => (this, r).

(** [id || fallback] for an optional string: [undefined] and the empty
    string are both falsy. *)
Definition or_else (id : option string) (fallback : string) : string :=
  match id with
  | Some s => if String.eqb s EmptyString then fallback else s
  | None => fallback
  end.

(** One round of the loop of [findWormholes] over the entries of
    [this.souls]: the connection to [otherSoul] is pushed when the
    similarity is above 0.7. *)
Definition findWormholes_step (soul : CodeSoul)
  (found : list WormholeConnection) (entry : string * CodeSoul)
  : list WormholeConnection :=
  let '(otherId, otherSoul) := entry in
  if String.eqb otherId (id soul) then found
  else
    let distance := euclideanDistance (vector soul) (vector otherSoul) in
    let similarity := cosineSimilarity (vector soul) (vector otherSoul) in
    let energy := wormholeEnergy distance similarity in
    let stability := wormholeStability similarity in
    let resonance := harmonicResonance (eigenvalues soul) (eigenvalues otherSoul) in
    if gt similarity (Fin 0.7) then
      found ++ [ {| from := soul; to := otherSoul; similarity := similarity;
                    distance := distance; energy := energy;
                    stability := stability; resonance := resonance |} ]
    else found.

(** the comparator [(a, b) => b.similarity - a.similarity] *)
Definition bySimilarity (a b : WormholeConnection) : number :=
  sub (similarity b) (similarity a).

Definition findWormholes (soul : CodeSoul) : M (list WormholeConnection) :=
  this <- get_this ;;
  let found := fold_left (findWormholes_step soul) (souls this) [] in
  let sorted := Array_sort bySimilarity found in
  connections_set (id soul) sorted ;;;
  ret sorted.

Section Engine.

(** [this.hasher.computeHash]: the external fingerprint function, which
    returns a result or throws. *)
Variable computeHash : string -> Error + ProteinHashResult.

(** [new WormholeEngine()] *)
Definition new_WormholeEngine : WormholeEngine :=
  {| souls := []; connections := []; dimensionality := 10 |}.

(** [addCodeSoul(code, id, source)]; [now] is the value [new Date()] reads. *)
Definition addCodeSoul (now : Z) (code : string) (id : option string)
  (source : option string) : M CodeSoul :=
  result <- lift (computeHash code) ;;
  let soulId := or_else id (phash result) in
  this <- get_this ;;
  let eigenvalues := normalizeEigenvalues this (eigenTop result) in
  let vector := Vector.new eigenvalues in
  let soul := {| id := soulId; code := code; hash := phash result;
                 eigenvalues := eigenvalues; vector := vector;
                 timestamp := now; source := source |} in
  souls_set soulId soul ;;;
  findWormholes soul ;;;
  ret soul.

End Engine.

(** ** Double precision

    The exact arithmetic above drops the rounding of IEEE doubles.  Where
    a property depends on it, the operations are taken rounded: every
    result is the double nearest to the exact one, ties going to the even
    significand, with 53 bits of significand, gradual underflow below
    [2^-1022] and overflow to an infinity from [2^1024] on. *)

Module Double.

(** [2^e] *)
Definition pow2 (e : Z) : R := exp (IZR e * ln 2).

(** the exponent of the binade of [x > 0], kept at -1022 for the
    subnormal numbers *)
Definition exponent (x : R) : Z := Z.max (Int_part (ln x / ln 2)) (- 1022).

(** the integer nearest to [m], the even one of the two at a tie *)
Definition nearest_even (m : R) : Z :=
  let f := Int_part m in
  let d := m - IZR f in
  if Rltb d (/ 2) then f
  else if Rltb (/ 2) d then (f + 1)%Z
  else if Z.even f then f else (f + 1)%Z.

(** [x > 0] rounded to a multiple of the unit in the last place of its
    binade *)
Definition round_pos (x : R) : R :=
  let ulp := pow2 (exponent x - 52) in
  IZR (nearest_even (x / ulp)) * ulp.

(** a real rounded to the nearest double, before overflow *)
Definition round64 (x : R) : R :=
  if Rltb 0 x then round_pos x
  else if Rltb x 0 then - round_pos (- x)
  else 0.

(** the double an exact result is rounded to *)
Definition rnd (a : number) : number :=
  match a with
  | Fin x =>
      let r := round64 x in
      if Rltb r (pow2 1024)
      then if Rltb (- pow2 1024) r then Fin r else NInf
      else PInf
  | _ => a
  end.

(** [a + b], [a - b], [a * b], [a / b] on doubles *)
Definition add (a b : number) : number := rnd (JS.add a b).
Definition sub (a b : number) : number := rnd (JS.sub a b).
Definition mul (a b : number) : number := rnd (JS.mul a b).
Definition div (a b : number) : number := rnd (JS.div a b).

(** [Math.exp] on doubles.  ECMAScript leaves its accuracy to the
    implementation; it is taken correctly rounded. *)
Definition Math_exp (a : number) : number := rnd (JS.Math_exp a).

(** [wormholeStability] with its operations rounded; the literals 10 and
    1 are doubles, 0.8 is read as the double nearest to it. *)
Definition wormholeStability (similarity : number) : number :=
  let k := Fin 10 in
  let x0 := rnd (Fin 0.8) in
  div (Fin 1) (add (Fin 1) (Math_exp (mul (neg k) (sub similarity x0)))).

End Double.

(** the order of the numbers that are not [NaN] *)
Definition num_le (a b : number) : Prop :=
  match a, b with
  | NaN, _ | _, NaN => False
  | NInf, _ => True
  | _, PInf => True
  | Fin x, Fin y => x <= y
  | _, _ => False
  end.

(** ** Query methods *)

(** [a < b] *)
Definition js_lt (a b : number) : bool := gt b a.

(** [ToIntegerOrInfinity] of a finite number: truncation towards zero *)
Definition trunc (r : R) : Z :=
  if Rltb r 0 then (- Int_part (- r))%Z else Int_part r.

(** The number of elements [a.slice(0, k)] keeps of an array of length
    [len]: [NaN] counts as 0, a negative [k] counts from the end, and the
    result is clamped to the array. *)
Definition slice_count (k : number) (len : nat) : nat :=
  match k with
  | NaN => 0%nat
  | PInf => len
  | NInf => 0%nat
  | Fin r =>
      let relativeEnd := trunc r in
      if (relativeEnd <? 0)%Z
      then Z.to_nat (Z.max (Z.of_nat len + relativeEnd) 0)
      else Z.to_nat (Z.min relativeEnd (Z.of_nat len))
  end.

(** [a.slice(0, k)] *)
Definition Array_slice0 {A : Type} (k : number) (a : list A) : list A :=
  firstn (slice_count k (List.length a)) a.

(** [getNearestNeighbors(soulId, k = 5)]; [None] is an omitted [k]. *)
Definition getNearestNeighbors (this : WormholeEngine) (soulId : string)
  (k : option number) : list WormholeConnection :=
  let k := match k with Some k => k | None => Fin 5 end in
  let connections :=
    match Map_get soulId (connections this) with
    | Some l => l
    | None => []
    end in
  Array_slice0 k connections.

(** [getStableWormholes(minStability = 0.8)] *)
Definition getStableWormholes (this : WormholeEngine)
  (minStability : option number) : list WormholeConnection :=
  let minStability := match minStability with Some m => m | None => Fin 0.8 end in
  fold_left
    (fun allConnections entry =>
       allConnections ++ filter (fun c => ge (stability c) minStability) (snd entry))
    (connections this) [].

(** [getResonantPairs(minResonance = 0.7)] *)
Definition getResonantPairs (this : WormholeEngine)
  (minResonance : option number) : list WormholeConnection :=
  let minResonance := match minResonance with Some m => m | None => Fin 0.7 end in
  fold_left
    (fun allConnections entry =>
       allConnections ++ filter (fun c => ge (resonance c) minResonance) (snd entry))
    (connections this) [].

(** *** [traverseWormhole] *)

Definition newline : Ascii.ascii := Ascii.ascii_of_nat 10.

(** [s.split('\n')] *)
Fixpoint split_lines (s : string) : list string :=
  match s with
  | EmptyString => [EmptyString]
  | String c rest =>
      if Ascii.eqb c newline then EmptyString :: split_lines rest
      else match split_lines rest with
           | [] => [String c EmptyString]
           | line :: lines => String c line :: lines
           end
  end.

(** [lines.join('\n')] *)
Fixpoint join_lines (lines : list string) : string :=
  match lines with
  | [] => EmptyString
  | [line] => line
  | line :: rest => line ++ String newline (join_lines rest)
  end.

(** [lines[i] || ''] *)
Definition line_at (lines : list string) (i : nat) : string :=
  nth i lines EmptyString.

Record Traversal : Type := {
  transformedCode : string;
  energyCost : number;
  traversalTime : number
}.

(** [traverseWormhole(connection)]; [random i] is the value of the call of
    [Math.random()] in round [i] of the loop. *)
Definition traverseWormhole (random : nat -> number)
  (connection : WormholeConnection) : Traversal :=
  let fromLines := split_lines (code (from connection)) in
  let toLines := split_lines (code (to connection)) in
  let blendFactor := similarity connection in
  let transformedLines :=
    fold_left
      (fun transformedLines i =>
         let fromLine := line_at fromLines i in
         let toLine := line_at toLines i in
         if js_lt (random i) blendFactor then transformedLines ++ [toLine]
         else transformedLines ++ [fromLine])
      (seq 0 (Nat.max (List.length fromLines) (List.length toLines))) [] in
  {| transformedCode := join_lines transformedLines;
     energyCost := energy connection;
     traversalTime := div (distance connection) (stability connection) |}.

(** *** [getMultiverseStats] *)

Record MultiverseStats : Type := {
  totalSouls : nat;
  totalWormholes : nat;
  averageSimilarity : number;
  maxSimilarity : number;
  stableWormholes : nat;
  resonantPairs : nat;
  connectionDensity : number
}.

(** The counters the two loops of [getMultiverseStats] update. *)
Record StatsLoop : Type := {
  totalConnections : nat;
  avgSimilarity : number;
  maxSimilarity_so_far : number;
  stableCount : nat;
  resonantCount : nat
}.

(** one round of the inner loop, over the connections of a list *)
Definition stats_conn (acc : StatsLoop) (conn : WormholeConnection) : StatsLoop :=
  {| totalConnections := totalConnections acc;
     avgSimilarity := add (avgSimilarity acc) (similarity conn);
     maxSimilarity_so_far := Math_max (maxSimilarity_so_far acc) (similarity conn);
     stableCount :=
       if gt (stability conn) (Fin 0.8) then S (stableCount acc)
       else stableCount acc;
     resonantCount :=
       if gt (resonance conn) (Fin 0.7) then S (resonantCount acc)
       else resonantCount acc |}.

(** one round of the outer loop, over the values of [this.connections] *)
Definition stats_list (acc : StatsLoop) (entry : string * list WormholeConnection)
  : StatsLoop :=
  let connections := snd entry in
  fold_left stats_conn connections
    {| totalConnections := totalConnections acc + List.length connections;
       avgSimilarity := avgSimilarity acc;
       maxSimilarity_so_far := maxSimilarity_so_far acc;
       stableCount := stableCount acc;
       resonantCount := resonantCount acc |}.

Definition getMultiverseStats (this : WormholeEngine) : MultiverseStats :=
  let totalSouls := List.length (souls this) in
  let acc :=
    fold_left stats_list (connections this)
      {| totalConnections := 0; avgSimilarity := Fin 0;
         maxSimilarity_so_far := Fin 0; stableCount := 0; resonantCount := 0 |} in
  let avgSimilarity :=
    if gt (of_nat (totalConnections acc)) (Fin 0)
    then div (avgSimilarity acc) (of_nat (totalConnections acc))
    else avgSimilarity acc in
  {| totalSouls := totalSouls;
     totalWormholes := totalConnections acc;
     averageSimilarity := avgSimilarity;
     maxSimilarity := maxSimilarity_so_far acc;
     stableWormholes := stableCount acc;
     resonantPairs := resonantCount acc;
     connectionDensity :=
       div (of_nat (totalConnections acc))
         (Math_max (Fin 1)
            (div (mul (of_nat totalSouls) (sub (of_nat totalSouls) (Fin 1)))
               (Fin 2))) |}.

(** *** [exportNetwork] *)

Module Node.
Record t : Type := {
  id : string;
  hash : string;
  eigenvalues : list number;
  source : option string
}.
End Node.

Module Edge.
Record t : Type := {
  source : string;
  target : string;
  similarity : number;
  distance : number;
  energy : number;
  stability : number;
  resonance : number
}.
End Edge.

Record Network : Type := {
  nodes : list Node.t;
  edges : list Edge.t
}.

(** the node [exportNetwork] makes of a soul *)
Definition node_of (soul : CodeSoul) : Node.t :=
  {| Node.id := id soul; Node.hash := hash soul;
     Node.eigenvalues := eigenvalues soul; Node.source := source soul |}.

(** the edge [exportNetwork] pushes for a connection stored under [fromId] *)
Definition edge_of (fromId : string) (conn : WormholeConnection) : Edge.t :=
  {| Edge.source := fromId; Edge.target := id (to conn);
     Edge.similarity := similarity conn; Edge.distance := distance conn;
     Edge.energy := energy conn; Edge.stability := stability conn;
     Edge.resonance := resonance conn |}.

Definition exportNetwork (this : WormholeEngine) : Network :=
  let nodes := map (fun entry => node_of (snd entry)) (souls this) in
  let edges :=
    fold_left
      (fun edges entry =>
         fold_left (fun edges conn => edges ++ [edge_of (fst entry) conn])
           (snd entry) edges)
      (connections this) [] in
  {| nodes := nodes; edges := edges |}.

(** ** Runs of the engine *)

(** The arguments of one call of [addCodeSoul], with the clock value. *)
Record Call : Type := {
  call_now : Z;
  call_code : string;
  call_id : option string;
  call_source : option string
}.

Section Runs.

Variable computeHash : string -> Error + ProteinHashResult.

(** The engine a call leaves behind, whether it returned or threw. *)
Definition after (this : WormholeEngine) (c : Call) : WormholeEngine :=
  fst (addCodeSoul computeHash (call_now c) (call_code c) (call_id c)
         (call_source c) this).

(** A sequence of calls, one after the other. *)
Definition run (calls : list Call) (this : WormholeEngine) : WormholeEngine :=
  fold_left after calls this.

(** The identifier a call stores its soul under, if the hasher returns. *)
Definition call_soulId (c : Call) : option string :=
  match computeHash (call_code c) with
  | inl _ => None
  | inr result => Some (or_else (call_id c) (phash result))
  end.

(** The engines that calls of [addCodeSoul] can produce from a new one. *)
Inductive reachable : WormholeEngine -> Prop :=
| reachable_new : reachable new_WormholeEngine
| reachable_add (this : WormholeEngine) (c : Call) :
    reachable this -> reachable (after this c).

End Runs.

(** ** The insertion step as the specification words it

    These follow the specification's description of step 5 of [insert]:
    every other item of the corpus is scored, and the pair is admitted
    when the similarity is above 0.7.  They are compared with the loop of
    [findWormholes] below. *)

(** the connection from [soul] to [otherSoul] with its five metrics *)
Definition connect (soul otherSoul : CodeSoul) : WormholeConnection :=
  let d := euclideanDistance (vector soul) (vector otherSoul) in
  let s := cosineSimilarity (vector soul) (vector otherSoul) in
  {| from := soul; to := otherSoul; similarity := s; distance := d;
     energy := wormholeEnergy d s; stability := wormholeStability s;
     resonance := harmonicResonance (eigenvalues soul) (eigenvalues otherSoul) |}.

(** the corpus entry is another item and is similar enough *)
Definition admits (soul : CodeSoul) (entry : string * CodeSoul) : bool :=
  negb (String.eqb (fst entry) (id soul))
  && gt (cosineSimilarity (vector soul) (vector (snd entry))) (Fin 0.7).

(** the admitted connections, in the enumeration order of the corpus *)
Definition admitted_spec (soul : CodeSoul) (corpus : list (string * CodeSoul))
  : list WormholeConnection :=
  map (fun entry => connect soul (snd entry)) (filter (admits soul) corpus).

(** similarity descending *)
Definition descending (a b : WormholeConnection) : Prop :=
  ge (similarity a) (similarity b) = true.

(** every coordinate of the vector is 0 *)
Definition all_zero (v : Vector.t) : Prop := Forall (fun x => x = Fin 0) v.

(** the similarity can be compared: it is not [NaN] *)
Definition ordered (c : WormholeConnection) : Prop := similarity c <> NaN.

(** the connections of a list whose similarity is [s] *)
Definition with_similarity (s : number) (l : list WormholeConnection)
  : list WormholeConnection :=
  filter (fun c => strict_eq (similarity c) s) l.

(** ** The outcome of a returning call *)

(** The soul a call constructs from the hasher's result. *)
Definition soul_of (this : WormholeEngine) (now : Z) (code : string)
  (id : option string) (source : option string) (result : ProteinHashResult)
  : CodeSoul :=
  {| id := or_else id (phash result); code := code; hash := phash result;
     eigenvalues := normalizeEigenvalues this (eigenTop result);
     vector := normalizeEigenvalues this (eigenTop result);
     timestamp := now; source := source |}.

(** The engine a returning call leaves behind. *)
Definition stored (this : WormholeEngine) (soul : CodeSoul) : WormholeEngine :=
  let corpus := Map_set (id soul) soul (souls this) in
  {| souls := corpus;
     connections :=
       Map_set (id soul) (Array_sort bySimilarity (admitted_spec soul corpus))
         (connections this);
     dimensionality := dimensionality this |}.

(** ** Invariants of the engine *)

(** every soul is stored under its own identifier *)
Definition souls_keyed (this : WormholeEngine) : Prop :=
  forall k s, In (k, s) (souls this) -> id s = k.

(** every recorded connection starts at the item it is recorded under,
    ends at another item and was admitted *)
Definition connections_wf (this : WormholeEngine) : Prop :=
  forall k l c,
    In (k, l) (connections this) -> In c l ->
    id (from c) = k /\ id (to c) <> k /\ gt (similarity c) (Fin 0.7) = true.

(** the two maps have the same keys, in the same order *)
Definition same_keys (this : WormholeEngine) : Prop :=
  Map_keys (souls this) = Map_keys (connections this).

(** every stored vector has the engine's dimensionality *)
Definition vectors_sized (this : WormholeEngine) : Prop :=
  forall k s, In (k, s) (souls this) ->
    List.length (vector s) = dimensionality this.

Definition engine_inv (this : WormholeEngine) : Prop :=
  souls_keyed this /\ connections_wf this /\ same_keys this /\
  vectors_sized this.

(** ** Shapes of souls and of the index *)

(** the soul's vector is its eigenvalue array, of length [D] *)
Definition soul_shaped (D : nat) (s : CodeSoul) : Prop :=
  vector s = eigenvalues s /\ List.length (eigenvalues s) = D.

(** every coordinate is a finite number *)
Definition finite_vector (v : list number) : Prop :=
  Forall (fun x => isFinite x = true) v.

(** the connections of all the lists of the index, in enumeration order *)
Definition all_connections (this : WormholeEngine) : list WormholeConnection :=
  List.concat (map snd (connections this)).

(** the real value of a finite number, 0 for the others *)
Definition real_of (a : number) : R :=
  match a with Fin x => x | _ => 0 end.

(** the sum of the coordinate products of two lists of reals *)
Fixpoint sum_products (l1 l2 : list R) : R :=
  match l1, l2 with
  | x :: l1', y :: l2' => x * y + sum_products l1' l2'
  | _, _ => 0
  end.

(** a string without line break is its own single line *)
Definition one_line (s : string) : Prop := split_lines s = [s].

(** the identifiers a sequence of calls stores souls under, in order *)
Definition stored_ids (computeHash : string -> Error + ProteinHashResult)
  (calls : list Call) : list string :=
  flat_map
    (fun c => match call_soulId computeHash c with
              | Some k => [k]
              | None => []
              end)
    calls.

(** the list at position [i] of the index has at most [i] connections *)
Definition lists_bounded (index : list (string * list WormholeConnection))
  : Prop :=
  forall i k l, nth_error index i = Some (k, l) -> (List.length l <= i)%nat.

(** ** Example data *)

(** A hasher for the examples: two codes with the same single feature, one
    with no feature at all, and failure on everything else. *)
Definition demoHash (code : string) : Error + ProteinHashResult :=
  if String.eqb code "a" then inr {| phash := "ha"; eigenTop := [Fin 1] |}
  else if String.eqb code "b" then inr {| phash := "hb"; eigenTop := [Fin 1] |}
  else if String.eqb code "z" then inr {| phash := "hz"; eigenTop := [] |}
  else inl "computeHash failed"%string.

Definition unit1 : list number :=
  [Fin 1; Fin 0; Fin 0; Fin 0; Fin 0; Fin 0; Fin 0; Fin 0; Fin 0; Fin 0].

Definition zeros10 : list number := repeat (Fin 0) 10.

Definition soulA : CodeSoul :=
  {| id := "ha"; code := "a"; hash := "ha"; eigenvalues := unit1;
     vector := unit1; timestamp := 0%Z; source := None |}.

Definition soulB : CodeSoul :=
  {| id := "x"; code := "b"; hash := "hb"; eigenvalues := unit1;
     vector := unit1; timestamp := 1%Z; source := None |}.

Definition soulZ : CodeSoul :=
  {| id := "x"; code := "z"; hash := "hz"; eigenvalues := zeros10;
     vector := zeros10; timestamp := 2%Z; source := None |}.

Definition callA : Call :=
  {| call_now := 0; call_code := "a"; call_id := None; call_source := None |}.

Definition callB : Call :=
  {| call_now := 1; call_code := "b"; call_id := Some "x"%string;
     call_source := None |}.

Definition callZ : Call :=
  {| call_now := 2; call_code := "z"; call_id := Some "x"%string;
     call_source := None |}.

(** the engine after inserting code [a] *)
Definition engineA : WormholeEngine :=
  {| souls := [("ha"%string, soulA)];
     connections := [("ha"%string, [])];
     dimensionality := 10 |}.

(** the engine after inserting code [a], then code [b] under identifier [x] *)
Definition engineAB : WormholeEngine :=
  {| souls := [("ha"%string, soulA); ("x"%string, soulB)];
     connections := [("ha"%string, []); ("x"%string, [connect soulB soulA])];
     dimensionality := 10 |}.

(** the engine after inserting code [z] under identifier [x] once more *)
Definition engineAZ : WormholeEngine :=
  {| souls := [("ha"%string, soulA); ("x"%string, soulZ)];
     connections := [("ha"%string, []); ("x"%string, [])];
     dimensionality := 10 |}.

(** code [b] inserted once more, under the identifier of code [a] *)
Definition callB2 : Call :=
  {| call_now := 4; call_code := "b"; call_id := Some "ha"%string;
     call_source := None |}.

Definition soulB2 : CodeSoul :=
  {| id := "ha"; code := "b"; hash := "hb"; eigenvalues := unit1;
     vector := unit1; timestamp := 4%Z; source := None |}.

(** the engine after [callA], [callB] and [callB2] *)
Definition engineBB : WormholeEngine :=
  {| souls := [("ha"%string, soulB2); ("x"%string, soulB)];
     connections := [("ha"%string, [connect soulB2 soulB]);
                     ("x"%string, [connect soulB soulA])];
     dimensionality := 10 |}.

(** * Properties *)

(** ** Deciding comparisons of reals *)

Ltac rdec :=
  unfold Rltb, Reqb in *;
  repeat match goal with
    | |- context [Rlt_dec ?a ?b] => destruct (Rlt_dec a b)
    | |- context [Req_dec_T ?a ?b] => destruct (Req_dec_T a b)
    | H : context [Rlt_dec ?a ?b] |- _ => destruct (Rlt_dec a b)
    | H : context [Req_dec_T ?a ?b] |- _ => destruct (Req_dec_T a b)
    end;
  simpl in *; try reflexivity; try discriminate; try lra.

Lemma Rltb_true (x y : R) : x < y -> Rltb x y = true.
Proof. intros; rdec. Qed.

Lemma Rltb_false (x y : R) : ~ x < y -> Rltb x y = false.
Proof. intros; rdec. Qed.

Lemma Reqb_true (x y : R) : x = y -> Reqb x y = true.
Proof. intros; rdec. Qed.

Lemma Reqb_false (x y : R) : x <> y -> Reqb x y = false.
Proof. intros; rdec. Qed.

(** ** Arrays *)

Lemma Array_set_at_end_of (p q : list number) (x y : number) :
  Array_set (List.length p) x (p ++ y :: q) = p ++ x :: q.
Proof. induction p as [|h p IH]; simpl; [reflexivity | now rewrite IH]. Qed.

Lemma firstn_snoc (l : list number) (m : nat) :
  (m < List.length l)%nat -> firstn (S m) l = firstn m l ++ [Array_get l m].
Proof.
  revert m; induction l as [|h l IH]; intros m Hm; simpl in Hm; [lia|].
  destruct m as [|m]; [reflexivity|].
  change (firstn (S (S m)) (h :: l)) with (h :: firstn (S m) l).
  rewrite IH by lia. reflexivity.
Qed.

Lemma firstn_length_app {A} (p q : list A) : firstn (List.length p) (p ++ q) = p.
Proof. induction p as [|h p IH]; simpl; [now destruct q | now rewrite IH]. Qed.

Lemma skipn_length_app {A} (p q : list A) : skipn (List.length p) (p ++ q) = q.
Proof. induction p as [|h p IH]; simpl; [reflexivity | exact IH]. Qed.

(** The write loop of [normalizeEigenvalues] after [m] rounds. *)
Lemma normalize_loop (D : nat) (eigenvalues : list number) (m : nat) :
  (m <= List.length eigenvalues)%nat -> (m <= D)%nat ->
  fold_left (fun normalized i => Array_set i (Array_get eigenvalues i) normalized)
    (seq 0 m) (Array_fill D (Fin 0))
  = firstn m eigenvalues ++ repeat (Fin 0) (D - m).
Proof.
  induction m as [|m IH]; intros Hl HD.
  - simpl. now rewrite Nat.sub_0_r.
  - rewrite seq_S, fold_left_app, IH by lia. cbn [fold_left Nat.add].
    replace (D - m)%nat with (S (D - S m)) by lia. cbn [repeat].
    assert (Hlen : List.length (firstn m eigenvalues) = m)
      by (rewrite length_firstn; lia).
    rewrite <- Hlen at 1.
    rewrite Array_set_at_end_of, firstn_snoc by lia.
    now rewrite <- app_assoc.
Qed.

Lemma normalizeEigenvalues_closed (this : WormholeEngine) (eigenvalues : list number) :
  let m := Nat.min (List.length eigenvalues) (dimensionality this) in
  normalizeEigenvalues this eigenvalues
  = firstn m eigenvalues ++ repeat (Fin 0) (dimensionality this - m).
Proof. unfold normalizeEigenvalues. apply normalize_loop; lia. Qed.

Lemma normalizeEigenvalues_length (this : WormholeEngine) (eigenvalues : list number) :
  List.length (normalizeEigenvalues this eigenvalues) = dimensionality this.
Proof.
  rewrite normalizeEigenvalues_closed, length_app, length_firstn, repeat_length.
  lia.
Qed.

Example normalizeEigenvalues_short :
  normalizeEigenvalues new_WormholeEngine [Fin 3; Fin 4]
  = [Fin 3; Fin 4; Fin 0; Fin 0; Fin 0; Fin 0; Fin 0; Fin 0; Fin 0; Fin 0].
Proof. reflexivity. Qed.

Example normalizeEigenvalues_long :
  normalizeEigenvalues new_WormholeEngine
    [Fin 1; Fin 2; Fin 3; Fin 4; Fin 5; Fin 6; Fin 7; Fin 8; Fin 9; Fin 10;
     Fin 11; Fin 12]
  = [Fin 1; Fin 2; Fin 3; Fin 4; Fin 5; Fin 6; Fin 7; Fin 8; Fin 9; Fin 10].
Proof. reflexivity. Qed.

(** C9. For every feature list, [normalizeEigenvalues] returns an array of
    length exactly the dimensionality [D]; its first
    [min (length eigenvalues) D] positions are those of the input, in
    order, and all the remaining positions are 0; on the empty list the
    result is all zeros.  The function is total: it has no failing case. *)
Theorem normalizeEigenvalues_spec :
  forall (this : WormholeEngine) (eigenvalues : list number),
    let D := dimensionality this in
    let m := Nat.min (List.length eigenvalues) D in
    let normalized := normalizeEigenvalues this eigenvalues in
    List.length normalized = D /\
    firstn m normalized = firstn m eigenvalues /\
    skipn m normalized = repeat (Fin 0) (D - m) /\
    normalizeEigenvalues this [] = repeat (Fin 0) D.
Proof.
  intros this eigenvalues D m normalized.
  assert (Hm : List.length (firstn m eigenvalues) = m)
    by (rewrite length_firstn; lia).
  split; [|split; [|split]].
  - apply normalizeEigenvalues_length.
  - subst normalized. rewrite normalizeEigenvalues_closed. fold D m.
    rewrite <- Hm at 1. apply firstn_length_app.
  - subst normalized. rewrite normalizeEigenvalues_closed. fold D m.
    rewrite <- Hm at 1. apply skipn_length_app.
  - rewrite normalizeEigenvalues_closed. simpl. now rewrite Nat.sub_0_r.
Qed.

(** ** Stability *)

Lemma wormholeStability_Fin (x : R) :
  wormholeStability (Fin x) = Fin (1 / (1 + exp (- 10 * (x - 0.8)))).
Proof.
  unfold wormholeStability. cbn [neg sub add mul Math_exp div].
  rewrite Reqb_false.
  - reflexivity.
  - match goal with |- context [exp ?a] => pose proof (exp_pos a) end. lra.
Qed.

Lemma logistic_increasing (x y : R) :
  x < y ->
  1 / (1 + exp (- 10 * (x - 0.8))) < 1 / (1 + exp (- 10 * (y - 0.8))).
Proof.
  intros Hxy.
  assert (He : exp (- 10 * (y - 0.8)) < exp (- 10 * (x - 0.8)))
    by (apply exp_increasing; lra).
  pose proof (exp_pos (- 10 * (y - 0.8))) as Hy.
  unfold Rdiv. rewrite !Rmult_1_l.
  apply Rinv_lt_contravar; [|lra].
  apply Rmult_lt_0_compat; lra.
Qed.


(** ** Maps *)

Section MapFacts.
Context {V : Type}.
Implicit Types (m : list (string * V)) (k : string) (v : V).

Lemma Map_get_set_same m k v : Map_get k (Map_set k v m) = Some v.
Proof.
  induction m as [|[k' v'] m IH]; simpl.
  - now rewrite String.eqb_refl.
  - destruct (String.eqb k' k) eqn:E; simpl.
    + now rewrite String.eqb_refl.
    + now rewrite E.
Qed.

Lemma Map_get_set_other m k k' v :
  k' <> k -> Map_get k' (Map_set k v m) = Map_get k' m.
Proof.
  intros Hne. induction m as [|[k0 v0] m IH]; simpl.
  - destruct (String.eqb k k') eqn:E; [|reflexivity].
    apply String.eqb_eq in E. congruence.
  - destruct (String.eqb k0 k) eqn:E; simpl.
    + apply String.eqb_eq in E. subst k0.
      destruct (String.eqb k k') eqn:E'; [|reflexivity].
      apply String.eqb_eq in E'. congruence.
    + now rewrite IH.
Qed.

Lemma Map_get_In m k v : Map_get k m = Some v -> In (k, v) m.
Proof.
  induction m as [|[k0 v0] m IH]; simpl; [discriminate|].
  destruct (String.eqb k0 k) eqn:E.
  - apply String.eqb_eq in E. intros [= ->]. left. now subst.
  - intros H. right. now apply IH.
Qed.

Lemma Map_get_None m k : Map_get k m = None -> ~ In k (Map_keys m).
Proof.
  induction m as [|[k0 v0] m IH]; simpl; [tauto|].
  destruct (String.eqb k0 k) eqn:E; [discriminate|].
  apply String.eqb_neq in E. intros H [H'|H']; [congruence | now apply IH].
Qed.

Lemma In_Map_set m k v k' v' :
  In (k', v') (Map_set k v m) -> (k' = k /\ v' = v) \/ In (k', v') m.
Proof.
  induction m as [|[k0 v0] m IH]; simpl.
  - intros [[= <- <-]|[]]. now left.
  - destruct (String.eqb k0 k) eqn:E; simpl.
    + intros [[= <- <-]|H]; [now left | now right; right].
    + intros [H|H]; [now right; left|].
      destruct (IH H) as [?|?]; [now left | now right; right].
Qed.

Lemma Map_keys_set m k v {W} (m' : list (string * W)) (w : W) :
  Map_keys m = Map_keys m' ->
  Map_keys (Map_set k v m) = Map_keys (Map_set k w m').
Proof.
  revert m'. induction m as [|[k0 v0] m IH]; intros [|[k1 w1] m']; simpl;
    try discriminate; [reflexivity|].
  intros [= <- Hk]. destruct (String.eqb k0 k); simpl; [now rewrite Hk|].
  f_equal. now apply IH.
Qed.

End MapFacts.

(** ** What one call of [addCodeSoul] does *)

(** The loop of [findWormholes] collects what the specification admits. *)
Lemma findWormholes_step_spec (soul : CodeSoul) (found : list WormholeConnection)
  (entry : string * CodeSoul) :
  findWormholes_step soul found entry
  = found ++ admitted_spec soul [entry].
Proof.
  destruct entry as [otherId otherSoul].
  unfold findWormholes_step, admitted_spec, admits. simpl.
  destruct (String.eqb otherId (id soul)); simpl; [now rewrite app_nil_r|].
  destruct (gt _ _); simpl; [reflexivity | now rewrite app_nil_r].
Qed.

Lemma findWormholes_loop_spec (soul : CodeSoul) (corpus : list (string * CodeSoul))
  (found : list WormholeConnection) :
  fold_left (findWormholes_step soul) corpus found
  = found ++ admitted_spec soul corpus.
Proof.
  revert found. induction corpus as [|entry corpus IH]; intros found; simpl.
  - unfold admitted_spec. simpl. now rewrite app_nil_r.
  - rewrite IH, findWormholes_step_spec, <- app_assoc. f_equal.
    unfold admitted_spec. simpl. destruct (admits soul entry); reflexivity.
Qed.

Section EngineFacts.

Variable computeHash : string -> Error + ProteinHashResult.

Lemma findWormholes_run (soul : CodeSoul) (this : WormholeEngine) :
  findWormholes soul this
  = ({| souls := souls this;
        connections :=
          Map_set (id soul)
            (Array_sort bySimilarity (admitted_spec soul (souls this)))
            (connections this);
        dimensionality := dimensionality this |},
     inr (Array_sort bySimilarity (admitted_spec soul (souls this)))).
Proof.
  unfold findWormholes, bind, get_this, connections_set, ret.
  now rewrite findWormholes_loop_spec.
Qed.

Lemma addCodeSoul_run (now : Z) (code : string) (id : option string)
  (source : option string) (this : WormholeEngine) :
  addCodeSoul computeHash now code id source this
  = match computeHash code with
    | inl e => (this, inl e)
    | inr result =>
        let soul := soul_of this now code id source result in
        (stored this soul, inr soul)
    end.
Proof.
  unfold addCodeSoul, bind at 1, lift.
  destruct (computeHash code) as [e|result]; [reflexivity|].
  unfold bind at 1, get_this, bind at 1, souls_set, bind.
  rewrite findWormholes_run. reflexivity.
Qed.

Lemma addCodeSoul_returns (now : Z) (code : string) (id : option string)
  (source : option string) (this this' : WormholeEngine) (soul : CodeSoul) :
  addCodeSoul computeHash now code id source this = (this', inr soul) ->
  exists result,
    computeHash code = inr result /\
    soul = soul_of this now code id source result /\
    this' = stored this soul.
Proof.
  rewrite addCodeSoul_run. destruct (computeHash code) as [e|result];
    [discriminate|].
  intros [= <- <-]. now exists result.
Qed.

(** A call either throws and leaves the engine as it was, or stores. *)
Lemma after_cases (this : WormholeEngine) (c : Call) :
  (call_soulId computeHash c = None /\ after computeHash this c = this) \/
  (exists soul,
      call_soulId computeHash c = Some (id soul) /\
      after computeHash this c = stored this soul).
Proof.
  unfold after, call_soulId. rewrite addCodeSoul_run.
  destruct (computeHash (call_code c)) as [e|result]; [now left|].
  right. eexists. split; [|reflexivity]. reflexivity.
Qed.

End EngineFacts.

(** ** Failure of the hasher *)

(** C6. When the fingerprint collaborator throws, [addCodeSoul] throws the
    same error and the engine is exactly what it was: no soul is stored
    and no entry is added to the connection index. *)
Theorem addCodeSoul_hasher_failure :
  forall (computeHash : string -> Error + ProteinHashResult)
         (now : Z) (code : string) (id source : option string)
         (this : WormholeEngine) (e : Error),
    computeHash code = inl e ->
    addCodeSoul computeHash now code id source this = (this, inl e).
Proof.
  intros computeHash now code id source this e He.
  rewrite addCodeSoul_run, He. reflexivity.
Qed.

Lemma addCodeSoul_hasher_failure_witness :
  demoHash "?" = inl "computeHash failed"%string /\
  addCodeSoul demoHash 3 "?" None None engineAB
  = (engineAB, inl "computeHash failed"%string).
Proof.
  split; [reflexivity|].
  apply (addCodeSoul_hasher_failure demoHash 3 "?" None None engineAB).
  reflexivity.
Defined.

(** ** Frame of an insertion *)

Lemma stored_connections_other (this : WormholeEngine) (soul : CodeSoul) (k : string) :
  k <> id soul ->
  Map_get k (connections (stored this soul)) = Map_get k (connections this).
Proof. intros Hk. unfold stored. simpl. now apply Map_get_set_other. Qed.

(** C4. When [addCodeSoul] returns a soul whose identifier was not in the
    corpus, the connection list of every item that was already there is
    what it was before: the connections found by the insertion are
    recorded under the new identifier only, and the lists under all other
    identifiers are untouched. *)
Theorem addCodeSoul_frame :
  forall (computeHash : string -> Error + ProteinHashResult)
         (now : Z) (code : string) (id0 source : option string)
         (this this' : WormholeEngine) (soul : CodeSoul),
    addCodeSoul computeHash now code id0 source this = (this', inr soul) ->
    Map_get (id soul) (souls this) = None ->
    (forall k item,
        Map_get k (souls this) = Some item ->
        Map_get k (connections this') = Map_get k (connections this)) /\
    (forall k,
        k <> id soul ->
        Map_get k (connections this') = Map_get k (connections this)).
Proof.
  intros computeHash now code id0 source this this' soul Hrun Hfresh.
  apply addCodeSoul_returns in Hrun as (result & _ & _ & ->).
  split.
  - intros k item Hk. apply stored_connections_other.
    intros ->. congruence.
  - intros k Hk. now apply stored_connections_other.
Qed.

(** ** The example engines *)

Lemma dot_unit1 : Vector.dot unit1 unit1 = Fin 1.
Proof. unfold Vector.dot, unit1. simpl. f_equal. lra. Qed.

Lemma norm_unit1 : Vector.norm unit1 = Fin 1.
Proof.
  unfold Vector.norm. rewrite dot_unit1. simpl.
  rewrite Rltb_false by lra. now rewrite sqrt_1.
Qed.

Lemma cosineSimilarity_unit1 : cosineSimilarity unit1 unit1 = Fin 1.
Proof.
  unfold cosineSimilarity. rewrite dot_unit1, norm_unit1. simpl.
  rewrite !Reqb_false by lra. simpl. f_equal. lra.
Qed.

Lemma dot_zeros10 : Vector.dot zeros10 zeros10 = Fin 0.
Proof. unfold Vector.dot, zeros10. simpl. f_equal. lra. Qed.

Lemma norm_zeros10 : Vector.norm zeros10 = Fin 0.
Proof.
  unfold Vector.norm. rewrite dot_zeros10. simpl.
  rewrite Rltb_false by lra. now rewrite sqrt_0.
Qed.

Lemma cosineSimilarity_zeros10 (v : Vector.t) : cosineSimilarity zeros10 v = Fin 0.
Proof.
  unfold cosineSimilarity. rewrite norm_zeros10. simpl.
  now rewrite Reqb_true.
Qed.

#[local] Arguments cosineSimilarity : simpl never.
#[local] Arguments connect : simpl never.

Lemma after_new_callA : after demoHash new_WormholeEngine callA = engineA.
Proof.
  unfold after. rewrite addCodeSoul_run. reflexivity.
Qed.

Lemma addCodeSoul_engineA_b :
  addCodeSoul demoHash 1 "b" (Some "x"%string) None engineA = (engineAB, inr soulB).
Proof.
  rewrite addCodeSoul_run.
  change (demoHash "b") with (inr {| phash := "hb"; eigenTop := [Fin 1] |} : Error + _).
  cbv beta iota zeta.
  change (soul_of engineA 1 "b" (Some "x"%string) None
            {| phash := "hb"; eigenTop := [Fin 1] |}) with soulB.
  f_equal.
  unfold stored, engineAB, engineA, admitted_spec, admits. simpl.
  change (vector soulB) with unit1.
  rewrite cosineSimilarity_unit1. simpl. rewrite Rltb_true by lra.
  reflexivity.
Qed.

Lemma addCodeSoul_engineAB_z :
  addCodeSoul demoHash 2 "z" (Some "x"%string) None engineAB = (engineAZ, inr soulZ).
Proof.
  rewrite addCodeSoul_run.
  change (demoHash "z") with (inr {| phash := "hz"; eigenTop := [] |} : Error + _).
  cbv beta iota zeta.
  change (soul_of engineAB 2 "z" (Some "x"%string) None
            {| phash := "hz"; eigenTop := [] |}) with soulZ.
  f_equal.
  unfold stored, engineAB, engineAZ, admitted_spec, admits. simpl.
  change (vector soulZ) with zeros10.
  rewrite !cosineSimilarity_zeros10. simpl. rewrite Rltb_false by lra.
  reflexivity.
Qed.

Lemma addCodeSoul_engineAB_b2 :
  addCodeSoul demoHash 4 "b" (Some "ha"%string) None engineAB
  = (engineBB, inr soulB2).
Proof.
  rewrite addCodeSoul_run.
  change (demoHash "b") with (inr {| phash := "hb"; eigenTop := [Fin 1] |} : Error + _).
  cbv beta iota zeta.
  change (soul_of engineAB 4 "b" (Some "ha"%string) None
            {| phash := "hb"; eigenTop := [Fin 1] |}) with soulB2.
  f_equal.
  unfold stored, engineAB, engineBB, admitted_spec, admits. simpl.
  change (vector soulB2) with unit1. change (vector soulB) with unit1.
  rewrite cosineSimilarity_unit1. simpl. rewrite Rltb_true by lra.
  reflexivity.
Qed.

Lemma addCodeSoul_frame_witness :
  addCodeSoul demoHash 1 "b" (Some "x"%string) None engineA = (engineAB, inr soulB) /\
  Map_get (id soulB) (souls engineA) = None /\
  Map_get "ha" (souls engineA) = Some soulA /\
  "ha"%string <> id soulB /\
  Map_get "ha" (connections engineAB) = Map_get "ha" (connections engineA) /\
  Map_get "ha" (connections engineAB) = Map_get "ha" (connections engineA).
Proof.
  pose proof (addCodeSoul_frame demoHash 1 "b" (Some "x"%string) None
                engineA engineAB soulB addCodeSoul_engineA_b eq_refl) as [H1 H2].
  assert (Hne : "ha"%string <> id soulB) by discriminate.
  exact (conj addCodeSoul_engineA_b
           (conj eq_refl
              (conj eq_refl
                 (conj Hne
                    (conj (H1 "ha"%string soulA eq_refl)
                       (H2 "ha"%string Hne)))))).
Defined.

(** ** Order of numbers *)

Lemma gt_sub_ge (a b : number) :
  gt (sub b a) (Fin 0) = true -> ge b a = true.
Proof. destruct a, b; simpl; try discriminate; try reflexivity; intros; rdec. Qed.

Lemma not_gt_sub_ge (a b : number) :
  a <> NaN -> b <> NaN -> gt (sub b a) (Fin 0) = false -> ge a b = true.
Proof.
  destruct a, b; simpl; try discriminate; try reflexivity; try congruence;
    intros; rdec.
Qed.

Lemma ge_trans (a b c : number) :
  ge a b = true -> ge b c = true -> ge a c = true.
Proof.
  destruct a, b, c; simpl; try discriminate; try reflexivity; intros; rdec.
Qed.

Lemma gt_not_ge (a b : number) : gt a b = true -> ge b a = false.
Proof. destruct a, b; simpl; try discriminate; try reflexivity; intros; rdec. Qed.

Lemma gt_not_NaN (a b : number) : gt a b = true -> a <> NaN.
Proof. destruct a; simpl; discriminate. Qed.

Lemma strict_eq_sub (a b s : number) :
  strict_eq a s = true -> strict_eq b s = true -> gt (sub b a) (Fin 0) = false.
Proof.
  destruct a, b, s; simpl; try discriminate; try reflexivity; intros; rdec.
Qed.

(** ** Sorting by similarity *)

Lemma sort_insert_perm {A} (compare : A -> A -> number) (x : A) (l : list A) :
  Permutation (x :: l) (sort_insert compare x l).
Proof.
  induction l as [|y l IH]; simpl; [reflexivity|].
  destruct (gt _ _); [|reflexivity].
  rewrite perm_swap. now constructor.
Qed.

Lemma Array_sort_perm {A} (compare : A -> A -> number) (l : list A) :
  Permutation l (Array_sort compare l).
Proof.
  induction l as [|x l IH]; simpl; [reflexivity|].
  rewrite <- sort_insert_perm. now constructor.
Qed.

Lemma sort_insert_sorted (x : WormholeConnection) (l : list WormholeConnection) :
  ordered x -> Forall ordered l ->
  StronglySorted descending l ->
  StronglySorted descending (sort_insert bySimilarity x l).
Proof.
  intros Hx Hl Hs. induction Hs as [|y l Hs IH Hy]; simpl.
  - repeat constructor.
  - inversion Hl as [|? ? Hoy Hol]; subst.
    unfold bySimilarity at 1.
    destruct (gt (sub (similarity y) (similarity x)) (Fin 0)) eqn:E.
    + constructor; [now apply IH|].
      apply (Permutation_Forall (sort_insert_perm bySimilarity x l)).
      constructor; [|exact Hy]. now apply gt_sub_ge.
    + assert (Hxy : descending x y) by now apply not_gt_sub_ge.
      constructor; [now constructor|].
      constructor; [exact Hxy|].
      eapply Forall_impl; [|exact Hy].
      intros z Hz. eapply ge_trans; eassumption.
Qed.

Lemma Array_sort_sorted (l : list WormholeConnection) :
  Forall ordered l -> StronglySorted descending (Array_sort bySimilarity l).
Proof.
  induction l as [|x l IH]; intros Hl; simpl; [constructor|].
  inversion Hl; subst.
  apply sort_insert_sorted; [assumption | | now apply IH].
  now apply (Permutation_Forall (Array_sort_perm bySimilarity l)).
Qed.

Lemma sort_insert_stable (s : number) (x : WormholeConnection)
  (l : list WormholeConnection) :
  with_similarity s (sort_insert bySimilarity x l) = with_similarity s (x :: l).
Proof.
  unfold with_similarity.
  induction l as [|y l IH]; [reflexivity|].
  cbn [sort_insert]. unfold bySimilarity at 1.
  destruct (gt (sub (similarity y) (similarity x)) (Fin 0)) eqn:E; [|reflexivity].
  cbn [filter] in *. rewrite IH.
  destruct (strict_eq (similarity x) s) eqn:Ex;
    destruct (strict_eq (similarity y) s) eqn:Ey; try reflexivity.
  rewrite (strict_eq_sub _ _ _ Ex Ey) in E. discriminate.
Qed.

Lemma Array_sort_stable (s : number) (l : list WormholeConnection) :
  with_similarity s (Array_sort bySimilarity l) = with_similarity s l.
Proof.
  induction l as [|x l IH]; [reflexivity|].
  cbn [Array_sort]. rewrite sort_insert_stable.
  unfold with_similarity in *. cbn [filter]. now rewrite IH.
Qed.

(** ** Invariants of the reachable engines *)

Lemma In_admitted_spec (soul : CodeSoul) (corpus : list (string * CodeSoul))
  (c : WormholeConnection) :
  In c (admitted_spec soul corpus) ->
  exists k other,
    In (k, other) corpus /\ k <> id soul /\ c = connect soul other /\
    gt (similarity c) (Fin 0.7) = true.
Proof.
  unfold admitted_spec. rewrite in_map_iff.
  intros ([k other] & <- & Hin). apply filter_In in Hin as [Hin Hadm].
  unfold admits in Hadm. apply andb_true_iff in Hadm as [Hk Hs].
  apply negb_true_iff, String.eqb_neq in Hk.
  exists k, other. repeat split; assumption.
Qed.

Lemma admitted_spec_ordered (soul : CodeSoul) (corpus : list (string * CodeSoul)) :
  Forall ordered (admitted_spec soul corpus).
Proof.
  apply Forall_forall. intros c Hc.
  apply In_admitted_spec in Hc as (k & other & _ & _ & _ & Hs).
  exact (gt_not_NaN _ _ Hs).
Qed.

Lemma stored_inv (this : WormholeEngine) (soul : CodeSoul) :
  List.length (vector soul) = dimensionality this ->
  engine_inv this -> engine_inv (stored this soul).
Proof.
  intros Hlen (Hkeyed & Hwf & Hkeys & Hsized).
  assert (Hkeyed' : souls_keyed (stored this soul)).
  { intros k s Hin. simpl in Hin.
    apply In_Map_set in Hin as [[-> ->]|Hin]; [reflexivity | now apply Hkeyed]. }
  split; [exact Hkeyed'|]. split; [|split].
  - intros k l c Hkl Hc. simpl in Hkl.
    apply In_Map_set in Hkl as [[-> ->]|Hin]; [|now apply (Hwf k l c)].
    apply (Permutation_in _ (Permutation_sym (Array_sort_perm _ _))) in Hc.
    apply In_admitted_spec in Hc as (k' & other & Hin & Hne & -> & Hs).
    apply Hkeyed' in Hin.
    split; [reflexivity|]. split; [|exact Hs].
    unfold connect. simpl. congruence.
  - unfold same_keys, stored. simpl. now apply Map_keys_set.
  - intros k s Hin. simpl in Hin.
    apply In_Map_set in Hin as [[-> ->]|Hin]; [exact Hlen | now apply (Hsized k)].
Qed.

Lemma new_WormholeEngine_inv : engine_inv new_WormholeEngine.
Proof.
  split; [intros k s []|]. split; [intros k l c []|].
  split; [reflexivity | intros k s []].
Qed.

Lemma reachable_inv (computeHash : string -> Error + ProteinHashResult)
  (this : WormholeEngine) :
  reachable computeHash this -> engine_inv this.
Proof.
  induction 1 as [|this c Hr IH]; [exact new_WormholeEngine_inv|].
  unfold after. rewrite addCodeSoul_run.
  destruct (computeHash (call_code c)) as [e|result]; [exact IH|].
  simpl. apply stored_inv; [|exact IH].
  apply normalizeEigenvalues_length.
Qed.

Lemma after_engineA_callB : after demoHash engineA callB = engineAB.
Proof.
  unfold after, callB. cbn [call_now call_code call_id call_source].
  now rewrite addCodeSoul_engineA_b.
Qed.

Lemma after_engineAB_callZ : after demoHash engineAB callZ = engineAZ.
Proof.
  unfold after, callZ. cbn [call_now call_code call_id call_source].
  now rewrite addCodeSoul_engineAB_z.
Qed.

Lemma reachable_engineAB : reachable demoHash engineAB.
Proof.
  rewrite <- after_engineA_callB, <- after_new_callA.
  do 2 apply reachable_add. apply reachable_new.
Qed.

(** C3. In every engine that calls of [addCodeSoul] can produce, every
    connection stored in a connection list has a similarity strictly
    above 0.7; none has a similarity at most 0.7. *)
Theorem stored_similarity_above_threshold :
  forall (computeHash : string -> Error + ProteinHashResult)
         (this : WormholeEngine),
    reachable computeHash this ->
    forall k l c,
      Map_get k (connections this) = Some l -> In c l ->
      gt (similarity c) (Fin 0.7) = true /\ le (similarity c) (Fin 0.7) = false.
Proof.
  intros computeHash this Hr k l c Hk Hc.
  destruct (reachable_inv _ _ Hr) as (_ & Hwf & _).
  destruct (Hwf k l c (Map_get_In _ _ _ Hk) Hc) as (_ & _ & Hs).
  split; [exact Hs | now apply gt_not_ge].
Qed.

Lemma stored_similarity_above_threshold_witness :
  reachable demoHash engineAB /\
  Map_get "x" (connections engineAB) = Some [connect soulB soulA] /\
  In (connect soulB soulA) [connect soulB soulA] /\
  gt (similarity (connect soulB soulA)) (Fin 0.7) = true /\
  le (similarity (connect soulB soulA)) (Fin 0.7) = false.
Proof.
  exact (conj reachable_engineAB
           (conj eq_refl
              (conj (or_introl eq_refl)
                 (stored_similarity_above_threshold demoHash engineAB
                    reachable_engineAB "x"%string [connect soulB soulA]
                    (connect soulB soulA) eq_refl (or_introl eq_refl))))).
Defined.

(** C10. In every engine that calls of [addCodeSoul] can produce (so after
    every completed call), the connection index and the corpus have the
    same identifiers as keys, and every connection stored under an
    identifier starts at the item with that identifier and ends at an
    item with another identifier. *)
Theorem index_matches_corpus :
  forall (computeHash : string -> Error + ProteinHashResult)
         (this : WormholeEngine),
    reachable computeHash this ->
    (forall k, In k (Map_keys (connections this)) <-> In k (Map_keys (souls this))) /\
    (forall k l c,
        Map_get k (connections this) = Some l -> In c l ->
        id (from c) = k /\ id (to c) <> k).
Proof.
  intros computeHash this Hr.
  destruct (reachable_inv _ _ Hr) as (_ & Hwf & Hkeys & _).
  split.
  - intros k. unfold same_keys in Hkeys. now rewrite Hkeys.
  - intros k l c Hk Hc.
    destruct (Hwf k l c (Map_get_In _ _ _ Hk) Hc) as (Hf & Ht & _).
    now split.
Qed.

Lemma index_matches_corpus_witness :
  reachable demoHash engineAB /\
  Map_get "x" (connections engineAB) = Some [connect soulB soulA] /\
  In (connect soulB soulA) [connect soulB soulA] /\
  (In "x"%string (Map_keys (connections engineAB))
   <-> In "x"%string (Map_keys (souls engineAB))) /\
  id (from (connect soulB soulA)) = "x"%string /\
  id (to (connect soulB soulA)) <> "x"%string.
Proof.
  pose proof (index_matches_corpus demoHash engineAB reachable_engineAB)
    as [Hkeys Hends].
  exact (conj reachable_engineAB
           (conj eq_refl
              (conj (or_introl eq_refl)
                 (conj (Hkeys "x"%string)
                    (Hends "x"%string [connect soulB soulA]
                       (connect soulB soulA) eq_refl (or_introl eq_refl)))))).
Defined.

(** ** The list recorded by an insertion *)

(** C2 (as the code has it).  A returning call of [addCodeSoul] returns the
    new soul only.  The admitted connections of the insertion, sorted by
    similarity descending with ties in the enumeration order of the
    corpus, are what [findWormholes] returns and what is recorded as the
    new soul's connection list. *)
Theorem addCodeSoul_records_sorted :
  forall (computeHash : string -> Error + ProteinHashResult)
         (now : Z) (code : string) (id0 source : option string)
         (this this' : WormholeEngine) (soul : CodeSoul),
    addCodeSoul computeHash now code id0 source this = (this', inr soul) ->
    let admitted := admitted_spec soul (souls this') in
    exists sorted,
      findWormholes soul
        {| souls := souls this'; connections := connections this;
           dimensionality := dimensionality this |} = (this', inr sorted) /\
      Map_get (id soul) (connections this') = Some sorted /\
      Permutation admitted sorted /\
      StronglySorted descending sorted /\
      (forall s, with_similarity s sorted = with_similarity s admitted).
Proof.
  intros computeHash now code id0 source this this' soul Hrun admitted.
  apply addCodeSoul_returns in Hrun as (result & _ & _ & ->).
  exists (Array_sort bySimilarity admitted). subst admitted.
  split; [now rewrite findWormholes_run|].
  split; [apply Map_get_set_same|].
  split; [apply Array_sort_perm|].
  split; [apply Array_sort_sorted, admitted_spec_ordered|].
  intros s. apply Array_sort_stable.
Qed.

Lemma addCodeSoul_records_sorted_witness :
  addCodeSoul demoHash 1 "b" (Some "x"%string) None engineA = (engineAB, inr soulB) /\
  exists sorted,
    findWormholes soulB
      {| souls := souls engineAB; connections := connections engineA;
         dimensionality := dimensionality engineA |} = (engineAB, inr sorted) /\
    Map_get (id soulB) (connections engineAB) = Some sorted /\
    Permutation (admitted_spec soulB (souls engineAB)) sorted /\
    StronglySorted descending sorted /\
    (forall s, with_similarity s sorted
               = with_similarity s (admitted_spec soulB (souls engineAB))).
Proof.
  exact (conj addCodeSoul_engineA_b
           (addCodeSoul_records_sorted demoHash 1 "b" (Some "x"%string) None
              engineA engineAB soulB addCodeSoul_engineA_b)).
Defined.

Lemma addCodeSoul_new_b :
  addCodeSoul demoHash 1 "b" (Some "x"%string) None new_WormholeEngine
  = ({| souls := [("x"%string, soulB)]; connections := [("x"%string, [])];
        dimensionality := 10 |}, inr soulB).
Proof. rewrite addCodeSoul_run. reflexivity. Qed.

(** The value [addCodeSoul] returns does not carry the connection list:
    the same call returns the same soul on the empty engine, where it
    records no connection, and on the engine holding [soulA], where it
    records one. *)
Lemma addCodeSoul_returns_soul_only :
  snd (addCodeSoul demoHash 1 "b" (Some "x"%string) None new_WormholeEngine)
  = inr soulB /\
  snd (addCodeSoul demoHash 1 "b" (Some "x"%string) None engineA)
  = inr soulB /\
  Map_get "x"
    (connections
       (fst (addCodeSoul demoHash 1 "b" (Some "x"%string) None new_WormholeEngine)))
  = Some [] /\
  Map_get "x"
    (connections (fst (addCodeSoul demoHash 1 "b" (Some "x"%string) None engineA)))
  = Some [connect soulB soulA] /\
  ~ (exists listOf : Error + CodeSoul -> list WormholeConnection,
        forall this : WormholeEngine,
          let out := addCodeSoul demoHash 1 "b" (Some "x"%string) None this in
          Map_get "x" (connections (fst out)) = Some (listOf (snd out))).
Proof.
  rewrite addCodeSoul_new_b, addCodeSoul_engineA_b.
  repeat (split; [reflexivity|]).
  intros [listOf H].
  pose proof (H new_WormholeEngine) as H1. pose proof (H engineA) as H2.
  cbv zeta in H1, H2. rewrite addCodeSoul_new_b in H1.
  rewrite addCodeSoul_engineA_b in H2. simpl in H1, H2.
  rewrite <- H1 in H2. discriminate.
Qed.

(** ** Persistence of recorded connections *)

Lemma after_connections_other (computeHash : string -> Error + ProteinHashResult)
  (this : WormholeEngine) (c : Call) (k : string) :
  call_soulId computeHash c <> Some k ->
  Map_get k (connections (after computeHash this c)) = Map_get k (connections this).
Proof.
  intros Hk. destruct (after_cases computeHash this c) as [[_ ->]|(soul & Hid & ->)];
    [reflexivity|].
  apply stored_connections_other. intros ->. now apply Hk.
Qed.

(** C1 (as the code has it).  For every sequence of calls of [addCodeSoul],
    the connection list recorded under an identifier stays what it was as
    long as no call of the sequence stores a soul under that identifier.
    A returning call replaces the list recorded under the identifier of
    the soul it returns, whatever that list was, by the list of its own
    insertion: the sorted admitted connections of the returned soul. *)
Theorem connections_persist_unless_id_reused :
  forall (computeHash : string -> Error + ProteinHashResult),
    (forall (calls : list Call) (this : WormholeEngine) (k : string),
        Forall (fun c => call_soulId computeHash c <> Some k) calls ->
        Map_get k (connections (run computeHash calls this))
        = Map_get k (connections this)) /\
    (forall (this this' : WormholeEngine) (c : Call) (soul : CodeSoul),
        addCodeSoul computeHash (call_now c) (call_code c) (call_id c)
          (call_source c) this = (this', inr soul) ->
        this' = after computeHash this c /\
        call_soulId computeHash c = Some (id soul) /\
        Map_get (id soul) (connections this')
        = Some (Array_sort bySimilarity (admitted_spec soul (souls this')))).
Proof.
  intros computeHash. split.
  - intros calls. induction calls as [|c calls IH]; intros this k Hall;
      [reflexivity|].
    inversion Hall as [|? ? Hc Hcalls]; subst. simpl.
    rewrite IH by assumption. now apply after_connections_other.
  - intros this this' c soul Hrun.
    split; [unfold after; now rewrite Hrun|].
    apply addCodeSoul_returns in Hrun as (result & Hh & Hsoul & ->).
    split.
    + unfold call_soulId. rewrite Hh. now subst soul.
    + apply Map_get_set_same.
Qed.

Lemma connections_persist_unless_id_reused_witness :
  Forall (fun c => call_soulId demoHash c <> Some "ha"%string) [callB; callZ] /\
  Map_get "ha" (connections (run demoHash [callB; callZ] engineA))
  = Map_get "ha" (connections engineA) /\
  addCodeSoul demoHash (call_now callB2) (call_code callB2) (call_id callB2)
    (call_source callB2) engineAB = (engineBB, inr soulB2) /\
  Map_get (id soulB2) (connections engineAB) = Some [] /\
  Map_get (id soulB2) (connections engineBB) = Some [connect soulB2 soulB] /\
  (engineBB = after demoHash engineAB callB2 /\
   call_soulId demoHash callB2 = Some (id soulB2) /\
   Map_get (id soulB2) (connections engineBB)
   = Some (Array_sort bySimilarity (admitted_spec soulB2 (souls engineBB)))) /\
  addCodeSoul demoHash (call_now callZ) (call_code callZ) (call_id callZ)
    (call_source callZ) engineAB = (engineAZ, inr soulZ) /\
  Map_get (id soulZ) (connections engineAB) = Some [connect soulB soulA] /\
  Map_get (id soulZ) (connections engineAZ) = Some [] /\
  (engineAZ = after demoHash engineAB callZ /\
   call_soulId demoHash callZ = Some (id soulZ) /\
   Map_get (id soulZ) (connections engineAZ)
   = Some (Array_sort bySimilarity (admitted_spec soulZ (souls engineAZ)))).
Proof.
  assert (H : Forall (fun c => call_soulId demoHash c <> Some "ha"%string)
                [callB; callZ])
    by (repeat constructor; discriminate).
  destruct (connections_persist_unless_id_reused demoHash) as [Hkeep Hreplace].
  exact (conj H
           (conj (Hkeep [callB; callZ] engineA "ha"%string H)
              (conj addCodeSoul_engineAB_b2
                 (conj eq_refl
                    (conj eq_refl
                       (conj (Hreplace engineAB engineBB callB2 soulB2
                                addCodeSoul_engineAB_b2)
                          (conj addCodeSoul_engineAB_z
                             (conj eq_refl
                                (conj eq_refl
                                   (Hreplace engineAB engineAZ callZ soulZ
                                      addCodeSoul_engineAB_z)))))))))).
Defined.

(** A connection recorded under an identifier is gone once a later call
    stores under the same identifier: after the calls [callA], [callB] the
    index holds the connection from [soulB] to [soulA] under [x]; after
    [callZ], which reuses [x], no list of the index holds it. *)
Lemma connection_dropped_on_reuse :
  run demoHash [callA; callB] new_WormholeEngine = engineAB /\
  run demoHash [callA; callB; callZ] new_WormholeEngine = engineAZ /\
  Map_get "x" (connections engineAB) = Some [connect soulB soulA] /\
  Map_get "x" (connections engineAZ) = Some [] /\
  (forall k l, In (k, l) (connections engineAZ) -> ~ In (connect soulB soulA) l).
Proof.
  assert (H2 : run demoHash [callA; callB] new_WormholeEngine = engineAB).
  { unfold run. cbn [fold_left].
    now rewrite after_new_callA, after_engineA_callB. }
  split; [exact H2|]. split.
  - unfold run in *. cbn [fold_left] in *.
    now rewrite H2, after_engineAB_callZ.
  - split; [reflexivity|]. split; [reflexivity|].
    intros k l [[= <- <-]|[[= <- <-]|[]]] [].
Qed.

(** ** Cosine similarity and zero vectors *)

Lemma dot_all_zero (v : Vector.t) (a : R) :
  all_zero v ->
  fold_left (fun acc p => add acc (mul (fst p) (snd p))) (combine v v) (Fin a)
  = Fin a.
Proof.
  intros Hv. revert a. induction Hv as [|x v -> Hv IH]; intros a; simpl;
    [reflexivity|].
  replace (a + 0 * 0) with a by lra. apply IH.
Qed.

Lemma norm_all_zero (v : Vector.t) : all_zero v -> Vector.norm v = Fin 0.
Proof.
  intros Hv. unfold Vector.norm, Vector.dot. rewrite dot_all_zero by assumption.
  simpl. rewrite Rltb_false by lra. now rewrite sqrt_0.
Qed.

Lemma cosineSimilarity_zero_norm (v1 v2 : Vector.t) :
  strict_eq (Vector.norm v1) (Fin 0) = true \/
  strict_eq (Vector.norm v2) (Fin 0) = true ->
  cosineSimilarity v1 v2 = Fin 0.
Proof.
  intros H. unfold cosineSimilarity.
  destruct H as [-> | ->]; [reflexivity | now rewrite orb_true_r].
Qed.

Lemma admitted_spec_all_zero (soul : CodeSoul) (corpus : list (string * CodeSoul)) :
  all_zero (vector soul) -> admitted_spec soul corpus = [].
Proof.
  intros Hz. unfold admitted_spec.
  replace (filter (admits soul) corpus) with (@nil (string * CodeSoul));
    [reflexivity|].
  induction corpus as [|entry corpus IH]; [reflexivity|]. simpl.
  rewrite <- IH. unfold admits.
  rewrite cosineSimilarity_zero_norm.
  - simpl. rewrite Rltb_false by lra. now rewrite andb_false_r.
  - left. rewrite norm_all_zero by assumption. simpl. now apply Reqb_true.
Qed.

(** C7. The cosine similarity is exactly 0 as soon as one of the two
    vectors has norm 0, and is [dot(v1, v2) / (norm v1 * norm v2)]
    otherwise.  Hence a soul whose vector is all zeros has similarity 0
    with every vector, and its insertion records the empty connection
    list, whatever the corpus holds. *)
Theorem cosineSimilarity_spec :
  (forall v1 v2 : Vector.t,
      strict_eq (Vector.norm v1) (Fin 0) = true \/
      strict_eq (Vector.norm v2) (Fin 0) = true ->
      cosineSimilarity v1 v2 = Fin 0) /\
  (forall v1 v2 : Vector.t,
      strict_eq (Vector.norm v1) (Fin 0) = false ->
      strict_eq (Vector.norm v2) (Fin 0) = false ->
      cosineSimilarity v1 v2
      = div (Vector.dot v1 v2) (mul (Vector.norm v1) (Vector.norm v2))) /\
  (forall z v : Vector.t,
      all_zero z ->
      cosineSimilarity z v = Fin 0 /\ cosineSimilarity v z = Fin 0) /\
  (forall (computeHash : string -> Error + ProteinHashResult)
          (now : Z) (code : string) (id0 source : option string)
          (this this' : WormholeEngine) (soul : CodeSoul),
      addCodeSoul computeHash now code id0 source this = (this', inr soul) ->
      all_zero (vector soul) ->
      Map_get (id soul) (connections this') = Some []).
Proof.
  split; [exact cosineSimilarity_zero_norm|]. split; [|split].
  - intros v1 v2 H1 H2. unfold cosineSimilarity. now rewrite H1, H2.
  - intros z v Hz.
    assert (Hn : strict_eq (Vector.norm z) (Fin 0) = true)
      by (rewrite norm_all_zero by assumption; simpl; now apply Reqb_true).
    split; apply cosineSimilarity_zero_norm; [now left | now right].
  - intros computeHash now code id0 source this this' soul Hrun Hz.
    apply addCodeSoul_returns in Hrun as (result & _ & _ & ->).
    unfold stored. cbn [connections].
    rewrite admitted_spec_all_zero by assumption. apply Map_get_set_same.
Qed.

Lemma all_zero_zeros10 : all_zero zeros10.
Proof. repeat constructor. Qed.

Lemma cosineSimilarity_spec_witness :
  (strict_eq (Vector.norm zeros10) (Fin 0) = true \/
   strict_eq (Vector.norm unit1) (Fin 0) = true) /\
  cosineSimilarity zeros10 unit1 = Fin 0 /\
  strict_eq (Vector.norm unit1) (Fin 0) = false /\
  cosineSimilarity unit1 unit1
  = div (Vector.dot unit1 unit1) (mul (Vector.norm unit1) (Vector.norm unit1)) /\
  all_zero zeros10 /\
  (cosineSimilarity zeros10 unit1 = Fin 0 /\ cosineSimilarity unit1 zeros10 = Fin 0) /\
  addCodeSoul demoHash 2 "z" (Some "x"%string) None engineAB = (engineAZ, inr soulZ) /\
  all_zero (vector soulZ) /\
  Map_get (id soulZ) (connections engineAZ) = Some [].
Proof.
  destruct cosineSimilarity_spec as (Hzero & Hdiv & Hall & Hins).
  assert (Hz : strict_eq (Vector.norm zeros10) (Fin 0) = true \/
               strict_eq (Vector.norm unit1) (Fin 0) = true)
    by (left; rewrite norm_zeros10; simpl; apply Reqb_true; reflexivity).
  assert (Hu : strict_eq (Vector.norm unit1) (Fin 0) = false)
    by (rewrite norm_unit1; simpl; apply Reqb_false; lra).
  exact (conj Hz
           (conj (Hzero zeros10 unit1 Hz)
              (conj Hu
                 (conj (Hdiv unit1 unit1 Hu Hu)
                    (conj all_zero_zeros10
                       (conj (Hall zeros10 unit1 all_zero_zeros10)
                          (conj addCodeSoul_engineAB_z
                             (conj all_zero_zeros10
                                (Hins demoHash 2%Z "z"%string (Some "x"%string)
                                   None engineAB engineAZ soulZ
                                   addCodeSoul_engineAB_z
                                   all_zero_zeros10))))))))).
Defined.

(** ** Harmonic resonance *)

Lemma add_NaN_r (a : number) : add a NaN = NaN.
Proof. now destruct a. Qed.

Lemma Math_max_NaN_r (a : number) : Math_max a NaN = NaN.
Proof. now destruct a. Qed.

Lemma fold_max_NaN (f : number -> number) (l : list number) :
  fold_left (fun m h => Math_max m (f h)) l NaN = NaN.
Proof. induction l as [|h l IH]; simpl; [reflexivity | exact IH]. Qed.

Lemma fold_add_NaN (f : nat -> number) (l : list nat) :
  fold_left (fun s i => add s (f i)) l NaN = NaN.
Proof. induction l as [|h l IH]; simpl; [reflexivity | exact IH]. Qed.

Lemma fold_add_hits_NaN (f : nat -> number) (l : list nat) (i : nat) (s : number) :
  In i l -> f i = NaN -> fold_left (fun s i => add s (f i)) l s = NaN.
Proof.
  revert s. induction l as [|h l IH]; intros s Hin Hf; [destruct Hin|].
  destruct Hin as [Hi|Hi]; simpl.
  - subst h. rewrite Hf, add_NaN_r. apply fold_add_NaN.
  - now apply IH.
Qed.

(** A coordinate where both eigenvalues are 0 scores [NaN]: the ratio is
    [0 / 0]. *)
Lemma maxResonanceAt_zero_over_zero (eigen1 eigen2 : list number) (i : nat) :
  Array_get eigen1 i = Fin 0 -> Array_get eigen2 i = Fin 0 ->
  maxResonanceAt eigen1 eigen2 i = NaN.
Proof.
  intros H1 H2. unfold maxResonanceAt. rewrite H1, H2.
  cbn [mul div]. rewrite Reqb_true by lra.
  unfold signed_inf. rewrite Reqb_true by lra.
  unfold harmonicRatios. cbn [fold_left sub neg add Math_pow2 mul Math_exp].
  rewrite Math_max_NaN_r. reflexivity.
Qed.

Lemma harmonicResonance_zero_over_zero (eigen1 eigen2 : list number) (i : nat) :
  (i < Nat.min (List.length eigen1) (List.length eigen2))%nat ->
  Array_get eigen1 i = Fin 0 -> Array_get eigen2 i = Fin 0 ->
  harmonicResonance eigen1 eigen2 = NaN.
Proof.
  intros Hi H1 H2. unfold harmonicResonance.
  rewrite (fold_add_hits_NaN (maxResonanceAt eigen1 eigen2) _ i).
  - reflexivity.
  - apply in_seq. lia.
  - now apply maxResonanceAt_zero_over_zero.
Qed.

Lemma harmonicResonance_nothing_compared (eigen1 eigen2 : list number) :
  Nat.min (List.length eigen1) (List.length eigen2) = 0%nat ->
  harmonicResonance eigen1 eigen2 = NaN.
Proof.
  intros H. unfold harmonicResonance. rewrite H.
  cbn [seq fold_left of_nat INR div]. rewrite Reqb_true by reflexivity.
  unfold signed_inf. now rewrite Reqb_true.
Qed.

(** C5 (what the code does).  [harmonicResonance] never throws, but it does
    not always return a finite value in [[0, 1]]: with nothing to compare
    it returns [0 / 0], which is [NaN], not 0; and a coordinate where both
    eigenvalues are 0 makes the whole result [NaN].  The second case is
    reached by [addCodeSoul]: the connection the engine [engineAB] stores
    has resonance [NaN], because the zero padding of the two normalized
    eigenvalue arrays meets at the coordinates 1 to 9. *)
Theorem harmonicResonance_not_finite :
  harmonicResonance [] [] = NaN /\
  harmonicResonance [] unit1 = NaN /\
  harmonicResonance [Fin 0] [Fin 0] = NaN /\
  harmonicResonance unit1 unit1 = NaN /\
  reachable demoHash engineAB /\
  Map_get "x" (connections engineAB) = Some [connect soulB soulA] /\
  resonance (connect soulB soulA) = NaN /\
  isFinite (resonance (connect soulB soulA)) = false.
Proof.
  assert (Hu : harmonicResonance unit1 unit1 = NaN)
    by (apply (harmonicResonance_zero_over_zero unit1 unit1 1);
        [simpl; lia | reflexivity | reflexivity]).
  split; [now apply harmonicResonance_nothing_compared|].
  split; [now apply harmonicResonance_nothing_compared|].
  split; [apply (harmonicResonance_zero_over_zero _ _ 0);
          [simpl; lia | reflexivity | reflexivity]|].
  split; [exact Hu|]. split; [exact reachable_engineAB|].
  split; [reflexivity|].
  change (resonance (connect soulB soulA)) with (harmonicResonance unit1 unit1).
  rewrite Hu. now split.
Qed.

(** Away from the two cases above the result is what the specification asks
    for: when at least one coordinate is compared and, at every compared
    coordinate, both eigenvalues are finite and the first is not 0, the
    resonance is a finite value in [[0, 1]]. *)

Lemma exp_le_1 (x : R) : x <= 0 -> 0 < exp x <= 1.
Proof.
  intros Hx. split; [apply exp_pos|].
  destruct Hx as [Hx| ->]; [|rewrite exp_0; lra].
  apply exp_increasing in Hx. rewrite exp_0 in Hx. lra.
Qed.

Lemma score_in_unit_interval (r h : R) :
  exists m, Math_exp (neg (Math_pow2 (sub (Fin r) (Fin h)))) = Fin m /\ 0 <= m <= 1.
Proof.
  exists (exp (- ((r + - h) * (r + - h)))). split; [reflexivity|].
  pose proof (Rle_0_sqr (r + - h)) as Hsq. unfold Rsqr in Hsq.
  assert (H : - ((r + - h) * (r + - h)) <= 0) by lra.
  apply exp_le_1 in H. lra.
Qed.

Lemma Math_max_in_unit_interval (a b : R) :
  0 <= a <= 1 -> 0 <= b <= 1 ->
  exists m, Math_max (Fin a) (Fin b) = Fin m /\ 0 <= m <= 1.
Proof.
  intros Ha Hb. simpl. destruct (Rltb a b); eexists; split; try reflexivity; lra.
Qed.

Lemma fold_max_in_unit_interval (r : R) (ratios : list number) (a : R) :
  Forall (fun h => exists x, h = Fin x) ratios -> 0 <= a <= 1 ->
  exists m,
    fold_left
      (fun maxResonance harmonic =>
         Math_max maxResonance
           (Math_exp (neg (Math_pow2 (sub (Fin r) harmonic)))))
      ratios (Fin a) = Fin m /\ 0 <= m <= 1.
Proof.
  intros Hr. revert a. induction Hr as [|h ratios [x ->] Hr IH]; intros a Ha.
  - exists a. now split.
  - cbn [fold_left].
    destruct (score_in_unit_interval r x) as (s & -> & Hs).
    destruct (Math_max_in_unit_interval a s Ha Hs) as (m & -> & Hm).
    now apply IH.
Qed.

Lemma maxResonanceAt_in_unit_interval (eigen1 eigen2 : list number) (i : nat)
  (a b : R) :
  Array_get eigen1 i = Fin a -> a <> 0 -> Array_get eigen2 i = Fin b ->
  exists m, maxResonanceAt eigen1 eigen2 i = Fin m /\ 0 <= m <= 1.
Proof.
  intros H1 Ha H2. unfold maxResonanceAt. rewrite H1, H2.
  cbn [mul div]. rewrite Reqb_false by lra.
  apply fold_max_in_unit_interval; [|lra].
  unfold harmonicRatios. repeat constructor; eexists; reflexivity.
Qed.

Lemma fold_add_bounded (f : nat -> number) (l : list nat) (s : R) :
  (forall i, In i l -> exists m, f i = Fin m /\ 0 <= m <= 1) ->
  0 <= s ->
  exists t,
    fold_left (fun acc i => add acc (f i)) l (Fin s) = Fin t /\
    0 <= t <= s + INR (List.length l).
Proof.
  revert s. induction l as [|i l IH]; intros s Hf Hs.
  - exists s. simpl. split; [reflexivity | lra].
  - destruct (Hf i (or_introl eq_refl)) as (m & Hm & Hm01).
    cbn [fold_left]. rewrite Hm. cbn [add].
    destruct (IH (s + m)) as (t & -> & Ht);
      [intros j Hj; apply Hf; now right | lra |].
    exists t. split; [reflexivity|].
    change (List.length (i :: l)) with (S (List.length l)).
    rewrite S_INR. lra.
Qed.

Lemma harmonicResonance_in_unit_interval (eigen1 eigen2 : list number) :
  let n := Nat.min (List.length eigen1) (List.length eigen2) in
  (0 < n)%nat ->
  (forall i, (i < n)%nat ->
     exists a b, Array_get eigen1 i = Fin a /\ a <> 0 /\ Array_get eigen2 i = Fin b) ->
  exists r, harmonicResonance eigen1 eigen2 = Fin r /\ 0 <= r <= 1.
Proof.
  intros n Hn Hfin. unfold harmonicResonance. fold n.
  destruct (fold_add_bounded (maxResonanceAt eigen1 eigen2) (seq 0 n) 0)
    as (t & -> & Ht); [|lra|].
  - intros i Hi. apply in_seq in Hi.
    destruct (Hfin i) as (a & b & H1 & Ha & H2); [lia|].
    now apply (maxResonanceAt_in_unit_interval _ _ _ a b).
  - rewrite length_seq in Ht. unfold of_nat. cbn [div].
    assert (Hpos : 0 < INR n) by (apply lt_0_INR; lia).
    rewrite Reqb_false by lra.
    eexists. split; [reflexivity|]. split.
    + apply Rmult_le_pos; [lra|]. apply Rlt_le, Rinv_0_lt_compat, Hpos.
    + apply Rmult_le_reg_r with (INR n); [exact Hpos|].
      unfold Rdiv. rewrite Rmult_assoc, Rinv_l by lra. lra.
Qed.

Lemma harmonicResonance_in_unit_interval_example :
  exists r, harmonicResonance [Fin 1; Fin 2] [Fin 2; Fin 3] = Fin r /\ 0 <= r <= 1.
Proof.
  apply harmonicResonance_in_unit_interval; [simpl; lia|].
  intros [|[|i]] Hi; simpl in Hi; try lia; simpl;
    do 2 eexists; (split; [reflexivity|]); split; try reflexivity; lra.
Qed.

(** ** Reachable engines are the runs from a new engine *)

Lemma reachable_run (computeHash : string -> Error + ProteinHashResult)
  (calls : list Call) (this : WormholeEngine) :
  reachable computeHash this -> reachable computeHash (run computeHash calls this).
Proof.
  revert this. induction calls as [|c calls IH]; intros this Hr; [exact Hr|].
  simpl. apply IH. now apply reachable_add.
Qed.

Lemma reachable_is_run (computeHash : string -> Error + ProteinHashResult)
  (this : WormholeEngine) :
  reachable computeHash this <->
  exists calls, this = run computeHash calls new_WormholeEngine.
Proof.
  split.
  - induction 1 as [|this c Hr (calls & ->)]; [now exists []|].
    exists (calls ++ [c]). unfold run. now rewrite fold_left_app.
  - intros (calls & ->). apply reachable_run, reachable_new.
Qed.

(** * Further properties of the engine *)

(** ** Normalizing twice *)

(** X1. Normalizing an array that is already normalized gives it back. *)
Theorem normalizeEigenvalues_idempotent :
  forall (this : WormholeEngine) (eigenvalues : list number),
    normalizeEigenvalues this (normalizeEigenvalues this eigenvalues)
    = normalizeEigenvalues this eigenvalues.
Proof.
  intros this eigenvalues.
  rewrite (normalizeEigenvalues_closed this (normalizeEigenvalues this eigenvalues)).
  cbv zeta. rewrite normalizeEigenvalues_length, Nat.min_id, Nat.sub_diag.
  rewrite <- (normalizeEigenvalues_length this eigenvalues) at 1.
  rewrite firstn_all. apply app_nil_r.
Qed.

(** ** Souls of the reachable engines *)

Lemma In_Map_keys {V} (m : list (string * V)) (k : string) (v : V) :
  In (k, v) m -> In k (Map_keys m).
Proof. intros H. unfold Map_keys. apply in_map_iff. now exists (k, v). Qed.

Lemma Map_keys_set_grows {V} (m : list (string * V)) (k k' : string) (v : V) :
  In k' (Map_keys m) -> In k' (Map_keys (Map_set k v m)).
Proof.
  induction m as [|[k0 v0] m IH]; simpl; [tauto|].
  destruct (String.eqb k0 k) eqn:E; simpl.
  - apply String.eqb_eq in E. subst k0. tauto.
  - intros [H|H]; [now left | right; now apply IH].
Qed.

Lemma Map_keys_set_same {V} (m : list (string * V)) (k : string) (v : V) :
  In k (Map_keys (Map_set k v m)).
Proof.
  induction m as [|[k0 v0] m IH]; simpl; [now left|].
  destruct (String.eqb k0 k) eqn:E; simpl; [now left | now right].
Qed.

Section ReachableSouls.

Variable computeHash : string -> Error + ProteinHashResult.

Lemma reachable_dimensionality (this : WormholeEngine) :
  reachable computeHash this -> dimensionality this = 10%nat.
Proof.
  induction 1 as [|this c Hr IH]; [reflexivity|].
  destruct (after_cases computeHash this c) as [[_ ->]|(soul & _ & ->)];
    [exact IH | exact IH].
Qed.

(** A property of the souls the engine constructs holds of all the souls
    it holds, in the corpus and at the two ends of every connection. *)
Lemma reachable_souls (P : CodeSoul -> Prop) :
  (forall this now code id0 source result,
      computeHash code = inr result -> dimensionality this = 10%nat ->
      P (soul_of this now code id0 source result)) ->
  forall this,
    reachable computeHash this ->
    (forall k s, In (k, s) (souls this) -> P s) /\
    (forall k l c, In (k, l) (connections this) -> In c l ->
                   P (from c) /\ P (to c)).
Proof.
  intros HP this Hr. induction Hr as [|this c Hr [IHs IHc]].
  - split; [intros k s [] | intros k l c0 []].
  - pose proof (reachable_dimensionality this Hr) as HD.
    unfold after. rewrite addCodeSoul_run.
    destruct (computeHash (call_code c)) as [e|result] eqn:Hh;
      [now split|].
    cbv zeta. cbn [fst].
    set (soul := soul_of this (call_now c) (call_code c) (call_id c)
                   (call_source c) result).
    assert (Hsoul : P soul) by (apply HP; assumption).
    assert (Hs' : forall k s, In (k, s) (souls (stored this soul)) -> P s).
    { intros k s Hin. simpl in Hin.
      apply In_Map_set in Hin as [[_ ->]|Hin]; [exact Hsoul | now apply (IHs k)]. }
    split; [exact Hs'|].
    intros k l c0 Hkl Hc0. simpl in Hkl.
    apply In_Map_set in Hkl as [[-> ->]|Hin]; [|now apply (IHc k l)].
    apply (Permutation_in _ (Permutation_sym (Array_sort_perm _ _))) in Hc0.
    apply In_admitted_spec in Hc0 as (k' & other & Hin & _ & -> & _).
    split; [exact Hsoul | exact (Hs' k' other Hin)].
Qed.

Lemma soul_of_shaped (this : WormholeEngine) (now : Z) (code : string)
  (id0 source : option string) (result : ProteinHashResult) :
  soul_shaped (dimensionality this) (soul_of this now code id0 source result).
Proof. split; [reflexivity | apply normalizeEigenvalues_length]. Qed.

End ReachableSouls.

(** X2. In every engine that calls of [addCodeSoul] can produce, the
    dimensionality is 10, and every soul the engine holds, in the corpus
    or at an end of a stored connection, has an eigenvalue array of length
    10 and a vector with the same coordinates. *)
Theorem reachable_souls_shaped :
  forall (computeHash : string -> Error + ProteinHashResult)
         (this : WormholeEngine),
    reachable computeHash this ->
    dimensionality this = 10%nat /\
    (forall k s, In (k, s) (souls this) -> soul_shaped 10 s) /\
    (forall k l c, In (k, l) (connections this) -> In c l ->
                   soul_shaped 10 (from c) /\ soul_shaped 10 (to c)).
Proof.
  intros computeHash this Hr.
  split; [exact (reachable_dimensionality computeHash this Hr)|].
  apply (reachable_souls computeHash (soul_shaped 10)); [|exact Hr].
  intros this0 now code id0 source result _ HD.
  rewrite <- HD. apply soul_of_shaped.
Qed.

Lemma reachable_souls_shaped_witness :
  reachable demoHash engineAB /\
  In ("x"%string, soulB) (souls engineAB) /\
  In ("x"%string, [connect soulB soulA]) (connections engineAB) /\
  In (connect soulB soulA) [connect soulB soulA] /\
  dimensionality engineAB = 10%nat /\
  soul_shaped 10 soulB /\
  soul_shaped 10 (from (connect soulB soulA)) /\
  soul_shaped 10 (to (connect soulB soulA)).
Proof.
  destruct (reachable_souls_shaped demoHash engineAB reachable_engineAB)
    as (HD & Hs & Hc).
  assert (H1 : In ("x"%string, soulB) (souls engineAB))
    by (right; left; reflexivity).
  assert (H2 : In ("x"%string, [connect soulB soulA]) (connections engineAB))
    by (right; left; reflexivity).
  assert (H3 : In (connect soulB soulA) [connect soulB soulA])
    by (left; reflexivity).
  exact (conj reachable_engineAB
           (conj H1 (conj H2 (conj H3 (conj HD
              (conj (Hs _ _ H1) (Hc _ _ _ H2 H3))))))).
Defined.

(** ** Insertion and lookup *)

Lemma Map_set_length {V} (m : list (string * V)) (k : string) (v : V) :
  List.length (Map_set k v m)
  = match Map_get k m with
    | Some _ => List.length m
    | None => S (List.length m)
    end.
Proof.
  induction m as [|[k0 v0] m IH]; simpl; [reflexivity|].
  destruct (String.eqb k0 k); simpl; [reflexivity|].
  rewrite IH. now destruct (Map_get k m).
Qed.

Lemma Map_set_fresh {V} (m : list (string * V)) (k : string) (v : V) :
  Map_get k m = None -> Map_set k v m = m ++ [(k, v)].
Proof.
  induction m as [|[k0 v0] m IH]; simpl; [reflexivity|].
  destruct (String.eqb k0 k); [discriminate|].
  intros H. now rewrite IH.
Qed.

Lemma Map_keys_set_present {V} (m : list (string * V)) (k : string) (v v0 : V) :
  Map_get k m = Some v0 -> Map_keys (Map_set k v m) = Map_keys m.
Proof.
  induction m as [|[k1 v1] m IH]; simpl; [discriminate|].
  destruct (String.eqb k1 k) eqn:E; simpl.
  - apply String.eqb_eq in E. now subst k1.
  - intros H. now rewrite IH.
Qed.

(** X3. After a returning call of [addCodeSoul], looking the returned soul's
    identifier up in the corpus gives the returned soul, and every other
    identifier gives what it gave before.  The identifier is the given
    one, or the hash when none or the empty string is given.  A new
    identifier goes to the end of the enumeration order; a reused one
    keeps the order, and the corpus does not grow. *)
Theorem addCodeSoul_lookup :
  forall (computeHash : string -> Error + ProteinHashResult)
         (now : Z) (code : string) (id0 source : option string)
         (this this' : WormholeEngine) (soul : CodeSoul),
    addCodeSoul computeHash now code id0 source this = (this', inr soul) ->
    Map_get (id soul) (souls this') = Some soul /\
    (forall k, k <> id soul -> Map_get k (souls this') = Map_get k (souls this)) /\
    id soul = or_else id0 (hash soul) /\
    (Map_get (id soul) (souls this) = None ->
     souls this' = souls this ++ [(id soul, soul)]) /\
    (Map_get (id soul) (souls this) <> None ->
     Map_keys (souls this') = Map_keys (souls this)).
Proof.
  intros computeHash now code id0 source this this' soul Hrun.
  apply addCodeSoul_returns in Hrun as (result & _ & Hsoul & ->).
  unfold stored. cbn [souls].
  split; [apply Map_get_set_same|].
  split; [intros k Hk; now apply Map_get_set_other|].
  split; [now subst soul|].
  split; [apply Map_set_fresh|].
  intros Hsome. destruct (Map_get (id soul) (souls this)) as [old|] eqn:E;
    [|congruence].
  now apply (Map_keys_set_present _ _ _ old).
Qed.

Lemma addCodeSoul_lookup_witness :
  addCodeSoul demoHash 2 "z" (Some "x"%string) None engineAB = (engineAZ, inr soulZ) /\
  "ha"%string <> id soulZ /\
  Map_get (id soulZ) (souls engineAB) <> None /\
  Map_get (id soulZ) (souls engineAZ) = Some soulZ /\
  Map_get "ha" (souls engineAZ) = Map_get "ha" (souls engineAB) /\
  Map_keys (souls engineAZ) = Map_keys (souls engineAB) /\
  addCodeSoul demoHash 1 "b" (Some "x"%string) None engineA = (engineAB, inr soulB) /\
  Map_get (id soulB) (souls engineA) = None /\
  souls engineAB = souls engineA ++ [(id soulB, soulB)].
Proof.
  destruct (addCodeSoul_lookup demoHash 2 "z" (Some "x"%string) None
              engineAB engineAZ soulZ addCodeSoul_engineAB_z)
    as (Hget & Hother & _ & _ & Hkeys).
  destruct (addCodeSoul_lookup demoHash 1 "b" (Some "x"%string) None
              engineA engineAB soulB addCodeSoul_engineA_b)
    as (_ & _ & _ & Hfresh & _).
  assert (Hne : "ha"%string <> id soulZ) by discriminate.
  assert (Hold : Map_get (id soulZ) (souls engineAB) <> None) by discriminate.
  exact (conj addCodeSoul_engineAB_z
           (conj Hne (conj Hold (conj Hget (conj (Hother _ Hne)
              (conj (Hkeys Hold)
                 (conj addCodeSoul_engineA_b
                    (conj eq_refl (Hfresh eq_refl))))))))).
Defined.

(** X4. No call of [addCodeSoul] removes an identifier: across every
    sequence of calls, an identifier that is a key of the corpus, or of
    the connection index, stays one. *)
Theorem identifiers_never_removed :
  forall (computeHash : string -> Error + ProteinHashResult)
         (calls : list Call) (this : WormholeEngine) (k : string),
    (In k (Map_keys (souls this)) ->
     In k (Map_keys (souls (run computeHash calls this)))) /\
    (In k (Map_keys (connections this)) ->
     In k (Map_keys (connections (run computeHash calls this)))).
Proof.
  intros computeHash calls. induction calls as [|c calls IH]; intros this k;
    [now split|].
  simpl. destruct (IH (after computeHash this c) k) as [IHs IHc].
  destruct (after_cases computeHash this c) as [[_ E]|(soul & _ & E)];
    rewrite E in *; [now split|].
  split; intros H; [apply IHs | apply IHc]; simpl;
    now apply Map_keys_set_grows.
Qed.

Lemma identifiers_never_removed_witness :
  In "x"%string (Map_keys (souls engineAB)) /\
  In "x"%string (Map_keys (connections engineAB)) /\
  In "x"%string (Map_keys (souls (run demoHash [callZ; callA] engineAB))) /\
  In "x"%string (Map_keys (connections (run demoHash [callZ; callA] engineAB))).
Proof.
  destruct (identifiers_never_removed demoHash [callZ; callA] engineAB "x"%string)
    as [Hs Hc].
  assert (H1 : In "x"%string (Map_keys (souls engineAB)))
    by (right; left; reflexivity).
  assert (H2 : In "x"%string (Map_keys (connections engineAB)))
    by (right; left; reflexivity).
  exact (conj H1 (conj H2 (conj (Hs H1) (Hc H2)))).
Defined.

(** ** Symmetry of the two vector metrics *)

Lemma mul_comm (a b : number) : mul a b = mul b a.
Proof. destruct a, b; simpl; try reflexivity. f_equal. ring. Qed.

Lemma dot_fold_comm (v1 v2 : Vector.t) (acc : number) :
  fold_left (fun acc p => add acc (mul (fst p) (snd p))) (combine v1 v2) acc
  = fold_left (fun acc p => add acc (mul (fst p) (snd p))) (combine v2 v1) acc.
Proof.
  revert v2 acc. induction v1 as [|x v1 IH]; intros [|y v2] acc; simpl;
    try reflexivity.
  rewrite (mul_comm x y). apply IH.
Qed.

Lemma dot_comm (v1 v2 : Vector.t) : Vector.dot v1 v2 = Vector.dot v2 v1.
Proof. apply dot_fold_comm. Qed.

Lemma square_sub_comm (a b : number) :
  mul (sub a b) (sub a b) = mul (sub b a) (sub b a).
Proof. destruct a, b; simpl; try reflexivity. f_equal. ring. Qed.

Lemma dot_subtract_swap (v1 v2 : Vector.t) (acc : number) :
  fold_left (fun acc p => add acc (mul (fst p) (snd p)))
    (combine (Vector.subtract v1 v2) (Vector.subtract v1 v2)) acc
  = fold_left (fun acc p => add acc (mul (fst p) (snd p)))
      (combine (Vector.subtract v2 v1) (Vector.subtract v2 v1)) acc.
Proof.
  revert v2 acc. induction v1 as [|x v1 IH]; intros [|y v2] acc; simpl;
    try reflexivity.
  rewrite (square_sub_comm x y). apply IH.
Qed.

(** X5. Both metrics are symmetric: the cosine similarity and the Euclidean
    distance of two vectors do not depend on the order of the vectors,
    special values included. *)
Theorem metrics_symmetric :
  forall v1 v2 : Vector.t,
    cosineSimilarity v1 v2 = cosineSimilarity v2 v1 /\
    euclideanDistance v1 v2 = euclideanDistance v2 v1.
Proof.
  intros v1 v2. split.
  - unfold cosineSimilarity.
    rewrite (dot_comm v1 v2), (mul_comm (Vector.norm v1) (Vector.norm v2)).
    now rewrite orb_comm.
  - unfold euclideanDistance, Vector.norm, Vector.dot.
    now rewrite dot_subtract_swap.
Qed.

(** ** Finite vectors *)

Lemma dot_fold_finite (v1 v2 : Vector.t) (a : R) :
  finite_vector v1 -> finite_vector v2 ->
  fold_left (fun acc p => add acc (mul (fst p) (snd p))) (combine v1 v2) (Fin a)
  = Fin (a + sum_products (map real_of v1) (map real_of v2)).
Proof.
  intros H1. revert v2 a. induction H1 as [|x v1 Hx H1 IH]; intros v2 a H2.
  - simpl. f_equal. lra.
  - destruct H2 as [|y v2 Hy H2]; [simpl; f_equal; lra|].
    destruct x; try discriminate. destruct y; try discriminate.
    simpl. rewrite IH by assumption. f_equal. lra.
Qed.

Lemma dot_finite (v1 v2 : Vector.t) :
  finite_vector v1 -> finite_vector v2 ->
  Vector.dot v1 v2 = Fin (sum_products (map real_of v1) (map real_of v2)).
Proof.
  intros H1 H2. unfold Vector.dot. rewrite dot_fold_finite by assumption.
  f_equal. lra.
Qed.

Lemma sum_squares_nonneg (l : list R) : 0 <= sum_products l l.
Proof. induction l as [|x l IH]; simpl; [lra | nra]. Qed.

Lemma norm_finite (v : Vector.t) :
  finite_vector v ->
  Vector.norm v = Fin (sqrt (sum_products (map real_of v) (map real_of v))).
Proof.
  intros Hv. unfold Vector.norm. rewrite dot_finite by assumption. simpl.
  rewrite Rltb_false; [reflexivity|].
  pose proof (sum_squares_nonneg (map real_of v)). lra.
Qed.

Lemma subtract_finite (v1 v2 : Vector.t) :
  finite_vector v1 -> finite_vector v2 -> finite_vector (Vector.subtract v1 v2).
Proof.
  intros H1. revert v2. induction H1 as [|x v1 Hx H1 IH]; intros v2 H2;
    [constructor|].
  destruct H2 as [|y v2 Hy H2]; [constructor|].
  destruct x; try discriminate. destruct y; try discriminate.
  constructor; [reflexivity | now apply IH].
Qed.


(** ** Distance of a vector to itself *)

Lemma sum_squares_subtract_self (v : Vector.t) :
  finite_vector v ->
  sum_products (map real_of (Vector.subtract v v))
    (map real_of (Vector.subtract v v)) = 0.
Proof.
  induction 1 as [|x v Hx Hv IH]; [reflexivity|].
  destruct x; try discriminate.
  change (Vector.subtract (Fin r :: v) (Fin r :: v))
    with (Fin (r + - r) :: Vector.subtract v v).
  cbn [map real_of sum_products]. rewrite IH. ring.
Qed.

Lemma euclideanDistance_self (v : Vector.t) :
  finite_vector v -> euclideanDistance v v = Fin 0.
Proof.
  intros Hv. unfold euclideanDistance.
  rewrite norm_finite by now apply subtract_finite.
  rewrite sum_squares_subtract_self by assumption. now rewrite sqrt_0.
Qed.

(** X7. Every vector of finite numbers has Euclidean distance exactly 0
    to itself: each coordinate difference is 0, and so are their squares,
    the sum and its square root. *)
Theorem euclideanDistance_to_itself :
  forall v : Vector.t, finite_vector v -> euclideanDistance v v = Fin 0.
Proof.
  intros v Hv. unfold euclideanDistance.
  rewrite norm_finite by now apply subtract_finite.
  rewrite sum_squares_subtract_self by assumption. now rewrite sqrt_0.
Qed.

Lemma finite_unit1 : finite_vector unit1.
Proof. repeat constructor. Qed.

Lemma euclideanDistance_to_itself_witness :
  finite_vector unit1 /\ euclideanDistance unit1 unit1 = Fin 0.
Proof.
  exact (conj finite_unit1 (euclideanDistance_to_itself unit1 finite_unit1)).
Defined.

(** X6. The Euclidean distance between two vectors of finite numbers of
    the same length is a number, not NaN, and is at least 0. *)
Theorem euclideanDistance_nonneg :
  forall v1 v2 : Vector.t,
    List.length v1 = List.length v2 ->
    finite_vector v1 -> finite_vector v2 ->
    ge (euclideanDistance v1 v2) (Fin 0) = true.
Proof.
  intros v1 v2 _ H1 H2. unfold euclideanDistance.
  rewrite norm_finite by now apply subtract_finite.
  cbn [ge]. apply negb_true_iff, Rltb_false.
  apply Rle_not_lt, sqrt_pos.
Qed.

Lemma finite_zeros10 : finite_vector zeros10.
Proof. repeat constructor. Qed.

Lemma euclideanDistance_nonneg_witness :
  List.length unit1 = List.length zeros10 /\
  finite_vector unit1 /\ finite_vector zeros10 /\
  ge (euclideanDistance unit1 zeros10) (Fin 0) = true.
Proof.
  exact (conj eq_refl
           (conj finite_unit1
              (conj finite_zeros10
                 (euclideanDistance_nonneg unit1 zeros10 eq_refl
                    finite_unit1 finite_zeros10)))).
Defined.

(** ** Connections of the reachable engines *)

Lemma connect_ends (soul other : CodeSoul) :
  connect (from (connect soul other)) (to (connect soul other))
  = connect soul other.
Proof. reflexivity. Qed.

Section ReachableConnections.

Variable computeHash : string -> Error + ProteinHashResult.

Lemma reachable_connections (this : WormholeEngine) :
  reachable computeHash this ->
  forall k l,
    In (k, l) (connections this) ->
    StronglySorted descending l /\
    (forall c, In c l ->
               c = connect (from c) (to c) /\
               In (id (to c)) (Map_keys (souls this))).
Proof.
  induction 1 as [|this c Hr IH]; [intros k l []|].
  pose proof (reachable_inv computeHash _ (reachable_add computeHash this c Hr))
    as (Hkeyed & _).
  revert Hkeyed.
  destruct (after_cases computeHash this c) as [[_ ->]|(soul & _ & ->)];
    [intros _; exact IH|].
  intros Hkeyed k l Hkl. simpl in Hkl.
  apply In_Map_set in Hkl as [[-> ->]|Hin].
  - split; [apply Array_sort_sorted, admitted_spec_ordered|].
    intros c0 Hc0.
    apply (Permutation_in _ (Permutation_sym (Array_sort_perm _ _))) in Hc0.
    apply In_admitted_spec in Hc0 as (k' & other & Hin & _ & -> & _).
    split; [now rewrite connect_ends|].
    change (to (connect soul other)) with other.
    rewrite (Hkeyed k' other Hin). now apply (In_Map_keys _ k' other).
  - destruct (IH k l Hin) as [Hsorted Hall].
    split; [exact Hsorted|].
    intros c0 Hc0. destruct (Hall c0 Hc0) as [Hc Hto].
    split; [exact Hc|]. simpl. now apply Map_keys_set_grows.
Qed.

End ReachableConnections.

Lemma stored_connect (computeHash : string -> Error + ProteinHashResult)
  (this : WormholeEngine) (k : string) (l : list WormholeConnection)
  (c : WormholeConnection) :
  reachable computeHash this ->
  In (k, l) (connections this) -> In c l ->
  c = connect (from c) (to c).
Proof.
  intros Hr Hkl Hc.
  destruct (reachable_connections computeHash this Hr k l Hkl) as [_ Hall].
  now destruct (Hall c Hc).
Qed.

(** X8. In every engine that calls of [addCodeSoul] can produce, every
    stored connection carries the five metrics of its own two souls: the
    similarity and the distance of their vectors, the energy and the
    stability computed from these two, and the resonance of their
    eigenvalue arrays.  So the stability of a stored connection is always
    the logistic value of its similarity. *)
Theorem stored_metrics_consistent :
  forall (computeHash : string -> Error + ProteinHashResult)
         (this : WormholeEngine),
    reachable computeHash this ->
    forall k l c,
      In (k, l) (connections this) -> In c l ->
      c = connect (from c) (to c) /\
      stability c = wormholeStability (similarity c) /\
      energy c = wormholeEnergy (distance c) (similarity c).
Proof.
  intros computeHash this Hr k l c Hkl Hc.
  destruct (reachable_connections computeHash this Hr k l Hkl) as [_ Hall].
  destruct (Hall c Hc) as [Hcon _].
  split; [exact Hcon|]. rewrite Hcon. split; reflexivity.
Qed.

Lemma In_x_engineAB :
  In ("x"%string, [connect soulB soulA]) (connections engineAB).
Proof. right; left; reflexivity. Qed.

Lemma stored_metrics_consistent_witness :
  reachable demoHash engineAB /\
  In ("x"%string, [connect soulB soulA]) (connections engineAB) /\
  In (connect soulB soulA) [connect soulB soulA] /\
  connect soulB soulA
  = connect (from (connect soulB soulA)) (to (connect soulB soulA)) /\
  stability (connect soulB soulA)
  = wormholeStability (similarity (connect soulB soulA)) /\
  energy (connect soulB soulA)
  = wormholeEnergy (distance (connect soulB soulA))
      (similarity (connect soulB soulA)).
Proof.
  exact (conj reachable_engineAB
           (conj In_x_engineAB
              (conj (or_introl eq_refl)
                 (stored_metrics_consistent demoHash engineAB reachable_engineAB
                    "x"%string [connect soulB soulA] (connect soulB soulA)
                    In_x_engineAB (or_introl eq_refl))))).
Defined.

(** ** Nearest neighbours *)

Lemma trunc_IZR (z : Z) : trunc (IZR z) = z.
Proof.
  unfold trunc. destruct (Rltb (IZR z) 0).
  - rewrite <- opp_IZR. rewrite <- (Int_part_spec (IZR (- z)) (- z)); [lia|].
    lra.
  - symmetry. apply Int_part_spec. lra.
Qed.

Lemma slice_count_le (k : number) (len : nat) : (slice_count k len <= len)%nat.
Proof.
  destruct k as [r| | |]; simpl; try lia.
  destruct (trunc r <? 0)%Z eqn:E; lia.
Qed.

Lemma slice_count_integer (z : Z) (len : nat) :
  slice_count (Fin (IZR z)) len
  = if (z <? 0)%Z then (len - Z.to_nat (- z))%nat
    else Nat.min (Z.to_nat z) len.
Proof.
  unfold slice_count. rewrite trunc_IZR.
  destruct (z <? 0)%Z eqn:E; lia.
Qed.

Lemma sorted_prefix_dominates {A} (R : A -> A -> Prop) (p q : list A) :
  StronglySorted R (p ++ q) ->
  StronglySorted R p /\ (forall a b, In a p -> In b q -> R a b).
Proof.
  induction p as [|x p IH]; simpl; intros Hs.
  - split; [constructor | intros a b []].
  - apply StronglySorted_inv in Hs as [Hs Hx]. destruct (IH Hs) as [Hp Hpq].
    split.
    + constructor; [exact Hp|]. apply Forall_app in Hx. tauto.
    + intros a b [<-|Ha] Hb; [|now apply Hpq].
      rewrite Forall_forall in Hx. apply Hx, in_or_app. now right.
Qed.

(** X9. [getNearestNeighbors] returns the most similar recorded
    connections of the item: in every engine that calls of [addCodeSoul]
    can produce and for every [k], the result is a prefix of the item's
    connection list, it is sorted by similarity descending, and every
    connection it leaves out is at most as similar as every connection it
    returns.  For an identifier without a list the result is empty. *)
Theorem getNearestNeighbors_most_similar :
  forall (computeHash : string -> Error + ProteinHashResult)
         (this : WormholeEngine),
    reachable computeHash this ->
    forall (soulId : string) (k : option number),
      (Map_get soulId (connections this) = None ->
       getNearestNeighbors this soulId k = []) /\
      (forall l,
          Map_get soulId (connections this) = Some l ->
          exists rest,
            l = getNearestNeighbors this soulId k ++ rest /\
            StronglySorted descending (getNearestNeighbors this soulId k) /\
            (forall c c',
                In c (getNearestNeighbors this soulId k) -> In c' rest ->
                descending c c')).
Proof.
  intros computeHash this Hr soulId k. unfold getNearestNeighbors. split.
  - intros ->. unfold Array_slice0. now rewrite firstn_nil.
  - intros l Hl. rewrite Hl. unfold Array_slice0.
    set (n := slice_count _ _).
    exists (skipn n l). split; [now rewrite firstn_skipn|].
    apply sorted_prefix_dominates. rewrite firstn_skipn.
    apply (reachable_connections computeHash this Hr soulId l).
    now apply Map_get_In.
Qed.

Lemma getNearestNeighbors_most_similar_witness :
  reachable demoHash engineAB /\
  Map_get "nobody" (connections engineAB) = None /\
  getNearestNeighbors engineAB "nobody" None = [] /\
  Map_get "x" (connections engineAB) = Some [connect soulB soulA] /\
  exists rest,
    [connect soulB soulA] = getNearestNeighbors engineAB "x" None ++ rest /\
    StronglySorted descending (getNearestNeighbors engineAB "x" None) /\
    (forall c c',
        In c (getNearestNeighbors engineAB "x" None) -> In c' rest ->
        descending c c').
Proof.
  destruct (getNearestNeighbors_most_similar demoHash engineAB reachable_engineAB
              "nobody"%string None) as [Hnone _].
  destruct (getNearestNeighbors_most_similar demoHash engineAB reachable_engineAB
              "x"%string None) as [_ Hsome].
  exact (conj reachable_engineAB
           (conj eq_refl
              (conj (Hnone eq_refl)
                 (conj eq_refl (Hsome [connect soulB soulA] eq_refl))))).
Defined.

Lemma getNearestNeighbors_default (this : WormholeEngine) (soulId : string) :
  getNearestNeighbors this soulId None
  = firstn 5 (match Map_get soulId (connections this) with
              | Some l => l
              | None => []
              end).
Proof.
  unfold getNearestNeighbors, Array_slice0.
  change (Fin 5) with (Fin (IZR 5)). rewrite slice_count_integer.
  cbn [Z.ltb Z.compare].
  set (l := match Map_get soulId (connections this) with
            | Some l => l
            | None => []
            end).
  destruct (Nat.le_ge_cases (Z.to_nat 5) (List.length l)) as [H|H].
  - rewrite Nat.min_l by assumption. reflexivity.
  - rewrite Nat.min_r by assumption.
    rewrite firstn_all. symmetry. now apply firstn_all2.
Qed.

(** X10. How many connections [getNearestNeighbors] returns: the first 5
    when [k] is omitted; the first [k] for an integer [k] that is not
    negative, or all of them when there are fewer; all but the last [-k]
    for a negative integer [k]; none for [NaN]; all for [Infinity]. *)
Theorem getNearestNeighbors_count :
  forall (this : WormholeEngine) (soulId : string),
    let l := match Map_get soulId (connections this) with
             | Some l => l
             | None => []
             end in
    getNearestNeighbors this soulId None = firstn 5 l /\
    (forall z : Z,
        getNearestNeighbors this soulId (Some (Fin (IZR z)))
        = if (z <? 0)%Z then firstn (List.length l - Z.to_nat (- z)) l
          else firstn (Z.to_nat z) l) /\
    getNearestNeighbors this soulId (Some NaN) = [] /\
    getNearestNeighbors this soulId (Some PInf) = l.
Proof.
  intros this soulId l. unfold getNearestNeighbors. fold l.
  unfold Array_slice0. split; [|split; [|split]].
  - change (Fin 5) with (Fin (IZR 5)). rewrite slice_count_integer.
    cbn [Z.ltb Z.compare]. 
    destruct (Nat.le_ge_cases (Z.to_nat 5) (List.length l)) as [H|H].
    + rewrite Nat.min_l by assumption. reflexivity.
    + rewrite Nat.min_r by assumption.
      rewrite firstn_all. symmetry. now apply firstn_all2.
  - intros z. rewrite slice_count_integer.
    destruct (z <? 0)%Z; [reflexivity|].
    destruct (Nat.le_ge_cases (Z.to_nat z) (List.length l)) as [H|H].
    + now rewrite Nat.min_l.
    + rewrite Nat.min_r by assumption.
      rewrite firstn_all. symmetry. now apply firstn_all2.
  - reflexivity.
  - cbn [slice_count]. apply firstn_all.
Qed.

(** ** Stable wormholes and resonant pairs *)

Lemma fold_filter_concat (p : WormholeConnection -> bool)
  (m : list (string * list WormholeConnection))
  (acc : list WormholeConnection) :
  fold_left (fun allConnections entry => allConnections ++ filter p (snd entry))
    m acc
  = acc ++ filter p (List.concat (map snd m)).
Proof.
  revert acc. induction m as [|entry m IH]; intros acc; simpl.
  - now rewrite app_nil_r.
  - rewrite IH, filter_app, app_assoc. reflexivity.
Qed.

Lemma getStableWormholes_filter (this : WormholeEngine) (m : option number) :
  getStableWormholes this m
  = filter (fun c => ge (stability c)
                       (match m with Some m => m | None => Fin 0.8 end))
      (all_connections this).
Proof. unfold getStableWormholes. now rewrite fold_filter_concat. Qed.

Lemma getResonantPairs_filter (this : WormholeEngine) (m : option number) :
  getResonantPairs this m
  = filter (fun c => ge (resonance c)
                       (match m with Some m => m | None => Fin 0.7 end))
      (all_connections this).
Proof. unfold getResonantPairs. now rewrite fold_filter_concat. Qed.

Lemma In_all_connections (this : WormholeEngine) (c : WormholeConnection) :
  In c (all_connections this) <->
  exists k l, In (k, l) (connections this) /\ In c l.
Proof.
  unfold all_connections. rewrite in_concat. split.
  - intros (l & Hl & Hc). apply in_map_iff in Hl as ([k l'] & <- & Hin).
    now exists k, l'.
  - intros (k & l & Hin & Hc). exists l. split; [|exact Hc].
    apply in_map_iff. now exists (k, l).
Qed.

Lemma ge_not_NaN (a b : number) : ge a b = true -> a <> NaN.
Proof. destruct a; simpl; discriminate. Qed.

(** X11. [getStableWormholes] and [getResonantPairs] return exactly the
    stored connections whose stability, respectively resonance, is at
    least the threshold, in the enumeration order of the index; a
    connection whose value is [NaN] is returned for no threshold; and
    every connection returned for a threshold is returned for every lower
    one. *)
Theorem threshold_queries :
  forall (this : WormholeEngine) (m : number) (c : WormholeConnection),
    getStableWormholes this (Some m)
    = filter (fun c => ge (stability c) m) (all_connections this) /\
    getResonantPairs this (Some m)
    = filter (fun c => ge (resonance c) m) (all_connections this) /\
    (In c (getStableWormholes this (Some m)) <->
     In c (all_connections this) /\ ge (stability c) m = true) /\
    (In c (getResonantPairs this (Some m)) <->
     In c (all_connections this) /\ ge (resonance c) m = true) /\
    (In c (getStableWormholes this (Some m)) -> stability c <> NaN) /\
    (In c (getResonantPairs this (Some m)) -> resonance c <> NaN) /\
    (forall m', ge m m' = true ->
                (In c (getStableWormholes this (Some m)) ->
                 In c (getStableWormholes this (Some m'))) /\
                (In c (getResonantPairs this (Some m)) ->
                 In c (getResonantPairs this (Some m')))).
Proof.
  intros this m c.
  split; [apply getStableWormholes_filter|].
  split; [apply getResonantPairs_filter|].
  rewrite getStableWormholes_filter, getResonantPairs_filter, !filter_In.
  split; [reflexivity|]. split; [reflexivity|].
  split; [intros [_ H]; exact (ge_not_NaN _ _ H)|].
  split; [intros [_ H]; exact (ge_not_NaN _ _ H)|].
  intros m' Hm.
  rewrite getStableWormholes_filter, getResonantPairs_filter, !filter_In.
  split; intros [Hin H]; (split; [exact Hin | exact (ge_trans _ _ _ H Hm)]).
Qed.

Lemma In_all_engineAB : In (connect soulB soulA) (all_connections engineAB).
Proof. left. reflexivity. Qed.

Lemma stability_connect_B_A :
  stability (connect soulB soulA) = Fin (1 / (1 + exp (- 10 * (1 - 0.8)))).
Proof.
  change (stability (connect soulB soulA))
    with (wormholeStability (cosineSimilarity unit1 unit1)).
  now rewrite cosineSimilarity_unit1, wormholeStability_Fin.
Qed.

Lemma stability_connect_B_A_half :
  ge (stability (connect soulB soulA)) (Fin 0.5) = true.
Proof.
  rewrite stability_connect_B_A. cbn [ge].
  pose proof (logistic_increasing 0.8 1) as H.
  replace (- 10 * (0.8 - 0.8)) with 0 in H by lra. rewrite exp_0 in H.
  rewrite Rltb_false; [reflexivity | lra].
Qed.

Lemma threshold_queries_witness :
  ge (Fin 0.5) (Fin 0.25) = true /\
  In (connect soulB soulA) (getStableWormholes engineAB (Some (Fin 0.5))) /\
  stability (connect soulB soulA) <> NaN /\
  In (connect soulB soulA) (getStableWormholes engineAB (Some (Fin 0.25))).
Proof.
  destruct (threshold_queries engineAB (Fin 0.5) (connect soulB soulA))
    as (_ & _ & Hs & _ & Hn & _ & Hlow).
  assert (Hm : ge (Fin 0.5) (Fin 0.25) = true)
    by (simpl; rewrite Rltb_false; [reflexivity | lra]).
  assert (Hin : In (connect soulB soulA)
                  (getStableWormholes engineAB (Some (Fin 0.5))))
    by (apply Hs; split; [exact In_all_engineAB | exact stability_connect_B_A_half]).
  exact (conj Hm (conj Hin (conj (Hn Hin) (proj1 (Hlow (Fin 0.25) Hm) Hin)))).
Defined.

(** ** The default stability threshold, in terms of similarity *)

Lemma exp_le_iff (x y : R) : exp x <= exp y <-> x <= y.
Proof.
  split; intros H.
  - destruct (Rle_dec x y) as [|Hn]; [assumption|]. exfalso.
    assert (exp y < exp x) by (apply exp_increasing; lra). lra.
  - destruct H as [H| ->]; [|lra]. apply exp_increasing in H. lra.
Qed.





(** ** Statistics *)

Lemma stats_conn_fold (l : list WormholeConnection) (acc : StatsLoop) :
  fold_left stats_conn l acc
  = {| totalConnections := totalConnections acc;
       avgSimilarity := fold_left add (map similarity l) (avgSimilarity acc);
       maxSimilarity_so_far :=
         fold_left Math_max (map similarity l) (maxSimilarity_so_far acc);
       stableCount :=
         stableCount acc
         + List.length (filter (fun c => gt (stability c) (Fin 0.8)) l);
       resonantCount :=
         resonantCount acc
         + List.length (filter (fun c => gt (resonance c) (Fin 0.7)) l) |}.
Proof.
  revert acc. induction l as [|c l IH]; intros acc.
  - simpl. rewrite !Nat.add_0_r. now destruct acc.
  - cbn [fold_left]. rewrite IH. unfold stats_conn at 1 2 3 4 5.
    cbn [totalConnections avgSimilarity maxSimilarity_so_far stableCount
         resonantCount map fold_left filter].
    f_equal.
    + destruct (gt (stability c) (Fin 0.8)); simpl; lia.
    + destruct (gt (resonance c) (Fin 0.7)); simpl; lia.
Qed.

Lemma stats_list_fold (m : list (string * list WormholeConnection))
  (acc : StatsLoop) :
  fold_left stats_list m acc
  = let l := List.concat (map snd m) in
    {| totalConnections := totalConnections acc + List.length l;
       avgSimilarity := fold_left add (map similarity l) (avgSimilarity acc);
       maxSimilarity_so_far :=
         fold_left Math_max (map similarity l) (maxSimilarity_so_far acc);
       stableCount :=
         stableCount acc
         + List.length (filter (fun c => gt (stability c) (Fin 0.8)) l);
       resonantCount :=
         resonantCount acc
         + List.length (filter (fun c => gt (resonance c) (Fin 0.7)) l) |}.
Proof.
  revert acc. induction m as [|[k l] m IH]; intros acc.
  - simpl. rewrite !Nat.add_0_r. now destruct acc.
  - cbn [fold_left]. rewrite IH. unfold stats_list. cbn [snd].
    rewrite stats_conn_fold. cbv zeta.
    cbn [totalConnections avgSimilarity maxSimilarity_so_far stableCount
         resonantCount map List.concat].
    rewrite !map_app, !fold_left_app, !filter_app, !length_app.
    cbn [snd]. f_equal; lia.
Qed.

Lemma filter_length_mono {A} (p q : A -> bool) (l : list A) :
  (forall a, p a = true -> q a = true) ->
  (List.length (filter p l) <= List.length (filter q l))%nat.
Proof.
  intros Hpq. induction l as [|a l IH]; simpl; [lia|].
  destruct (p a) eqn:E.
  - rewrite (Hpq a E). simpl. lia.
  - destruct (q a); simpl; lia.
Qed.

Lemma gt_ge (a b : number) : gt a b = true -> ge a b = true.
Proof. destruct a, b; simpl; try discriminate; try reflexivity; intros; rdec. Qed.

Lemma exportNetwork_edges_fold (m : list (string * list WormholeConnection))
  (acc : list Edge.t) :
  fold_left
    (fun edges entry =>
       fold_left (fun edges conn => edges ++ [edge_of (fst entry) conn])
         (snd entry) edges)
    m acc
  = acc ++ List.concat (map (fun entry => map (edge_of (fst entry)) (snd entry)) m).
Proof.
  assert (Hin : forall k (l : list WormholeConnection) acc,
             fold_left (fun edges conn => edges ++ [edge_of k conn]) l acc
             = acc ++ map (edge_of k) l).
  { intros k l. induction l as [|c l IH]; intros acc0; simpl.
    - now rewrite app_nil_r.
    - rewrite IH, <- app_assoc. reflexivity. }
  revert acc. induction m as [|[k l] m IH]; intros acc; simpl.
  - now rewrite app_nil_r.
  - rewrite IH, Hin, <- app_assoc. reflexivity.
Qed.

(** X13. The counts of [getMultiverseStats] and the sizes of
    [exportNetwork] agree, on every engine: [totalSouls] is the number of
    souls and of exported nodes, [totalWormholes] is the number of stored
    connections and of exported edges.  [stableWormholes] and
    [resonantPairs] count the connections strictly above 0.8 and 0.7, so
    they never exceed the number of connections [getStableWormholes] and
    [getResonantPairs] return by default, nor [totalWormholes]. *)
Theorem stats_counts :
  forall this : WormholeEngine,
    let stats := getMultiverseStats this in
    let network := exportNetwork this in
    totalSouls stats = List.length (souls this) /\
    totalSouls stats = List.length (nodes network) /\
    totalWormholes stats = List.length (all_connections this) /\
    totalWormholes stats = List.length (edges network) /\
    (stableWormholes stats <= List.length (getStableWormholes this None))%nat /\
    (resonantPairs stats <= List.length (getResonantPairs this None))%nat /\
    (stableWormholes stats <= totalWormholes stats)%nat /\
    (resonantPairs stats <= totalWormholes stats)%nat.
Proof.
  intros this stats network. subst stats network.
  unfold getMultiverseStats, exportNetwork. rewrite stats_list_fold.
  cbv zeta.
  cbn [totalSouls totalWormholes stableWormholes resonantPairs nodes edges
       totalConnections stableCount resonantCount].
  rewrite exportNetwork_edges_fold, getStableWormholes_filter,
    getResonantPairs_filter.
  fold (all_connections this). rewrite !Nat.add_0_l.
  split; [reflexivity|]. split; [now rewrite length_map|].
  split; [reflexivity|]. split.
  - unfold all_connections. cbn [app]. rewrite !length_concat, !map_map.
    f_equal. apply map_ext. intros [k l]. simpl.
    now rewrite length_map.
  - split; [apply filter_length_mono; intros a; apply gt_ge|].
    split; [apply filter_length_mono; intros a; apply gt_ge|].
    split; apply filter_length_le.
Qed.

(** ** Resonance under zero padding *)

Lemma padded_soul (this : WormholeEngine) (now : Z) (code : string)
  (id0 source : option string) (result : ProteinHashResult) :
  dimensionality this = 10%nat ->
  (List.length (eigenTop result) < 10)%nat ->
  let soul := soul_of this now code id0 source result in
  Array_get (eigenvalues soul) 9 = Fin 0 /\
  List.length (eigenvalues soul) = 10%nat.
Proof.
  intros HD Hlen soul. subst soul. cbn [eigenvalues soul_of].
  split; [|rewrite normalizeEigenvalues_length; exact HD].
  rewrite normalizeEigenvalues_closed. cbv zeta. rewrite HD.
  rewrite Nat.min_l by lia. rewrite firstn_all.
  unfold Array_get. rewrite app_nth2 by lia.
  apply nth_repeat_lt. lia.
Qed.

Lemma filter_nothing {A} (p : A -> bool) (l : list A) :
  (forall a, In a l -> p a = false) -> filter p l = [].
Proof.
  induction l as [|a l IH]; intros H; [reflexivity|]. simpl.
  rewrite (H a (or_introl eq_refl)). apply IH. intros b Hb. apply H. now right.
Qed.

(** X14. When the hasher never returns 10 features or more, the zero
    padding makes every stored resonance [NaN]: in every engine that calls
    of [addCodeSoul] can produce, [getResonantPairs] returns nothing for
    every threshold and [getMultiverseStats] counts no resonant pair,
    whatever connections are stored. *)
Theorem resonance_lost_under_padding :
  forall computeHash : string -> Error + ProteinHashResult,
    (forall code result,
        computeHash code = inr result ->
        (List.length (eigenTop result) < 10)%nat) ->
    forall this : WormholeEngine,
      reachable computeHash this ->
      (forall c, In c (all_connections this) -> resonance c = NaN) /\
      (forall m, getResonantPairs this m = []) /\
      resonantPairs (getMultiverseStats this) = 0%nat.
Proof.
  intros computeHash Hshort this Hr.
  assert (Hnan : forall c, In c (all_connections this) -> resonance c = NaN).
  { intros c Hc. apply In_all_connections in Hc as (k & l & Hkl & Hc).
    pose proof (stored_connect computeHash this k l c Hr Hkl Hc) as Hcon.
    destruct (reachable_souls computeHash
                (fun s => Array_get (eigenvalues s) 9 = Fin 0 /\
                          List.length (eigenvalues s) = 10%nat))
      with (this := this) as [_ Hends]; [|exact Hr|].
    - intros this0 now code id0 source result Hh HD.
      apply padded_soul; [exact HD | exact (Hshort code result Hh)].
    - destruct (Hends k l c Hkl Hc) as [[Hf9 Hfl] [Ht9 Htl]].
      rewrite Hcon.
      change (resonance (connect (from c) (to c)))
        with (harmonicResonance (eigenvalues (from c)) (eigenvalues (to c))).
      apply (harmonicResonance_zero_over_zero _ _ 9); [|assumption..].
      rewrite Hfl, Htl. simpl. lia. }
  split; [exact Hnan|]. split.
  - intros m. rewrite getResonantPairs_filter. apply filter_nothing.
    intros c Hc. now rewrite (Hnan c Hc).
  - unfold getMultiverseStats. rewrite stats_list_fold. cbv zeta.
    cbn [resonantPairs resonantCount]. fold (all_connections this).
    rewrite filter_nothing; [reflexivity|].
    intros c Hc. now rewrite (Hnan c Hc).
Qed.

Lemma demoHash_cases (code : string) (result : ProteinHashResult) :
  demoHash code = inr result ->
  eigenTop result = [Fin 1] \/ eigenTop result = [].
Proof.
  unfold demoHash.
  destruct (String.eqb code "a"); [intros [= <-]; now left|].
  destruct (String.eqb code "b"); [intros [= <-]; now left|].
  destruct (String.eqb code "z"); [intros [= <-]; now right|].
  discriminate.
Qed.

Lemma demoHash_short (code : string) (result : ProteinHashResult) :
  demoHash code = inr result -> (List.length (eigenTop result) < 10)%nat.
Proof.
  intros H. destruct (demoHash_cases code result H) as [-> | ->]; simpl; lia.
Qed.

Lemma resonance_lost_under_padding_witness :
  (forall code result,
      demoHash code = inr result -> (List.length (eigenTop result) < 10)%nat) /\
  reachable demoHash engineAB /\
  In (connect soulB soulA) (all_connections engineAB) /\
  resonance (connect soulB soulA) = NaN /\
  getResonantPairs engineAB (Some (Fin 0)) = [] /\
  resonantPairs (getMultiverseStats engineAB) = 0%nat.
Proof.
  destruct (resonance_lost_under_padding demoHash demoHash_short engineAB
              reachable_engineAB) as (Hnan & Hnone & Hstats).
  exact (conj demoHash_short
           (conj reachable_engineAB
              (conj In_all_engineAB
                 (conj (Hnan _ In_all_engineAB)
                    (conj (Hnone (Some (Fin 0))) Hstats))))).
Defined.

(** ** The exported network *)

Lemma In_keys_Map_set {V} (m : list (string * V)) (k k' : string) (v : V) :
  In k' (Map_keys (Map_set k v m)) -> k' = k \/ In k' (Map_keys m).
Proof.
  induction m as [|[k0 v0] m IH]; simpl.
  - intros [<-|[]]. now left.
  - destruct (String.eqb k0 k) eqn:E; simpl.
    + apply String.eqb_eq in E. subst k0. intros [<-|H]; [now left | now right; right].
    + intros [<-|H]; [now right; left|].
      destruct (IH H) as [->|H']; [now left | now right; right].
Qed.

Lemma NoDup_Map_set {V} (m : list (string * V)) (k : string) (v : V) :
  NoDup (Map_keys m) -> NoDup (Map_keys (Map_set k v m)).
Proof.
  induction m as [|[k0 v0] m IH]; simpl; intros Hnd.
  - constructor; [intros [] | constructor].
  - inversion Hnd as [|? ? Hnotin Hnd']; subst.
    destruct (String.eqb k0 k) eqn:E; simpl.
    + apply String.eqb_eq in E. subst k0. now constructor.
    + apply String.eqb_neq in E. constructor; [|now apply IH].
      intros Hin. apply In_keys_Map_set in Hin as [->|Hin]; [now apply E | now apply Hnotin].
Qed.

Lemma reachable_NoDup (computeHash : string -> Error + ProteinHashResult)
  (this : WormholeEngine) :
  reachable computeHash this -> NoDup (Map_keys (souls this)).
Proof.
  induction 1 as [|this c Hr IH]; [constructor|].
  destruct (after_cases computeHash this c) as [[_ ->]|(soul & _ & ->)];
    [exact IH|].
  simpl. now apply NoDup_Map_set.
Qed.

Lemma In_exportNetwork_edges (this : WormholeEngine) (e : Edge.t) :
  In e (edges (exportNetwork this)) <->
  exists k l c, In (k, l) (connections this) /\ In c l /\ e = edge_of k c.
Proof.
  unfold exportNetwork. cbn [edges]. rewrite exportNetwork_edges_fold.
  cbn [app]. rewrite in_concat. split.
  - intros (es & Hes & He). apply in_map_iff in Hes as ([k l] & <- & Hkl).
    cbn [fst snd] in He. apply in_map_iff in He as (c & <- & Hc).
    now exists k, l, c.
  - intros (k & l & c & Hkl & Hc & ->).
    exists (map (edge_of k) l). split.
    + apply in_map_iff. now exists (k, l).
    + now apply in_map.
Qed.

(** X15. The network [exportNetwork] returns for an engine that calls of
    [addCodeSoul] can produce is a well-formed graph: the node
    identifiers are the keys of the corpus, in order and without
    repetition, and every edge goes from the identifier of a node to the
    identifier of another node. *)
Theorem exportNetwork_well_formed :
  forall (computeHash : string -> Error + ProteinHashResult)
         (this : WormholeEngine),
    reachable computeHash this ->
    let network := exportNetwork this in
    map Node.id (nodes network) = Map_keys (souls this) /\
    NoDup (map Node.id (nodes network)) /\
    (forall e, In e (edges network) ->
               In (Edge.source e) (map Node.id (nodes network)) /\
               In (Edge.target e) (map Node.id (nodes network)) /\
               Edge.source e <> Edge.target e).
Proof.
  intros computeHash this Hr network.
  destruct (reachable_inv computeHash this Hr) as (Hkeyed & Hwf & Hkeys & _).
  assert (Hids : map Node.id (nodes network) = Map_keys (souls this)).
  { subst network. unfold exportNetwork, Map_keys. cbn [nodes].
    rewrite map_map. apply map_ext_in. intros [k s] Hin.
    cbn [snd fst node_of Node.id]. now apply Hkeyed. }
  split; [exact Hids|]. rewrite Hids.
  split; [exact (reachable_NoDup computeHash this Hr)|].
  intros e He. apply In_exportNetwork_edges in He as (k & l & c & Hkl & Hc & ->).
  cbn [edge_of Edge.source Edge.target].
  destruct (Hwf k l c Hkl Hc) as (_ & Hto & _).
  destruct (reachable_connections computeHash this Hr k l Hkl) as [_ Hall].
  destruct (Hall c Hc) as [_ Htarget].
  split; [|split; [exact Htarget | congruence]].
  unfold same_keys in Hkeys. rewrite Hkeys. now apply (In_Map_keys _ k l).
Qed.

Lemma In_edge_engineAB :
  In (edge_of "x" (connect soulB soulA)) (edges (exportNetwork engineAB)).
Proof. left. reflexivity. Qed.

Lemma exportNetwork_well_formed_witness :
  reachable demoHash engineAB /\
  In (edge_of "x" (connect soulB soulA)) (edges (exportNetwork engineAB)) /\
  map Node.id (nodes (exportNetwork engineAB)) = Map_keys (souls engineAB) /\
  NoDup (map Node.id (nodes (exportNetwork engineAB))) /\
  In "x"%string (map Node.id (nodes (exportNetwork engineAB))) /\
  In "ha"%string (map Node.id (nodes (exportNetwork engineAB))) /\
  "x"%string <> "ha"%string.
Proof.
  destruct (exportNetwork_well_formed demoHash engineAB reachable_engineAB)
    as (Hids & Hnd & Hedges).
  exact (conj reachable_engineAB
           (conj In_edge_engineAB
              (conj Hids (conj Hnd (Hedges _ In_edge_engineAB))))).
Defined.

(** ** Connections between equal vectors *)

(** X16. In every engine that calls of [addCodeSoul] can produce, a stored
    connection whose two souls have the same vector of finite numbers has
    distance exactly 0 and energy exactly 0. *)
Theorem equal_vectors_distance_energy :
  forall (computeHash : string -> Error + ProteinHashResult)
         (this : WormholeEngine),
    reachable computeHash this ->
    forall k l c,
      In (k, l) (connections this) -> In c l ->
      vector (from c) = vector (to c) ->
      finite_vector (vector (from c)) ->
      distance c = Fin 0 /\ energy c = Fin 0.
Proof.
  intros computeHash this Hr k l c Hkl Hc Hvec Hfin.
  pose proof (stored_connect computeHash this k l c Hr Hkl Hc) as Hcon.
  destruct (reachable_inv computeHash this Hr) as (_ & Hwf & _).
  destruct (Hwf k l c Hkl Hc) as (_ & _ & Hgt).
  assert (Hd : distance c = Fin 0).
  { rewrite Hcon. unfold connect. cbn [distance].
    rewrite <- Hvec. now apply euclideanDistance_self. }
  split; [exact Hd|].
  assert (He : energy c = wormholeEnergy (distance c) (similarity c))
    by (rewrite Hcon; reflexivity).
  rewrite He, Hd. unfold wormholeEnergy.
  destruct (similarity c) as [s| | |]; simpl in Hgt |- *; try discriminate.
  - unfold Rltb in Hgt. destruct (Rlt_dec 0.7 s); [|discriminate].
    rewrite !Reqb_false by lra. f_equal. field. lra.
  - f_equal.
Qed.

Lemma equal_vectors_distance_energy_witness :
  reachable demoHash engineAB /\
  In ("x"%string, [connect soulB soulA]) (connections engineAB) /\
  In (connect soulB soulA) [connect soulB soulA] /\
  vector (from (connect soulB soulA)) = vector (to (connect soulB soulA)) /\
  finite_vector (vector (from (connect soulB soulA))) /\
  distance (connect soulB soulA) = Fin 0 /\
  energy (connect soulB soulA) = Fin 0.
Proof.
  exact (conj reachable_engineAB
           (conj In_x_engineAB
              (conj (or_introl eq_refl)
                 (conj eq_refl
                    (conj finite_unit1
                       (equal_vectors_distance_energy demoHash engineAB
                          reachable_engineAB "x"%string [connect soulB soulA]
                          (connect soulB soulA) In_x_engineAB
                          (or_introl eq_refl) eq_refl finite_unit1)))))).
Defined.

(** ** Statistics of the similarity *)

Lemma fold_max_dominates (l : list number) (acc : number) :
  acc <> NaN -> Forall (fun x => x <> NaN) l ->
  let m := fold_left Math_max l acc in
  ge m acc = true /\
  (forall x, In x l -> ge m x = true) /\
  (m = acc \/ In m l).
Proof.
  revert acc. induction l as [|y l IH]; intros acc Hacc Hl; cbn zeta.
  - simpl. split; [|split].
    + destruct acc; simpl; try congruence; rdec.
    + intros x [].
    + now left.
  - inversion Hl as [|? ? Hy Hl']; subst. cbn [fold_left].
    assert (Hm : Math_max acc y <> NaN /\ ge (Math_max acc y) acc = true /\
                 ge (Math_max acc y) y = true /\
                 (Math_max acc y = acc \/ Math_max acc y = y)).
    { destruct acc, y; simpl; try congruence;
        repeat split; try congruence; try (now left); try (now right);
        try (unfold Rltb; destruct (Rlt_dec _ _); simpl; try congruence;
             try (now left); try (now right); rdec). }
    destruct Hm as (Hn & Hga & Hgy & Hor).
    destruct (IH (Math_max acc y) Hn Hl') as (H1 & H2 & H3).
    split; [|split].
    + exact (ge_trans _ _ _ H1 Hga).
    + intros x [<-|Hx]; [exact (ge_trans _ _ _ H1 Hgy)|now apply H2].
    + destruct H3 as [H3|H3]; [|right; now right].
      rewrite H3. destruct Hor as [Hor|Hor]; rewrite Hor;
        [now left|right; now left].
Qed.

(** X19. In every engine that calls of [addCodeSoul] can produce, the
    [maxSimilarity] of the statistics is at least the similarity of every
    stored connection; it is 0 when no connection is stored, and otherwise
    it is the similarity of a stored connection and above 0.7. *)
Theorem maxSimilarity_dominates :
  forall (computeHash : string -> Error + ProteinHashResult)
         (this : WormholeEngine),
    reachable computeHash this ->
    (forall c, In c (all_connections this) ->
       ge (maxSimilarity (getMultiverseStats this)) (similarity c) = true) /\
    (all_connections this = [] ->
       maxSimilarity (getMultiverseStats this) = Fin 0) /\
    (all_connections this <> [] ->
       gt (maxSimilarity (getMultiverseStats this)) (Fin 0.7) = true /\
       exists c, In c (all_connections this) /\
                 similarity c = maxSimilarity (getMultiverseStats this)).
Proof.
  intros computeHash this Hr.
  assert (Hmax : maxSimilarity (getMultiverseStats this)
                 = fold_left Math_max (map similarity (all_connections this))
                     (Fin 0)).
  { unfold getMultiverseStats. rewrite stats_list_fold. reflexivity. }
  destruct (reachable_inv computeHash this Hr) as (_ & Hwf & _).
  assert (Hgt : forall c, In c (all_connections this) ->
                  gt (similarity c) (Fin 0.7) = true).
  { intros c Hc. apply In_all_connections in Hc as (k & l & Hkl & Hcl).
    now destruct (Hwf k l c Hkl Hcl) as (_ & _ & H). }
  assert (Hall : Forall (fun x => x <> NaN)
                   (map similarity (all_connections this))).
  { apply Forall_forall. intros x Hx.
    apply in_map_iff in Hx as (c & <- & Hc).
    exact (gt_not_NaN _ _ (Hgt c Hc)). }
  assert (H0 : Fin 0 <> NaN) by discriminate.
  destruct (fold_max_dominates _ _ H0 Hall) as (_ & Hdom & Hor).
  rewrite <- Hmax in Hdom, Hor.
  split; [|split].
  - intros c Hc. apply Hdom. now apply in_map.
  - intros Hnil. rewrite Hmax, Hnil. reflexivity.
  - intros Hne.
    assert (Hin : In (maxSimilarity (getMultiverseStats this))
                    (map similarity (all_connections this))).
    { destruct Hor as [Hor|Hor]; [|exact Hor]. exfalso.
      destruct (all_connections this) as [|c l] eqn:E; [now apply Hne|].
      assert (Hc : In c (c :: l)) by now left.
      pose proof (Hgt c Hc) as Hc7.
      pose proof (Hdom (similarity c) (in_map similarity _ _ Hc)) as Hge.
      rewrite Hor in Hge.
      destruct (similarity c); simpl in Hc7, Hge; try discriminate; rdec. }
    apply in_map_iff in Hin as (c & Hs & Hc).
    split; [rewrite <- Hs; now apply Hgt|now exists c].
Qed.

Lemma In_all_connections_engineAB :
  In (connect soulB soulA) (all_connections engineAB).
Proof.
  apply In_all_connections.
  exists "x"%string, [connect soulB soulA].
  split; [exact In_x_engineAB|now left].
Qed.

Lemma maxSimilarity_dominates_witness :
  reachable demoHash engineAB /\
  In (connect soulB soulA) (all_connections engineAB) /\
  ge (maxSimilarity (getMultiverseStats engineAB))
     (similarity (connect soulB soulA)) = true.
Proof.
  exact (conj reachable_engineAB
           (conj In_all_connections_engineAB
              (proj1 (maxSimilarity_dominates demoHash engineAB
                        reachable_engineAB)
                 (connect soulB soulA) In_all_connections_engineAB))).
Defined.


Lemma density_denominator (n : nat) :
  exists q,
    Math_max (Fin 1)
      (div (mul (of_nat n) (sub (of_nat n) (Fin 1))) (Fin 2)) = Fin q /\
    1 <= q /\ INR n * (INR n - 1) / 2 <= q /\
    (1 <= INR n * (INR n - 1) / 2 -> q = INR n * (INR n - 1) / 2).
Proof.
  unfold of_nat. cbn [sub neg add mul div]. rewrite Reqb_false by lra.
  cbn [Math_max gt]. unfold Rltb.
  destruct (Rlt_dec 1 (INR n * (INR n + - (1)) / 2)) as [H|H];
    eexists; (split; [reflexivity|]); unfold Rminus; repeat split; lra.
Qed.

(** X18. [getMultiverseStats] never divides by zero: on every engine the
    connection density is a finite number between 0 and the number of
    connections, and on an engine without connections the average
    similarity, the maximal similarity and the density are exactly 0 and
    the two counts are 0. *)
Theorem stats_neutral :
  forall this : WormholeEngine,
    let stats := getMultiverseStats this in
    (exists d, connectionDensity stats = Fin d /\
               0 <= d <= INR (totalWormholes stats)) /\
    (all_connections this = [] ->
     averageSimilarity stats = Fin 0 /\ maxSimilarity stats = Fin 0 /\
     connectionDensity stats = Fin 0 /\
     totalWormholes stats = 0%nat /\
     stableWormholes stats = 0%nat /\ resonantPairs stats = 0%nat).
Proof.
  intros this stats. subst stats. unfold getMultiverseStats.
  rewrite stats_list_fold. cbv zeta.
  cbn [connectionDensity averageSimilarity maxSimilarity totalWormholes
       stableWormholes resonantPairs totalConnections avgSimilarity
       maxSimilarity_so_far stableCount resonantCount].
  fold (all_connections this). rewrite !Nat.add_0_l.
  destruct (density_denominator (List.length (souls this)))
    as (q & Hq & Hq1 & _).
  rewrite Hq.
  assert (Hdiv : forall n, div (of_nat n) (Fin q) = Fin (INR n / q))
    by (intros n; unfold of_nat; cbn [div]; now rewrite Reqb_false by lra).
  rewrite !Hdiv.
  pose proof (pos_INR (List.length (all_connections this))) as Hn.
  split.
  - eexists. split; [reflexivity|].
    assert (Hinv : 0 < / q <= 1).
    { split; [apply Rinv_0_lt_compat; lra|].
      rewrite <- Rinv_1. apply Rinv_le_contravar; lra. }
    unfold Rdiv. split; [apply Rmult_le_pos; lra|].
    rewrite <- (Rmult_1_r (INR _)) at 2. apply Rmult_le_compat_l; lra.
  - intros ->. cbn [List.length map fold_left filter of_nat INR gt].
    rewrite Rltb_false by lra.
    repeat (split; [reflexivity|]). split; [|now repeat split].
    f_equal. unfold Rdiv. apply Rmult_0_l.
Qed.

Lemma stats_neutral_witness :
  all_connections engineA = [] /\
  averageSimilarity (getMultiverseStats engineA) = Fin 0 /\
  maxSimilarity (getMultiverseStats engineA) = Fin 0 /\
  connectionDensity (getMultiverseStats engineA) = Fin 0 /\
  totalWormholes (getMultiverseStats engineA) = 0%nat /\
  stableWormholes (getMultiverseStats engineA) = 0%nat /\
  resonantPairs (getMultiverseStats engineA) = 0%nat.
Proof.
  exact (conj eq_refl (proj2 (stats_neutral engineA) eq_refl)).
Defined.


(** ** Connection density *)

Lemma Map_get_not_key {V} (m : list (string * V)) (k : string) :
  ~ In k (Map_keys m) -> Map_get k m = None.
Proof.
  induction m as [|[k0 v0] m IH]; simpl; [reflexivity|]. intros H.
  destruct (String.eqb k0 k) eqn:E.
  - apply String.eqb_eq in E. subst k0. exfalso. apply H. now left.
  - apply IH. intros Hin. apply H. now right.
Qed.

Lemma admitted_spec_length (soul : CodeSoul) (corpus : list (string * CodeSoul)) :
  (List.length (admitted_spec soul corpus)
   <= List.length
        (filter (fun entry => negb (String.eqb (fst entry) (id soul))) corpus))%nat.
Proof.
  unfold admitted_spec. rewrite length_map. apply filter_length_mono.
  intros entry H. unfold admits in H. now apply andb_true_iff in H as [H _].
Qed.

Lemma lists_bounded_total (index : list (string * list WormholeConnection)) :
  lists_bounded index ->
  (2 * List.length (List.concat (map snd index)) + List.length index
   <= List.length index * List.length index)%nat.
Proof.
  induction index as [|[k l] index IH] using rev_ind; intros Hb; [simpl; lia|].
  assert (Hl : (List.length l <= List.length index)%nat).
  { apply (Hb (List.length index) k l).
    rewrite nth_error_app2 by lia. now rewrite Nat.sub_diag. }
  assert (Hb' : lists_bounded index).
  { intros i k' l' Hi. apply (Hb i k' l').
    rewrite nth_error_app1; [exact Hi|]. apply nth_error_Some. congruence. }
  specialize (IH Hb').
  rewrite map_app, concat_app, !length_app. simpl. rewrite app_nil_r. nia.
Qed.

Section Density.

Variable computeHash : string -> Error + ProteinHashResult.

Lemma run_snoc (calls : list Call) (c : Call) (this : WormholeEngine) :
  run computeHash (calls ++ [c]) this
  = after computeHash (run computeHash calls this) c.
Proof. unfold run. now rewrite fold_left_app. Qed.

Lemma stored_ids_snoc (calls : list Call) (c : Call) :
  stored_ids computeHash (calls ++ [c])
  = stored_ids computeHash calls
    ++ match call_soulId computeHash c with Some k => [k] | None => [] end.
Proof. unfold stored_ids. rewrite flat_map_app. simpl. now rewrite app_nil_r. Qed.

(** Along calls that never reuse an identifier, the keys of the corpus are
    the stored identifiers in order, and list [i] of the index was found
    against the [i] items before it. *)
Lemma run_distinct_ids (calls : list Call) :
  NoDup (stored_ids computeHash calls) ->
  let this := run computeHash calls new_WormholeEngine in
  Map_keys (souls this) = stored_ids computeHash calls /\
  lists_bounded (connections this).
Proof.
  induction calls as [|c calls IH] using rev_ind; intros Hnd.
  - split; [reflexivity|]. intros [|i] k l H; discriminate.
  - rewrite stored_ids_snoc in Hnd. cbv zeta. rewrite run_snoc, stored_ids_snoc.
    assert (Hnd' : NoDup (stored_ids computeHash calls))
      by (apply NoDup_app_remove_r in Hnd; exact Hnd).
    destruct (IH Hnd') as [Hkeys Hb].
    set (this := run computeHash calls new_WormholeEngine) in *.
    assert (Hr : reachable computeHash this)
      by (apply reachable_run, reachable_new).
    destruct (reachable_inv computeHash this Hr) as (_ & _ & Hsame & _).
    destruct (after_cases computeHash this c) as [[-> ->]|(soul & Hid & ->)].
    + rewrite app_nil_r. now split.
    + rewrite Hid in *.
      assert (Hfresh : ~ In (id soul) (Map_keys (souls this))).
      { rewrite Hkeys. intros Hin.
        apply NoDup_remove_2 in Hnd. rewrite app_nil_r in Hnd. now apply Hnd. }
      assert (Hfresh' : ~ In (id soul) (Map_keys (connections this)))
        by (unfold same_keys in Hsame; now rewrite <- Hsame).
      unfold stored. cbn [souls connections].
      rewrite (Map_set_fresh (souls this)) by now apply Map_get_not_key.
      rewrite (Map_set_fresh (connections this)) by now apply Map_get_not_key.
      split.
      * unfold Map_keys in *. rewrite map_app, Hkeys. reflexivity.
      * intros i k l Hi.
        destruct (Nat.lt_ge_cases i (List.length (connections this))) as [Hlt|Hge].
        -- rewrite nth_error_app1 in Hi by assumption. now apply (Hb i k l).
        -- rewrite nth_error_app2 in Hi by assumption.
           destruct (i - List.length (connections this))%nat as [|j] eqn:Ej;
             [|destruct j; discriminate].
           injection Hi as <- <-.
           rewrite <- (Permutation_length (Array_sort_perm bySimilarity _)).
           etransitivity; [apply admitted_spec_length|].
           rewrite filter_app. cbn [filter fst]. rewrite String.eqb_refl.
           cbn [negb]. rewrite app_nil_r.
           etransitivity; [apply filter_length_le|].
           assert (Hlen : List.length (souls this) = List.length (connections this)).
           { unfold same_keys, Map_keys in Hsame.
             rewrite <- (length_map fst (souls this)), Hsame. apply length_map. }
           lia.
Qed.

End Density.

Lemma stats_sizes (this : WormholeEngine) :
  totalSouls (getMultiverseStats this) = List.length (souls this) /\
  totalWormholes (getMultiverseStats this) = List.length (all_connections this).
Proof.
  unfold getMultiverseStats. rewrite stats_list_fold. split; reflexivity.
Qed.

Lemma stats_density_formula (this : WormholeEngine) :
  connectionDensity (getMultiverseStats this)
  = div (of_nat (List.length (all_connections this)))
      (Math_max (Fin 1)
         (div (mul (of_nat (List.length (souls this)))
                 (sub (of_nat (List.length (souls this))) (Fin 1)))
            (Fin 2))).
Proof.
  unfold getMultiverseStats. rewrite stats_list_fold. reflexivity.
Qed.


Lemma run_engineBB :
  run demoHash [callA; callB; callB2] new_WormholeEngine = engineBB.
Proof.
  unfold run. cbn [fold_left].
  rewrite after_new_callA, after_engineA_callB.
  unfold after, callB2. cbn [call_now call_code call_id call_source].
  now rewrite addCodeSoul_engineAB_b2.
Qed.

(** X20. As long as no identifier is used twice, the connection density of
    [getMultiverseStats] is at most 1: after calls that store under
    distinct identifiers, the number of connections is at most the number
    of pairs of items.  The condition is needed: after inserting a code,
    a second one and the second one again under the first identifier, two
    items carry two connections and the density is 2. *)
Theorem density_at_most_one :
  (forall (computeHash : string -> Error + ProteinHashResult)
          (calls : list Call),
      NoDup (stored_ids computeHash calls) ->
      let stats := getMultiverseStats (run computeHash calls new_WormholeEngine) in
      (2 * totalWormholes stats <= totalSouls stats * (totalSouls stats - 1))%nat /\
      exists d, connectionDensity stats = Fin d /\ 0 <= d <= 1) /\
  connectionDensity
    (getMultiverseStats (run demoHash [callA; callB; callB2] new_WormholeEngine))
  = Fin 2.
Proof.
  split.
  - intros computeHash calls Hnd stats.
    destruct (run_distinct_ids computeHash calls Hnd) as [_ Hb].
    set (this := run computeHash calls new_WormholeEngine) in *.
    assert (Hr : reachable computeHash this)
      by (apply reachable_run, reachable_new).
    destruct (reachable_inv computeHash this Hr) as (_ & _ & Hsame & _).
    assert (Hlen : List.length (souls this) = List.length (connections this)).
    { unfold same_keys, Map_keys in Hsame.
      rewrite <- (length_map fst (souls this)), Hsame. apply length_map. }
    pose proof (lists_bounded_total _ Hb) as Htot.
    fold (all_connections this) in Htot. rewrite <- Hlen in Htot.
    destruct (stats_sizes this) as (HS & HT).
    subst stats. rewrite HS, HT. split; [nia|].
    rewrite stats_density_formula.
    set (T := List.length (all_connections this)) in *.
    set (N := List.length (souls this)) in *.
    destruct (density_denominator N) as (q & -> & Hq1 & HqN & _).
    unfold of_nat. cbn [div]. rewrite Reqb_false by lra.
    eexists. split; [reflexivity|].
    assert (HTN : 2 * INR T + INR N <= INR N * INR N).
    { apply le_INR in Htot. rewrite plus_INR, !mult_INR in Htot.
      simpl in Htot. lra. }
    pose proof (pos_INR T) as HT0.
    assert (Hinv : INR T / q * q = INR T) by (field; lra).
    split.
    + apply Rmult_le_reg_r with q; [lra|]. rewrite Hinv. lra.
    + apply Rmult_le_reg_r with q; [lra|]. rewrite Hinv. lra.
  - rewrite run_engineBB, stats_density_formula.
    change (List.length (all_connections engineBB)) with 2%nat.
    change (List.length (souls engineBB)) with 2%nat.
    destruct (density_denominator 2) as (q & -> & _ & _ & Hq).
    unfold of_nat. simpl INR in *. cbn [div].
    assert (Hq1 : q = 1) by (rewrite Hq; lra).
    subst q. rewrite Reqb_false by lra. f_equal. lra.
Qed.

Lemma stored_ids_callA_callB : NoDup (stored_ids demoHash [callA; callB]).
Proof.
  change (stored_ids demoHash [callA; callB]) with ["ha"%string; "x"%string].
  constructor; [intros [H|[]]; discriminate|].
  constructor; [intros [] | constructor].
Qed.

Lemma density_at_most_one_witness :
  NoDup (stored_ids demoHash [callA; callB]) /\
  (2 * totalWormholes
         (getMultiverseStats (run demoHash [callA; callB] new_WormholeEngine))
   <= totalSouls
        (getMultiverseStats (run demoHash [callA; callB] new_WormholeEngine))
      * (totalSouls
           (getMultiverseStats (run demoHash [callA; callB] new_WormholeEngine))
         - 1))%nat /\
  exists d,
    connectionDensity
      (getMultiverseStats (run demoHash [callA; callB] new_WormholeEngine))
    = Fin d /\ 0 <= d <= 1.
Proof.
  exact (conj stored_ids_callA_callB
           (proj1 density_at_most_one demoHash [callA; callB]
              stored_ids_callA_callB)).
Defined.

(** ** Traversing a wormhole *)

Lemma split_lines_nonempty (s : string) : split_lines s <> [].
Proof.
  induction s as [|c s IH]; simpl; [discriminate|].
  destruct (Ascii.eqb c newline); [discriminate|].
  destruct (split_lines s); [contradiction | discriminate].
Qed.

Lemma join_split_lines (s : string) : join_lines (split_lines s) = s.
Proof.
  induction s as [|c s IH]; [reflexivity|]. simpl.
  destruct (Ascii.eqb c newline) eqn:E.
  - apply Ascii.eqb_eq in E. subst c.
    cbn [join_lines]. destruct (split_lines s) eqn:Es;
      [now destruct (split_lines_nonempty s)|].
    rewrite IH. reflexivity.
  - destruct (split_lines s) as [|line lines] eqn:Es;
      [now destruct (split_lines_nonempty s)|].
    rewrite <- IH. destruct lines; reflexivity.
Qed.

Lemma split_lines_one_line (s : string) : Forall one_line (split_lines s).
Proof.
  induction s as [|c s IH]; simpl; [repeat constructor|].
  destruct (Ascii.eqb c newline) eqn:E; [constructor; [reflexivity | exact IH]|].
  destruct (split_lines s) as [|line lines]; [repeat constructor; unfold one_line; simpl; now rewrite E|].
  inversion IH as [|? ? Hline Hlines]; subst.
  constructor; [|exact Hlines].
  unfold one_line in *. simpl. now rewrite E, Hline.
Qed.

Lemma split_lines_app (a b : string) :
  one_line a ->
  split_lines (a ++ String newline b)%string = a :: split_lines b.
Proof.
  unfold one_line. induction a as [|c a IH]; intros Ha.
  - reflexivity.
  - simpl in Ha |- *. destruct (Ascii.eqb c newline); [discriminate|].
    destruct (split_lines a) as [|line lines] eqn:Ea;
      [now destruct (split_lines_nonempty a)|].
    injection Ha as -> ->. now rewrite IH.
Qed.

Lemma split_join_lines (lines : list string) :
  lines <> [] -> Forall one_line lines ->
  split_lines (join_lines lines) = lines.
Proof.
  induction lines as [|line lines IH]; intros Hne Hall; [congruence|].
  inversion Hall as [|? ? Hline Hlines]; subst.
  destruct lines as [|line' lines]; [exact Hline|].
  change (join_lines (line :: line' :: lines))
    with (line ++ String newline (join_lines (line' :: lines)))%string.
  rewrite split_lines_app by assumption. f_equal. now apply IH.
Qed.

Lemma line_at_one_line (lines : list string) (i : nat) :
  Forall one_line lines -> one_line (line_at lines i).
Proof.
  intros H. unfold line_at. revert i.
  induction H as [|line lines Hline H IH]; intros [|i]; simpl;
    try reflexivity; [exact Hline | apply IH].
Qed.

Lemma traverse_loop (choose : nat -> string) (l : list nat) (acc : list string)
  (pick : nat -> bool) (a b : nat -> string) :
  (forall i, choose i = if pick i then a i else b i) ->
  fold_left
    (fun transformedLines i =>
       if pick i then transformedLines ++ [a i] else transformedLines ++ [b i])
    l acc
  = acc ++ map choose l.
Proof.
  intros Hc. revert acc. induction l as [|i l IH]; intros acc; simpl.
  - now rewrite app_nil_r.
  - rewrite Hc. destruct (pick i); rewrite IH, <- app_assoc; reflexivity.
Qed.

Lemma transformedCode_lines (random : nat -> number) (connection : WormholeConnection) :
  let fromLines := split_lines (code (from connection)) in
  let toLines := split_lines (code (to connection)) in
  transformedCode (traverseWormhole random connection)
  = join_lines
      (map (fun i => if js_lt (random i) (similarity connection)
                     then line_at toLines i else line_at fromLines i)
         (seq 0 (Nat.max (List.length fromLines) (List.length toLines)))).
Proof.
  cbv zeta. unfold traverseWormhole. cbn [transformedCode]. f_equal.
  now rewrite (traverse_loop
                 (fun i => if js_lt (random i) (similarity connection)
                           then line_at (split_lines (code (to connection))) i
                           else line_at (split_lines (code (from connection))) i)).
Qed.

Lemma map_line_at_all (lines : list string) :
  map (line_at lines) (seq 0 (List.length lines)) = lines.
Proof.
  unfold line_at. induction lines as [|line lines IH]; [reflexivity|].
  simpl. f_equal. rewrite <- seq_shift, map_map. exact IH.
Qed.

(** X21. Whatever [Math.random] yields, [traverseWormhole] blends line by
    line: the transformed code has as many lines as the longer of the two
    codes, and each of its lines is the line at the same position of the
    source code or of the target code (the empty line where a code is
    shorter).  The cost is the connection's energy and the time its
    distance over its stability. *)
Theorem traverseWormhole_blend :
  forall (random : nat -> number) (connection : WormholeConnection),
    let fromLines := split_lines (code (from connection)) in
    let toLines := split_lines (code (to connection)) in
    let n := Nat.max (List.length fromLines) (List.length toLines) in
    let out := traverseWormhole random connection in
    energyCost out = energy connection /\
    traversalTime out = div (distance connection) (stability connection) /\
    List.length (split_lines (transformedCode out)) = n /\
    (forall i, (i < n)%nat ->
               line_at (split_lines (transformedCode out)) i = line_at fromLines i \/
               line_at (split_lines (transformedCode out)) i = line_at toLines i).
Proof.
  intros random connection fromLines toLines n out.
  split; [reflexivity|]. split; [reflexivity|].
  subst out. rewrite transformedCode_lines. fold fromLines toLines n.
  set (choose := fun i => if js_lt (random i) (similarity connection)
                          then line_at toLines i else line_at fromLines i).
  assert (Hn : (0 < n)%nat).
  { subst n fromLines. pose proof (split_lines_nonempty (code (from connection))).
    destruct (split_lines (code (from connection)));
      [congruence | cbn [List.length]; lia]. }
  rewrite split_join_lines.
  - split; [now rewrite length_map, length_seq|].
    intros i Hi. unfold line_at at 1 3.
    rewrite (nth_indep _ EmptyString (choose 0%nat))
      by (now rewrite length_map, length_seq).
    rewrite map_nth, seq_nth by assumption. cbn [Nat.add].
    unfold choose. destruct (js_lt _ _); [now right | now left].
  - destruct n; [lia | discriminate].
  - apply Forall_forall. intros line Hline.
    apply in_map_iff in Hline as (i & <- & _). unfold choose.
    destruct (js_lt _ _); apply line_at_one_line, split_lines_one_line.
Qed.

Lemma traverseWormhole_blend_witness :
  (0 < 1)%nat /\
  (line_at
     (split_lines
        (transformedCode
           (traverseWormhole (fun _ => Fin 0.5) (connect soulB soulA)))) 0
   = line_at (split_lines (code soulB)) 0 \/
   line_at
     (split_lines
        (transformedCode
           (traverseWormhole (fun _ => Fin 0.5) (connect soulB soulA)))) 0
   = line_at (split_lines (code soulA)) 0).
Proof.
  exact (conj Nat.lt_0_1
           (proj2 (proj2 (proj2
              (traverseWormhole_blend (fun _ => Fin 0.5) (connect soulB soulA))))
              0%nat Nat.lt_0_1)).
Defined.

(** X22. With random values in [[0, 1)], as [Math.random] yields them, the
    two ends of the blend are exact: a connection of similarity 1 or more
    is traversed to the target code itself when the target has at least
    as many lines as the source, and a connection of similarity 0 or less,
    or [NaN], gives back the source code when the source has at least as
    many lines as the target. *)
Theorem traverseWormhole_ends :
  forall (random : nat -> number) (connection : WormholeConnection),
    (forall i, exists r, random i = Fin r /\ 0 <= r < 1) ->
    let fromLines := split_lines (code (from connection)) in
    let toLines := split_lines (code (to connection)) in
    let out := traverseWormhole random connection in
    (ge (similarity connection) (Fin 1) = true ->
     (List.length fromLines <= List.length toLines)%nat ->
     transformedCode out = code (to connection)) /\
    (ge (Fin 0) (similarity connection) = true \/ similarity connection = NaN ->
     (List.length toLines <= List.length fromLines)%nat ->
     transformedCode out = code (from connection)).
Proof.
  intros random connection Hrand fromLines toLines out. subst out.
  rewrite transformedCode_lines. fold fromLines toLines. split.
  - intros Hs Hlen. rewrite Nat.max_r by assumption.
    rewrite (map_ext _ (line_at toLines)).
    + subst toLines. now rewrite map_line_at_all, join_split_lines.
    + intros i. destruct (Hrand i) as (r & -> & Hr). unfold js_lt.
      destruct (similarity connection) as [s| | |]; simpl in Hs |- *;
        try discriminate; try reflexivity.
      apply negb_true_iff in Hs. unfold Rltb in *.
      destruct (Rlt_dec s 1); [discriminate|].
      destruct (Rlt_dec r s); [reflexivity | lra].
  - intros Hs Hlen. rewrite Nat.max_l by assumption.
    rewrite (map_ext _ (line_at fromLines)).
    + subst fromLines. now rewrite map_line_at_all, join_split_lines.
    + intros i. destruct (Hrand i) as (r & -> & Hr). unfold js_lt.
      destruct Hs as [Hs| ->]; [|reflexivity].
      destruct (similarity connection) as [s| | |]; simpl in Hs |- *;
        try discriminate; try reflexivity.
      apply negb_true_iff in Hs. unfold Rltb in *.
      destruct (Rlt_dec 0 s); [discriminate|].
      destruct (Rlt_dec r s); [lra | reflexivity].
Qed.

Lemma half_is_random : forall i : nat, exists r, Fin 0.5 = Fin r /\ 0 <= r < 1.
Proof. intros _. exists 0.5. split; [reflexivity | lra]. Qed.

Lemma similarity_connect_B_A : similarity (connect soulB soulA) = Fin 1.
Proof. exact cosineSimilarity_unit1. Qed.

Lemma similarity_connect_Z_A : similarity (connect soulZ soulA) = Fin 0.
Proof. exact (cosineSimilarity_zeros10 unit1). Qed.

Lemma traverseWormhole_ends_witness :
  (forall i : nat, exists r, Fin 0.5 = Fin r /\ 0 <= r < 1) /\
  ge (similarity (connect soulB soulA)) (Fin 1) = true /\
  transformedCode (traverseWormhole (fun _ => Fin 0.5) (connect soulB soulA))
  = code soulA /\
  (ge (Fin 0) (similarity (connect soulZ soulA)) = true \/
   similarity (connect soulZ soulA) = NaN) /\
  transformedCode (traverseWormhole (fun _ => Fin 0.5) (connect soulZ soulA))
  = code soulZ.
Proof.
  assert (H1 : ge (similarity (connect soulB soulA)) (Fin 1) = true).
  { rewrite similarity_connect_B_A. simpl. rewrite Rltb_false; [reflexivity | lra]. }
  assert (H0 : ge (Fin 0) (similarity (connect soulZ soulA)) = true \/
               similarity (connect soulZ soulA) = NaN).
  { left. rewrite similarity_connect_Z_A. simpl.
    rewrite Rltb_false; [reflexivity | lra]. }
  exact (conj half_is_random
           (conj H1
              (conj (proj1 (traverseWormhole_ends (fun _ => Fin 0.5)
                              (connect soulB soulA) half_is_random)
                       H1 (le_n 1))
                 (conj H0
                    (proj2 (traverseWormhole_ends (fun _ => Fin 0.5)
                              (connect soulZ soulA) half_is_random)
                       H0 (le_n 1)))))).
Defined.

(** ** Inserting, then asking for the neighbours *)

Lemma In_firstn_In {A} (n : nat) (l : list A) (x : A) :
  In x (firstn n l) -> In x l.
Proof.
  intros H. rewrite <- (firstn_skipn n l). apply in_or_app. now left.
Qed.

(** X23. Right after a returning call of [addCodeSoul], the neighbours of
    the new soul are the connections admitted by this insertion: asked
    without limit, [getNearestNeighbors] returns all of them; whatever the
    limit, each neighbour starts at the new soul, has a similarity above
    0.7 and ends at an item of the corpus stored under another
    identifier.  The neighbours of every other identifier are what they
    were before the call. *)
Theorem neighbours_after_insert :
  forall (computeHash : string -> Error + ProteinHashResult)
         (now : Z) (code : string) (id0 source : option string)
         (this this' : WormholeEngine) (soul : CodeSoul),
    addCodeSoul computeHash now code id0 source this = (this', inr soul) ->
    Permutation (getNearestNeighbors this' (id soul) (Some PInf))
      (admitted_spec soul (souls this')) /\
    (forall k c,
        In c (getNearestNeighbors this' (id soul) k) ->
        from c = soul /\ gt (similarity c) (Fin 0.7) = true /\
        exists key, In (key, to c) (souls this') /\ key <> id soul) /\
    (forall soulId k,
        soulId <> id soul ->
        getNearestNeighbors this' soulId k = getNearestNeighbors this soulId k).
Proof.
  intros computeHash now code id0 source this this' soul Hrun.
  apply addCodeSoul_returns in Hrun as (result & _ & _ & ->).
  split; [|split].
  - unfold getNearestNeighbors, stored. cbn [connections souls].
    rewrite Map_get_set_same. unfold Array_slice0. cbn [slice_count].
    rewrite firstn_all. apply Permutation_sym, Array_sort_perm.
  - intros k c Hc. unfold getNearestNeighbors, stored in Hc.
    cbn [connections] in Hc. rewrite Map_get_set_same in Hc.
    apply In_firstn_In in Hc.
    apply (Permutation_in _ (Permutation_sym (Array_sort_perm _ _))) in Hc.
    apply In_admitted_spec in Hc as (key & other & Hin & Hne & -> & Hs).
    split; [reflexivity|]. split; [exact Hs|]. now exists key.
  - intros soulId k Hne. unfold getNearestNeighbors.
    now rewrite stored_connections_other.
Qed.

Lemma neighbours_after_insert_witness :
  addCodeSoul demoHash 1 "b" (Some "x"%string) None engineA = (engineAB, inr soulB) /\
  In (connect soulB soulA) (getNearestNeighbors engineAB (id soulB) None) /\
  "ha"%string <> id soulB /\
  Permutation (getNearestNeighbors engineAB (id soulB) (Some PInf))
    (admitted_spec soulB (souls engineAB)) /\
  (from (connect soulB soulA) = soulB /\
   gt (similarity (connect soulB soulA)) (Fin 0.7) = true /\
   exists key, In (key, to (connect soulB soulA)) (souls engineAB) /\
               key <> id soulB) /\
  getNearestNeighbors engineAB "ha" None = getNearestNeighbors engineA "ha" None.
Proof.
  destruct (neighbours_after_insert demoHash 1 "b" (Some "x"%string) None
              engineA engineAB soulB addCodeSoul_engineA_b)
    as (Hall & Hnew & Hold).
  assert (Hin : In (connect soulB soulA)
                  (getNearestNeighbors engineAB (id soulB) None))
    by (rewrite getNearestNeighbors_default; left; reflexivity).
  assert (Hne : "ha"%string <> id soulB) by discriminate.
  exact (conj addCodeSoul_engineA_b
           (conj Hin
              (conj Hne
                 (conj Hall
                    (conj (Hnew None _ Hin) (Hold "ha"%string None Hne)))))).
Defined.

(** X24. In every engine that calls of [addCodeSoul] can produce, looking
    an identifier up in the corpus gives a soul that carries this
    identifier, and the corpus holds an item under an identifier exactly
    when the index holds a connection list under it. *)
Theorem lookup_consistent :
  forall (computeHash : string -> Error + ProteinHashResult)
         (this : WormholeEngine),
    reachable computeHash this ->
    forall k,
      (forall s, Map_get k (souls this) = Some s -> id s = k) /\
      (Map_get k (souls this) = None <-> Map_get k (connections this) = None).
Proof.
  intros computeHash this Hr k.
  destruct (reachable_inv computeHash this Hr) as (Hkeyed & _ & Hsame & _).
  split; [intros s Hs; apply Hkeyed; now apply Map_get_In|].
  unfold same_keys in Hsame. split; intros H.
  - apply Map_get_not_key. rewrite <- Hsame. now apply Map_get_None.
  - apply Map_get_not_key. rewrite Hsame. now apply Map_get_None.
Qed.

Lemma lookup_consistent_witness :
  reachable demoHash engineAB /\
  Map_get "x" (souls engineAB) = Some soulB /\
  id soulB = "x"%string /\
  (Map_get "nobody" (souls engineAB) = None <->
   Map_get "nobody" (connections engineAB) = None).
Proof.
  destruct (lookup_consistent demoHash engineAB reachable_engineAB "x"%string)
    as [Hid _].
  destruct (lookup_consistent demoHash engineAB reachable_engineAB
              "nobody"%string) as [_ Hnone].
  exact (conj reachable_engineAB (conj eq_refl (conj (Hid soulB eq_refl) Hnone))).
Defined.

(** * Stability in double precision *)

Module DoubleFacts.
Import Double.

Lemma ln2_pos : 0 < ln 2.
Proof. pose proof ln_lt_2. lra. Qed.

Lemma ln2_le_1 : ln 2 <= 1.
Proof.
  pose proof (exp_ineq1_le 1) as H.
  destruct (Rle_dec (ln 2) 1) as [|Hn]; [assumption|]. exfalso.
  assert (Hlt : exp 1 < exp (ln 2)) by (apply exp_increasing; lra).
  rewrite exp_ln in Hlt by lra. lra.
Qed.

Lemma pow2_pos (e : Z) : 0 < pow2 e.
Proof. apply exp_pos. Qed.

Lemma pow2_add (a b : Z) : pow2 (a + b) = pow2 a * pow2 b.
Proof. unfold pow2. rewrite plus_IZR, Rmult_plus_distr_r. apply exp_plus. Qed.

Lemma pow2_0 : pow2 0 = 1.
Proof. unfold pow2. rewrite Rmult_0_l. apply exp_0. Qed.

Lemma pow2_1 : pow2 1 = 2.
Proof. unfold pow2. rewrite Rmult_1_l. apply exp_ln. lra. Qed.

Lemma pow2_opp (e : Z) : pow2 (- e) = / pow2 e.
Proof.
  unfold pow2. rewrite opp_IZR, <- exp_Ropp. f_equal. ring.
Qed.

Lemma pow2_le (a b : Z) : (a <= b)%Z -> pow2 a <= pow2 b.
Proof.
  intros H. unfold pow2. apply exp_le_iff.
  apply Rmult_le_compat_r; [apply Rlt_le, ln2_pos | now apply IZR_le].
Qed.

Lemma pow2_lt (a b : Z) : (a < b)%Z -> pow2 a < pow2 b.
Proof.
  intros H. unfold pow2. apply exp_increasing.
  apply Rmult_lt_compat_r; [apply ln2_pos | now apply IZR_lt].
Qed.

Lemma pow2_nat (n : nat) : pow2 (Z.of_nat n) = IZR (2 ^ Z.of_nat n).
Proof.
  induction n as [|n IH]; [cbn [Z.of_nat]; rewrite pow2_0; reflexivity|].
  rewrite Nat2Z.inj_succ. unfold Z.succ.
  rewrite pow2_add, IH, pow2_1, Z.pow_add_r, mult_IZR by lia.
  rewrite Z.pow_1_r. ring.
Qed.

(** the binade of a positive real *)
Lemma Int_part_log2 (x : R) :
  0 < x ->
  pow2 (Int_part (ln x / ln 2)) <= x < pow2 (Int_part (ln x / ln 2) + 1).
Proof.
  intros Hx. pose proof ln2_pos as H2.
  destruct (base_Int_part (ln x / ln 2)) as [Hlo Hhi].
  set (e := Int_part (ln x / ln 2)) in *.
  assert (Hq : ln x / ln 2 * ln 2 = ln x) by (field; lra).
  unfold pow2. split.
  - rewrite <- (exp_ln x Hx) at 1. apply exp_le_iff. rewrite <- Hq.
    apply Rmult_le_compat_r; lra.
  - rewrite <- (exp_ln x Hx) at 1. apply exp_increasing.
    rewrite <- Hq, plus_IZR. apply Rmult_lt_compat_r; lra.
Qed.

Lemma Int_part_le (x y : R) : x <= y -> (Int_part x <= Int_part y)%Z.
Proof.
  intros H. destruct (base_Int_part x) as [Hx _].
  destruct (base_Int_part y) as [_ Hy].
  assert (IZR (Int_part x) < IZR (Int_part y + 1)) by (rewrite plus_IZR; lra).
  apply lt_IZR in H0. lia.
Qed.

Lemma Int_part_IZR (z : Z) : Int_part (IZR z) = z.
Proof. symmetry. apply Int_part_spec. lra. Qed.

Lemma Int_part_log2_is (x : R) (k : Z) :
  pow2 k <= x < pow2 (k + 1) -> Int_part (ln x / ln 2) = k.
Proof.
  intros [Hlo Hhi]. pose proof ln2_pos as H2.
  assert (Hx : 0 < x) by (pose proof (pow2_pos k); lra).
  symmetry. apply Int_part_spec.
  assert (Hq : ln x / ln 2 * ln 2 = ln x) by (field; lra).
  rewrite <- (exp_ln x Hx) in Hlo, Hhi. unfold pow2 in Hlo, Hhi.
  apply (proj1 (exp_le_iff _ _)) in Hlo.
  assert (Hhi' : ln x < IZR (k + 1) * ln 2).
  { destruct (Rlt_dec (ln x) (IZR (k + 1) * ln 2)) as [|Hn]; [assumption|].
    exfalso. apply Rnot_lt_le in Hn. apply (proj2 (exp_le_iff _ _)) in Hn. lra. }
  rewrite plus_IZR, Rmult_plus_distr_r, Rmult_1_l in Hhi'. split.
  - apply Rmult_lt_reg_r with (ln 2); [exact H2|]. rewrite Rmult_minus_distr_r, Hq. lra.
  - apply Rmult_le_reg_r with (ln 2); [exact H2|]. rewrite Hq. lra.
Qed.

(** *** Rounding to the nearest integer *)

Lemma nearest_even_cases (m : R) :
  nearest_even m = Int_part m \/ nearest_even m = (Int_part m + 1)%Z.
Proof.
  unfold nearest_even.
  destruct (Rltb _ _); [now left|]. destruct (Rltb _ _); [now right|].
  destruct (Z.even _); [now left | now right].
Qed.

Lemma nearest_even_IZR (z : Z) : nearest_even (IZR z) = z.
Proof.
  unfold nearest_even. rewrite Int_part_IZR.
  rewrite Rltb_true; [reflexivity | lra].
Qed.

Lemma nearest_even_le (m1 m2 : R) :
  m1 <= m2 -> (nearest_even m1 <= nearest_even m2)%Z.
Proof.
  intros H. pose proof (Int_part_le m1 m2 H) as Hf.
  destruct (Z.eq_dec (Int_part m1) (Int_part m2)) as [E|E].
  - unfold nearest_even. rewrite E. set (f := Int_part m2).
    unfold Rltb.
    destruct (Rlt_dec (m1 - IZR f) (/ 2)); destruct (Rlt_dec (m2 - IZR f) (/ 2));
      try lia; try lra;
      destruct (Rlt_dec (/ 2) (m1 - IZR f)); destruct (Rlt_dec (/ 2) (m2 - IZR f));
      try lia; try lra; destruct (Z.even f); lia.
  - destruct (nearest_even_cases m1) as [-> | ->];
      destruct (nearest_even_cases m2) as [-> | ->]; lia.
Qed.

(** *** Rounding a positive real *)

Lemma exponent_le (x y : R) : 0 < x -> x <= y -> (exponent x <= exponent y)%Z.
Proof.
  intros Hx Hxy. unfold exponent. apply Z.max_le_compat_r, Int_part_le.
  pose proof ln2_pos as H2.
  assert (Hln : ln x <= ln y).
  { destruct Hxy as [Hlt| ->]; [|lra]. apply Rlt_le, ln_increasing; assumption. }
  unfold Rdiv. apply Rmult_le_compat_r; [|exact Hln].
  apply Rlt_le, Rinv_0_lt_compat, H2.
Qed.

Lemma exponent_above (x : R) : 0 < x -> x < pow2 (exponent x + 1).
Proof.
  intros Hx. destruct (Int_part_log2 x Hx) as [_ H].
  eapply Rlt_le_trans; [exact H|]. apply pow2_le. unfold exponent. lia.
Qed.

Lemma exponent_below (x : R) :
  0 < x -> (- 1022 <= Int_part (ln x / ln 2))%Z -> pow2 (exponent x) <= x.
Proof.
  intros Hx Hn. destruct (Int_part_log2 x Hx) as [H _].
  unfold exponent. now rewrite Z.max_l by assumption.
Qed.

Lemma pow2_split (e : Z) (n : nat) :
  pow2 e = IZR (2 ^ Z.of_nat n) * pow2 (e - Z.of_nat n).
Proof.
  rewrite <- pow2_nat, <- pow2_add. f_equal. lia.
Qed.

Lemma round_pos_nonneg (x : R) : 0 < x -> 0 <= round_pos x.
Proof.
  intros Hx. unfold round_pos.
  pose proof (pow2_pos (exponent x - 52)) as Hu.
  apply Rmult_le_pos; [|lra].
  apply IZR_le. rewrite <- (nearest_even_IZR 0). apply nearest_even_le.
  apply Rlt_le, Rdiv_lt_0_compat; assumption.
Qed.

Lemma round_pos_above (x : R) : 0 < x -> round_pos x <= pow2 (exponent x + 1).
Proof.
  intros Hx. unfold round_pos.
  pose proof (pow2_pos (exponent x - 52)) as Hu.
  pose proof (exponent_above x Hx) as Hlt.
  rewrite (pow2_split (exponent x + 1) 53) in Hlt |- *.
  replace (exponent x + 1 - Z.of_nat 53)%Z with (exponent x - 52)%Z in * by lia.
  set (u := pow2 (exponent x - 52)) in *.
  apply Rmult_le_compat_r; [lra|]. apply IZR_le.
  rewrite <- (nearest_even_IZR (2 ^ Z.of_nat 53)). apply nearest_even_le.
  apply Rlt_le. apply Rmult_lt_reg_r with u; [exact Hu|].
  unfold Rdiv. rewrite Rmult_assoc, Rinv_l by lra. lra.
Qed.

Lemma round_pos_below (x : R) :
  0 < x -> (- 1022 <= Int_part (ln x / ln 2))%Z ->
  pow2 (exponent x) <= round_pos x.
Proof.
  intros Hx Hn. unfold round_pos.
  pose proof (pow2_pos (exponent x - 52)) as Hu.
  pose proof (exponent_below x Hx Hn) as Hle.
  rewrite (pow2_split (exponent x) 52) in Hle |- *.
  change (Z.of_nat 52) with 52%Z in *.
  set (u := pow2 (exponent x - 52)) in *.
  apply Rmult_le_compat_r; [lra|]. apply IZR_le.
  rewrite <- (nearest_even_IZR (2 ^ 52)) at 1. apply nearest_even_le.
  apply Rmult_le_reg_r with u; [exact Hu|].
  unfold Rdiv. rewrite Rmult_assoc, Rinv_l by lra. lra.
Qed.

Lemma round_pos_le (x y : R) : 0 < x -> x <= y -> round_pos x <= round_pos y.
Proof.
  intros Hx Hxy. assert (Hy : 0 < y) by lra.
  pose proof (exponent_le x y Hx Hxy) as HE.
  destruct (Z.eq_dec (exponent x) (exponent y)) as [E|E].
  - unfold round_pos. rewrite E.
    pose proof (pow2_pos (exponent y - 52)) as Hu.
    apply Rmult_le_compat_r; [lra|]. apply IZR_le, nearest_even_le.
    unfold Rdiv. apply Rmult_le_compat_r; [|exact Hxy].
    apply Rlt_le, Rinv_0_lt_compat, Hu.
  - assert (Hn : (- 1022 <= Int_part (ln y / ln 2))%Z)
      by (unfold exponent in *; lia).
    eapply Rle_trans; [apply round_pos_above, Hx|].
    eapply Rle_trans; [|apply round_pos_below; assumption].
    apply pow2_le. lia.
Qed.

Lemma exponent_pow2 (k : Z) : (- 1022 <= k)%Z -> exponent (pow2 k) = k.
Proof.
  intros Hk. unfold exponent.
  rewrite (Int_part_log2_is (pow2 k) k); [lia|].
  split; [lra | apply pow2_lt; lia].
Qed.

Lemma round_pos_pow2 (k : Z) : (- 1022 <= k)%Z -> round_pos (pow2 k) = pow2 k.
Proof.
  intros Hk. unfold round_pos. rewrite exponent_pow2 by assumption.
  pose proof (pow2_pos (k - 52)) as Hu.
  rewrite (pow2_split k 52) at 1. change (Z.of_nat 52) with 52%Z.
  replace (IZR (2 ^ 52) * pow2 (k - 52) / pow2 (k - 52)) with (IZR (2 ^ 52))
    by (field; lra).
  rewrite nearest_even_IZR. symmetry. apply (pow2_split k 52).
Qed.

(** *** Rounding a real *)

Lemma round64_0 : round64 0 = 0.
Proof. unfold round64. now rewrite !Rltb_false by lra. Qed.

Lemma round64_pos (x : R) : 0 < x -> round64 x = round_pos x.
Proof. intros H. unfold round64. now rewrite Rltb_true. Qed.

Lemma round64_neg (x : R) : x < 0 -> round64 x = - round_pos (- x).
Proof.
  intros H. unfold round64. rewrite Rltb_false by lra. now rewrite Rltb_true.
Qed.

Lemma round64_le (x y : R) : x <= y -> round64 x <= round64 y.
Proof.
  intros H.
  destruct (Rlt_dec 0 x) as [Hx|Hx].
  - rewrite !round64_pos by lra. now apply round_pos_le.
  - destruct (Rlt_dec x 0) as [Hx'|Hx'].
    + rewrite (round64_neg x) by assumption.
      pose proof (round_pos_nonneg (- x)) as Hnx.
      destruct (Rlt_dec 0 y) as [Hy|Hy].
      * rewrite round64_pos by assumption.
        pose proof (round_pos_nonneg y Hy). lra.
      * destruct (Rlt_dec y 0) as [Hy'|Hy'].
        -- rewrite round64_neg by assumption.
           assert (round_pos (- y) <= round_pos (- x))
             by (apply round_pos_le; lra).
           lra.
        -- assert (y = 0) by lra. subst y. rewrite round64_0. lra.
    + assert (x = 0) by lra. subst x. rewrite round64_0.
      destruct H as [Hy| <-]; [|rewrite round64_0; lra].
      rewrite round64_pos by assumption. now apply round_pos_nonneg.
Qed.

Lemma round64_pow2 (k : Z) : (- 1022 <= k)%Z -> round64 (pow2 k) = pow2 k.
Proof.
  intros Hk. rewrite round64_pos by apply pow2_pos. now apply round_pos_pow2.
Qed.

Lemma round64_opp_pow2 (k : Z) :
  (- 1022 <= k)%Z -> round64 (- pow2 k) = - pow2 k.
Proof.
  intros Hk. pose proof (pow2_pos k).
  rewrite round64_neg by lra. rewrite Ropp_involutive.
  now rewrite round_pos_pow2.
Qed.

(** *** Rounding a number *)

Lemma num_le_not_NaN (a b : number) : num_le a b -> a <> NaN /\ b <> NaN.
Proof. destruct a, b; simpl; intros H; try contradiction; split; discriminate. Qed.

Lemma num_le_ge (a b : number) : num_le a b -> le a b = true.
Proof.
  unfold le. destruct a, b; simpl; intros H; try contradiction; try reflexivity.
  apply negb_true_iff, Rltb_false. lra.
Qed.

Lemma rnd_not_NaN (a : number) : a <> NaN -> rnd a <> NaN.
Proof.
  destruct a as [x| | |]; simpl; try congruence. intros _.
  destruct (Rltb _ _); [destruct (Rltb _ _)|]; discriminate.
Qed.

Lemma rnd_le (a b : number) : num_le a b -> num_le (rnd a) (rnd b).
Proof.
  intros H. pose proof (pow2_pos 1024) as HP.
  destruct a as [x| | |], b as [y| | |]; simpl in H; try contradiction.
  - apply round64_le in H. simpl. unfold Rltb.
    destruct (Rlt_dec (round64 x) (pow2 1024));
      destruct (Rlt_dec (round64 y) (pow2 1024));
      destruct (Rlt_dec (- pow2 1024) (round64 x));
      destruct (Rlt_dec (- pow2 1024) (round64 y)); simpl; try exact I; lra.
  - simpl. destruct (Rltb _ _); [destruct (Rltb _ _)|]; exact I.
  - exact I.
  - simpl. destruct (Rltb _ _); [destruct (Rltb _ _)|]; exact I.
  - exact I.
  - exact I.
Qed.

Lemma rnd_Fin (x : R) :
  - pow2 1024 < round64 x < pow2 1024 -> rnd (Fin x) = Fin (round64 x).
Proof. intros [H1 H2]. simpl. now rewrite !Rltb_true. Qed.

Lemma rnd_0 : rnd (Fin 0) = Fin 0.
Proof.
  pose proof (pow2_pos 1024). rewrite rnd_Fin; rewrite round64_0;
    [reflexivity | lra].
Qed.

Lemma rnd_pow2 (k : Z) :
  (- 1022 <= k < 1024)%Z -> rnd (Fin (pow2 k)) = Fin (pow2 k).
Proof.
  intros Hk. pose proof (pow2_pos k).
  assert (pow2 k < pow2 1024) by (apply pow2_lt; lia).
  rewrite rnd_Fin; rewrite round64_pow2 by lia; [reflexivity | lra].
Qed.

Lemma rnd_1 : rnd (Fin 1) = Fin 1.
Proof. rewrite <- pow2_0. now apply rnd_pow2. Qed.

(** a real between two powers of two rounds between them *)
Lemma round64_between (x : R) (lo hi : Z) :
  (- 1022 <= lo)%Z -> (- 1022 <= hi)%Z ->
  pow2 lo <= x <= pow2 hi -> pow2 lo <= round64 x <= pow2 hi.
Proof.
  intros Hlo Hhi [H1 H2]. split.
  - rewrite <- (round64_pow2 lo) by assumption. now apply round64_le.
  - rewrite <- (round64_pow2 hi) by assumption. now apply round64_le.
Qed.

Lemma round64_between_neg (x : R) (lo hi : Z) :
  (- 1022 <= lo)%Z -> (- 1022 <= hi)%Z ->
  - pow2 hi <= x <= - pow2 lo -> - pow2 hi <= round64 x <= - pow2 lo.
Proof.
  intros Hlo Hhi [H1 H2]. split.
  - rewrite <- (round64_opp_pow2 hi) by assumption. now apply round64_le.
  - rewrite <- (round64_opp_pow2 lo) by assumption. now apply round64_le.
Qed.

Lemma pow2_half : pow2 (- 1) = / 2.
Proof.
  change (pow2 (- 1)) with (pow2 (- (1))). now rewrite pow2_opp, pow2_1.
Qed.

(** the double read for the literal 0.8 *)
Lemma rnd_0_8 : exists c, rnd (Fin 0.8) = Fin c /\ / 2 <= c <= 1.
Proof.
  assert (H : pow2 (- 1) <= round64 0.8 <= pow2 0).
  { apply round64_between; try lia.
    rewrite pow2_half, pow2_0. lra. }
  rewrite pow2_half, pow2_0 in H.
  assert (HP : pow2 0 < pow2 1024) by (apply pow2_lt; lia).
  rewrite pow2_0 in HP.
  exists (round64 0.8). split; [|exact H].
  apply rnd_Fin. lra.
Qed.

Lemma pow2_Z (k : Z) : (0 <= k)%Z -> pow2 k = IZR (2 ^ k).
Proof. intros Hk. rewrite <- (Z2Nat.id k Hk). apply pow2_nat. Qed.

(** *** The steps of the stability, in the order of the numbers *)

Lemma sub_le (x y c : R) :
  x <= y -> num_le (JS.sub (Fin x) (Fin c)) (JS.sub (Fin y) (Fin c)).
Proof. intros H. simpl. lra. Qed.

Lemma mul_neg10_le (a b : number) :
  num_le a b ->
  num_le (JS.mul (neg (Fin 10)) b) (JS.mul (neg (Fin 10)) a).
Proof.
  destruct a as [x| | |], b as [y| | |]; simpl; intros H; try contradiction;
    unfold signed_inf; rewrite ?Reqb_false by lra; rewrite ?Rltb_false by lra;
    simpl; try exact I; lra.
Qed.

Lemma Math_exp_le (a b : number) :
  num_le a b -> num_le (JS.Math_exp a) (JS.Math_exp b).
Proof.
  destruct a as [x| | |], b as [y| | |]; simpl; intros H; try contradiction;
    try exact I.
  - now apply exp_le_iff.
  - apply Rlt_le, exp_pos.
  - lra.
Qed.

Lemma Math_exp_nonneg (a : number) : a <> NaN -> num_le (Fin 0) (JS.Math_exp a).
Proof.
  destruct a as [x| | |]; simpl; intros H; try congruence; try exact I.
  - apply Rlt_le, exp_pos.
  - lra.
Qed.

Lemma add_1_le (a b : number) :
  num_le a b -> num_le (JS.add (Fin 1) a) (JS.add (Fin 1) b).
Proof.
  destruct a as [x| | |], b as [y| | |]; simpl; intros H; try contradiction;
    try exact I. lra.
Qed.

Lemma add_1_above (a : number) :
  num_le (Fin 0) a -> num_le (Fin 1) (JS.add (Fin 1) a).
Proof.
  destruct a as [x| | |]; simpl; intros H; try contradiction; try exact I. lra.
Qed.

Lemma div_1_le (a b : number) :
  num_le (Fin 1) a -> num_le a b ->
  num_le (JS.div (Fin 1) b) (JS.div (Fin 1) a).
Proof.
  destruct a as [x| | |], b as [y| | |]; simpl; intros H1 H; try contradiction;
    rewrite ?Reqb_false by lra; simpl; try lra.
  - unfold Rdiv. rewrite !Rmult_1_l. apply Rinv_le_contravar; lra.
  - unfold Rdiv. rewrite Rmult_1_l. apply Rlt_le, Rinv_0_lt_compat. lra.
Qed.

Section Steps.

Variable c : R.
Hypothesis Hc : rnd (Fin 0.8) = Fin c.

(** the four intermediate values of [Double.wormholeStability] *)
Let difference (x : R) : number := Double.sub (Fin x) (Fin c).
Let exponent_arg (x : R) : number := Double.mul (neg (Fin 10)) (difference x).
Let exponential (x : R) : number := Double.Math_exp (exponent_arg x).
Let denominator (x : R) : number := Double.add (Fin 1) (exponential x).

Lemma stability_steps (x : R) :
  Double.wormholeStability (Fin x) = Double.div (Fin 1) (denominator x).
Proof. unfold Double.wormholeStability. now rewrite Hc. Qed.

Lemma difference_le (x y : R) :
  x <= y -> num_le (difference x) (difference y).
Proof. intros H. apply rnd_le, sub_le, H. Qed.

Lemma exponent_arg_le (x y : R) :
  x <= y -> num_le (exponent_arg y) (exponent_arg x).
Proof. intros H. apply rnd_le, mul_neg10_le, difference_le, H. Qed.

Lemma exponential_le (x y : R) :
  x <= y -> num_le (exponential y) (exponential x).
Proof. intros H. apply rnd_le, Math_exp_le, exponent_arg_le, H. Qed.

Lemma exponential_nonneg (x : R) : num_le (Fin 0) (exponential x).
Proof.
  rewrite <- rnd_0. apply rnd_le, Math_exp_nonneg.
  exact (proj1 (num_le_not_NaN _ _ (exponent_arg_le x x (Rle_refl x)))).
Qed.

Lemma denominator_le (x y : R) :
  x <= y -> num_le (denominator y) (denominator x).
Proof. intros H. apply rnd_le, add_1_le, exponential_le, H. Qed.

Lemma denominator_above (x : R) : num_le (Fin 1) (denominator x).
Proof. rewrite <- rnd_1. apply rnd_le, add_1_above, exponential_nonneg. Qed.

Lemma stability_le (x y : R) :
  x <= y ->
  num_le (Double.wormholeStability (Fin x)) (Double.wormholeStability (Fin y)).
Proof.
  intros H. rewrite !stability_steps.
  apply rnd_le, div_1_le; [apply denominator_above | apply denominator_le, H].
Qed.

Lemma stability_bounds (x : R) :
  num_le (Fin 0) (Double.wormholeStability (Fin x)) /\
  num_le (Double.wormholeStability (Fin x)) (Fin 1).
Proof.
  rewrite stability_steps. unfold Double.div.
  pose proof (denominator_above x) as Hd. split.
  - rewrite <- rnd_0. apply rnd_le.
    change (Fin 0) with (JS.div (Fin 1) PInf).
    apply div_1_le; [exact Hd|].
    destruct (denominator x); simpl in Hd |- *; tauto.
  - rewrite <- rnd_1 at 2. apply rnd_le.
    assert (E : JS.div (Fin 1) (Fin 1) = Fin 1).
    { simpl. rewrite Reqb_false by lra. f_equal. field. }
    rewrite <- E at 2. apply div_1_le; [simpl; lra | exact Hd].
Qed.

End Steps.

End DoubleFacts.

Module DoubleStability.
Import Double DoubleFacts.

(** the stability of the double 0.8 *)
Lemma stability_at_midpoint :
  Double.wormholeStability (rnd (Fin 0.8)) = Fin 0.5.
Proof.
  destruct rnd_0_8 as (c & Hc & _).
  unfold Double.wormholeStability. rewrite Hc.
  unfold Double.sub, Double.mul, Double.Math_exp, Double.add, Double.div.
  cbn [JS.sub neg JS.add].
  replace (c + - c) with 0 by lra. rewrite rnd_0.
  cbn [JS.mul]. replace (- (10) * 0) with 0 by lra. rewrite rnd_0.
  cbn [JS.Math_exp]. rewrite exp_0, rnd_1.
  cbn [JS.add]. replace (1 + 1) with (pow2 1) by (rewrite pow2_1; lra).
  rewrite rnd_pow2 by lia. rewrite pow2_1.
  cbn [JS.div]. rewrite Reqb_false by lra.
  replace (1 / 2) with (pow2 (- 1)) by (rewrite pow2_half; lra).
  rewrite rnd_pow2 by lia. rewrite pow2_half. f_equal. lra.
Qed.

Lemma exp_above_pow2 (v : R) (k : Z) :
  (0 <= k)%Z -> IZR k <= v -> pow2 k <= exp v.
Proof.
  intros Hk H. unfold pow2. apply exp_le_iff.
  pose proof ln2_le_1. pose proof ln2_pos.
  assert (Hk' : 0 <= IZR k) by (now apply IZR_le).
  apply Rle_trans with (IZR k * 1); [apply Rmult_le_compat_l; lra | lra].
Qed.

Lemma exp_below_pow2 (v : R) (k : Z) : (k <= 0)%Z -> v <= IZR k -> exp v <= pow2 k.
Proof.
  intros Hk H. unfold pow2. apply exp_le_iff.
  pose proof ln2_le_1. pose proof ln2_pos.
  assert (Hk' : IZR k <= 0) by (now apply IZR_le).
  apply Rle_trans with (IZR k); [exact H|].
  assert (0 <= (- IZR k) * (1 - ln 2)) by (apply Rmult_le_pos; lra).
  lra.
Qed.

(** Far below the midpoint the exponential overflows and the stability is
    exactly 0. *)
Lemma stability_far_below (x : R) :
  - 2000 <= x <= - 1000 -> Double.wormholeStability (Fin x) = Fin 0.
Proof.
  intros Hx. destruct rnd_0_8 as (c & Hc & Hc1).
  unfold Double.wormholeStability. rewrite Hc.
  assert (HP : pow2 15 < pow2 1024) by (apply pow2_lt; lia).
  assert (H9 : pow2 9 = 512) by (rewrite pow2_Z by lia; reflexivity).
  assert (H11 : pow2 11 = 2048) by (rewrite pow2_Z by lia; reflexivity).
  assert (H12 : pow2 12 = 4096) by (rewrite pow2_Z by lia; reflexivity).
  assert (H15 : pow2 15 = 32768) by (rewrite pow2_Z by lia; reflexivity).
  (* the difference *)
  unfold Double.sub. cbn [JS.sub neg JS.add].
  assert (Ht : - pow2 11 <= round64 (x + - c) <= - pow2 9)
    by (apply round64_between_neg; try lia; lra).
  rewrite rnd_Fin by lra. set (t := round64 (x + - c)) in *.
  (* the argument of the exponential *)
  unfold Double.mul. cbn [JS.mul].
  assert (Hv : pow2 12 <= round64 (- (10) * t) <= pow2 15)
    by (apply round64_between; try lia; lra).
  rewrite rnd_Fin by lra. set (v := round64 (- (10) * t)) in *.
  (* the exponential overflows *)
  unfold Double.Math_exp. cbn [JS.Math_exp].
  assert (He : pow2 1024 <= round64 (exp v)).
  { rewrite <- (round64_pow2 1024) by lia. apply round64_le.
    apply exp_above_pow2; [lia | lra]. }
  cbn [rnd]. rewrite (Rltb_false (round64 (exp v))) by lra.
  unfold Double.add, Double.div. cbn [JS.add rnd JS.div]. apply rnd_0.
Qed.

Lemma round64_just_above_1 : round64 (1 + pow2 (- 54)) = 1.
Proof.
  pose proof (pow2_pos (- 54)) as Hpos.
  assert (Hsmall : pow2 (- 54) < pow2 0) by (apply pow2_lt; lia).
  rewrite pow2_0 in Hsmall.
  rewrite round64_pos by lra. unfold round_pos.
  assert (HE : exponent (1 + pow2 (- 54)) = 0%Z).
  { unfold exponent. rewrite (Int_part_log2_is _ 0); [lia|].
    change (pow2 (0 + 1)) with (pow2 1). rewrite pow2_0, pow2_1. lra. }
  rewrite HE. cbn [Z.sub Z.add Z.opp Z.pos_sub].
  change (0 - 52)%Z with (- 52)%Z.
  assert (H52 : pow2 52 * pow2 (- 52) = 1)
    by (rewrite <- pow2_add; apply pow2_0).
  assert (Hq : pow2 (- 54) = pow2 (- 2) * pow2 (- 52))
    by (rewrite <- pow2_add; reflexivity).
  assert (H2 : pow2 (- 2) = / 4).
  { change (pow2 (- 2)) with (pow2 (- (2))). rewrite pow2_opp, pow2_Z by lia.
    f_equal. }
  pose proof (pow2_pos (- 52)) as Hu.
  replace ((1 + pow2 (- 54)) / pow2 (- 52)) with (IZR (2 ^ 52) + / 4).
  - assert (Hf : Int_part (IZR (2 ^ 52) + / 4) = (2 ^ 52)%Z)
      by (symmetry; apply Int_part_spec; lra).
    unfold nearest_even. rewrite Hf.
    rewrite Rltb_true by lra.
    rewrite <- (pow2_Z 52) by lia. exact H52.
  - rewrite <- (pow2_Z 52) by lia. rewrite Hq, H2.
    apply Rmult_eq_reg_r with (pow2 (- 52)); [|lra].
    unfold Rdiv. rewrite Rmult_assoc, Rinv_l by lra.
    rewrite Rmult_plus_distr_r, H52. ring.
Qed.

(** Far above the midpoint the exponential is absorbed by the addition
    and the stability is exactly 1. *)
Lemma stability_far_above (x : R) :
  50 <= x <= 60 -> Double.wormholeStability (Fin x) = Fin 1.
Proof.
  intros Hx. destruct rnd_0_8 as (c & Hc & Hc1).
  unfold Double.wormholeStability. rewrite Hc.
  assert (HP : pow2 10 < pow2 1024) by (apply pow2_lt; lia).
  assert (H5 : pow2 5 = 32) by (rewrite pow2_Z by lia; reflexivity).
  assert (H6 : pow2 6 = 64) by (rewrite pow2_Z by lia; reflexivity).
  assert (H8 : pow2 8 = 256) by (rewrite pow2_Z by lia; reflexivity).
  assert (H10 : pow2 10 = 1024) by (rewrite pow2_Z by lia; reflexivity).
  (* the difference *)
  unfold Double.sub. cbn [JS.sub neg JS.add].
  assert (Ht : pow2 5 <= round64 (x + - c) <= pow2 6)
    by (apply round64_between; try lia; lra).
  rewrite rnd_Fin by lra. set (t := round64 (x + - c)) in *.
  (* the argument of the exponential *)
  unfold Double.mul. cbn [JS.mul].
  assert (Hv : - pow2 10 <= round64 (- (10) * t) <= - pow2 8)
    by (apply round64_between_neg; try lia; lra).
  rewrite rnd_Fin by lra. set (v := round64 (- (10) * t)) in *.
  (* the exponential is tiny *)
  unfold Double.Math_exp. cbn [JS.Math_exp].
  pose proof (pow2_pos (- 54)) as H54.
  assert (H54' : pow2 (- 54) < pow2 0) by (apply pow2_lt; lia).
  rewrite pow2_0 in H54'.
  assert (He : 0 <= round64 (exp v) <= pow2 (- 54)).
  { split.
    - rewrite <- round64_0. apply round64_le, Rlt_le, exp_pos.
    - rewrite <- (round64_pow2 (- 54)) by lia. apply round64_le.
      apply exp_below_pow2; [lia | lra]. }
  rewrite rnd_Fin by lra. set (E := round64 (exp v)) in *.
  (* the addition absorbs it *)
  unfold Double.add. cbn [JS.add].
  assert (Hd : round64 (1 + E) = 1).
  { apply Rle_antisym.
    - apply Rle_trans with (round64 (1 + pow2 (- 54)));
        [apply round64_le; lra | rewrite round64_just_above_1; lra].
    - apply Rle_trans with (round64 (pow2 0));
        [rewrite round64_pow2 by lia; rewrite pow2_0; lra|].
      apply round64_le. rewrite pow2_0. lra. }
  rewrite rnd_Fin by (rewrite Hd; lra). rewrite Hd.
  unfold Double.div. cbn [JS.div]. rewrite Reqb_false by lra.
  replace (1 / 1) with 1 by lra. apply rnd_1.
Qed.

End DoubleStability.

(** C8 (as the code has it).  The stability is the logistic formula
    [1 / (1 + e^(-10 (similarity - 0.8)))] evaluated in double
    arithmetic.  It never decreases when the similarity grows, for all
    real similarities, and the stability of the double 0.8 is exactly
    0.5.  Evaluated without rounding, the formula is the logistic
    curve. *)
Theorem wormholeStability_double :
  (forall x y : R,
      x <= y ->
      le (Double.wormholeStability (Fin x)) (Double.wormholeStability (Fin y))
      = true) /\
  Double.wormholeStability (Double.rnd (Fin 0.8)) = Fin 0.5 /\
  (forall x : R,
      wormholeStability (Fin x) = Fin (1 / (1 + exp (- 10 * (x - 0.8))))).
Proof.
  split; [|split].
  - intros x y Hxy. destruct DoubleFacts.rnd_0_8 as (c & Hc & _).
    apply DoubleFacts.num_le_ge. now apply (DoubleFacts.stability_le c).
  - exact DoubleStability.stability_at_midpoint.
  - exact wormholeStability_Fin.
Qed.

Lemma wormholeStability_double_witness :
  0.7 <= 0.9 /\
  le (Double.wormholeStability (Fin 0.7)) (Double.wormholeStability (Fin 0.9))
  = true.
Proof.
  assert (H : 0.7 <= 0.9) by lra.
  exact (conj H (proj1 wormholeStability_double 0.7 0.9 H)).
Defined.

(** X17. In double arithmetic the stability of every real similarity is
    a number between 0 and 1, both bounds included. *)
Theorem wormholeStability_double_bounds :
  forall x : R,
    le (Fin 0) (Double.wormholeStability (Fin x)) = true /\
    le (Double.wormholeStability (Fin x)) (Fin 1) = true.
Proof.
  intros x. destruct DoubleFacts.rnd_0_8 as (c & Hc & _).
  destruct (DoubleFacts.stability_bounds c Hc x) as [H0 H1].
  split; now apply DoubleFacts.num_le_ge.
Qed.

(** The stability is not strictly increasing: it is 1 at the similarities
    50 and 60, where the exponential is absorbed by the addition, and 0 at
    -2000 and -1000, where the exponential overflows. *)
Lemma wormholeStability_not_strict :
  50 < 60 /\
  Double.wormholeStability (Fin 50) = Fin 1 /\
  Double.wormholeStability (Fin 60) = Fin 1 /\
  gt (Double.wormholeStability (Fin 60)) (Double.wormholeStability (Fin 50))
  = false /\
  - 2000 < - 1000 /\
  Double.wormholeStability (Fin (- 2000)) = Fin 0 /\
  Double.wormholeStability (Fin (- 1000)) = Fin 0 /\
  gt (Double.wormholeStability (Fin (- 1000)))
    (Double.wormholeStability (Fin (- 2000))) = false.
Proof.
  assert (H50 : Double.wormholeStability (Fin 50) = Fin 1)
    by (apply DoubleStability.stability_far_above; lra).
  assert (H60 : Double.wormholeStability (Fin 60) = Fin 1)
    by (apply DoubleStability.stability_far_above; lra).
  assert (H2 : Double.wormholeStability (Fin (- 2000)) = Fin 0)
    by (apply DoubleStability.stability_far_below; lra).
  assert (H1 : Double.wormholeStability (Fin (- 1000)) = Fin 0)
    by (apply DoubleStability.stability_far_below; lra).
  rewrite H50, H60, H2, H1. cbn [gt].
  rewrite !Rltb_false by lra.
  repeat (split; [first [reflexivity | lra]|]). reflexivity.
Qed.
